(** * software-design-simulator: expression evaluator and project simulator

    A shallow embedding of [simulator/expression.py] and
    [simulator/project.py].

    Conventions of the embedding.
    - A Python [float] is an IEEE-754 binary64 value: [spec_float] with
      precision 53 and maximal exponent 1024, with the arithmetic of
      [SpecFloat] (round to nearest, ties to even).
    - A Python [str] is a [string] whose characters are the code points
      below 256; [isspace] and [isdigit] are Python's predicates on that
      range.
    - A raised exception is a value of [exception]; the parser object's
      cursor [self._index] is threaded explicitly and survives a raise.
    - Loops and recursion are bounded by a [fuel] argument; the entry points
      supply enough of it and are proved never to exhaust it.
    - The evaluator is embedded twice: first with calls nested to any
      depth, then, in [Stack], on the bounded call stack of the
      interpreter, where a call too deep raises [RecursionError]. *)

From Stdlib Require Import Bool Arith ZArith List Ascii String Lia.
From Stdlib Require Import Floats.SpecFloat Floats.FloatOps Floats.PrimFloat.
Import ListNotations.

Local Open Scope string_scope.
Local Open Scope list_scope.

(** ** Floating point numbers *)

Module Float.

Definition float := spec_float.

Definition add : float -> float -> float := SFadd prec emax.
Definition sub : float -> float -> float := SFsub prec emax.
Definition mul : float -> float -> float := SFmul prec emax.
Definition div : float -> float -> float := SFdiv prec emax.
Definition neg : float -> float := SFopp.
Definition eqb : float -> float -> bool := SFeqb.
Definition ltb : float -> float -> bool := SFltb.
Definition leb : float -> float -> bool := SFleb.

Definition zero : float := S754_zero false.

(** [float(n)] of a Python [int]: the nearest binary64 value, and an
    [OverflowError] ([None]) when [n] is too large. *)
Definition of_int (n : Z) : option float :=
  match binary_normalize prec emax n 0 false with
  | S754_infinity _ => None
  | x => Some x
  end.

Fixpoint pow10 (k : nat) : positive :=
  match k with
  | O => 1%positive
  | S k' => (10 * pow10 k')%positive
  end.

(** The decimal fraction [m / 10^k], correctly rounded: the quotient of
    two exact integers, rounded once by [SFdiv]. *)
Definition of_decimal (m : Z) (k : nat) : float :=
  match m with
  | Zpos p => SFdiv prec emax (S754_finite false p 0)
                              (S754_finite false (pow10 k) 0)
  | _ => zero
  end.

End Float.

Abbreviation float := Float.float.

(** ** Exceptions and outcomes *)

(** The messages of the [ValueError]s the two modules raise, one constructor
    per [raise] statement, with the values interpolated into the message. *)
Inductive message : Type :=
| MustBeNonEmpty          (* "Expression must be a non-empty string" *)
| InvalidNumberLiteral (literal : string)
                          (* "Invalid number literal: ..." *)
| UnexpectedCharacter (char : ascii)
                          (* "Unexpected character: ..." *)
| ExpectedTokenButFound (kind found : string)
                          (* "Expected token ... but found ..." *)
| TrailingTokens          (* "Unexpected trailing tokens in expression" *)
| DivisionByZero          (* "Division by zero in expression" *)
| UnexpectedToken (kind : string)
                          (* "Unexpected token ... in expression" *)
| CouldNotConvert (text : string)
                          (* raised by the builtin [float] on a [str] *)
| NoPhases                (* "ProjectSimulator requires at least one phase" *)
| TeamSizeNotPositive     (* "team_size must be positive" *)
| NegativeCost            (* "cost_per_day cannot be negative" *)
| ComplexityNotPositive.  (* "complexity must be positive" *)

Inductive exception : Type :=
| ValueError (msg : message)
| IndexError
| OverflowError
| RecursionError.         (* "maximum recursion depth exceeded" *)

(** What a call does: it returns, it raises, or the model ran out of fuel. *)
Inductive outcome (A : Type) : Type :=
| Return (a : A)
| Raise (e : exception)
| OutOfFuel.

Arguments Return {A} a.
Arguments Raise {A} e.
Arguments OutOfFuel {A}.

(** One call after another: the second is made with what the first
    returns. *)
Definition and_then {A B} (o : outcome A) (f : A -> outcome B) : outcome B :=
  match o with
  | Return a => f a
  | Raise e => Raise e
  | OutOfFuel => OutOfFuel
  end.

(** ** Characters *)

Definition code (c : ascii) : nat := nat_of_ascii c.

Definition between (lo hi n : nat) : bool := Nat.leb lo n && Nat.leb n hi.

(** [str.isspace] on one character: TAB..CR, FS..US, SPACE, NEL and NBSP are
    the white space characters below code point 256. *)
Definition isspace (c : ascii) : bool :=
  between 9 13 (code c) || between 28 32 (code c)
  || Nat.eqb (code c) 133 || Nat.eqb (code c) 160.

(** [str.isdigit] on one character: the ASCII digits and the superscripts
    two, three and one. *)
Definition isdigit (c : ascii) : bool :=
  between 48 57 (code c)
  || Nat.eqb (code c) 178 || Nat.eqb (code c) 179 || Nat.eqb (code c) 185.

(** [char in text] for a single character. *)
Fixpoint char_in (c : ascii) (text : string) : bool :=
  match text with
  | EmptyString => false
  | String d text' => Ascii.eqb c d || char_in c text'
  end.

Definition is_dot (c : ascii) : bool := Ascii.eqb c ".".

(** ** Decimal literals

    The builtin [float] applied to a run of digits and points: at most one
    point, at least one ASCII digit, nothing else; the value is the decimal
    fraction correctly rounded. *)

Definition digit_value (c : ascii) : option Z :=
  if between 48 57 (code c) then Some (Z.of_nat (code c - 48)) else None.

Fixpoint read_decimal (text : string) (seen_dot has_digit : bool)
         (mantissa : Z) (places : nat) : option float :=
  match text with
  | EmptyString =>
      if has_digit then Some (Float.of_decimal mantissa places) else None
  | String c text' =>
      if is_dot c then
        if seen_dot then None
        else read_decimal text' true has_digit mantissa places
      else
        match digit_value c with
        | Some d =>
            read_decimal text' seen_dot true (10 * mantissa + d)%Z
                         (if seen_dot then S places else places)
        | None => None
        end
  end.

Definition float_of_literal (text : string) : option float :=
  read_decimal text false false 0%Z 0.

(** ** Tokens *)

(** The payload of a token: [float | str]. *)
Inductive token_value : Type :=
| VFloat (number : float)
| VStr (text : string).

Record _Token : Type := mk_Token { kind : string; value : token_value }.

Definition char_str (c : ascii) : string := String c EmptyString.

Definition EOF : _Token := mk_Token "EOF" (VStr "").

(** ** The parser monad

    A method of [_Parser] is a function of the cursor [self._index]; it
    gives back an outcome and the cursor it leaves behind.  The token list
    [self._tokens] never changes after [__init__]. *)

Definition parser (A : Type) : Type := nat -> outcome A * nat.

Definition ret {A} (a : A) : parser A := fun index => (Return a, index).

Definition raise {A} (e : exception) : parser A :=
  fun index => (Raise e, index).

Definition out_of_fuel {A} : parser A := fun index => (OutOfFuel, index).

Definition bind {A B} (m : parser A) (f : A -> parser B) : parser B :=
  fun index =>
    match m index with
    | (Return a, index') => f a index'
    | (Raise e, index') => (Raise e, index')
    | (OutOfFuel, index') => (OutOfFuel, index')
    end.

Notation "x <- m ;; f" := (bind m (fun x => f))
  (at level 61, m at next level, right associativity).

Definition kind_in (k : string) (kinds : list string) : bool :=
  existsb (String.eqb k) kinds.

Section Evaluator.

(** The builtin [float] applied to a [str]: [None] when it raises
    [ValueError]. *)
Variable float_of_str : string -> option float.

(** *** The tokeniser *)

(** The inner loop of the scanner: [scan_number rest] splits
    [source[index:]] at the end of the run of digits and points. *)
Fixpoint scan_number (rest : string) : string * string :=
  match rest with
  | EmptyString => (EmptyString, EmptyString)
  | String c rest' =>
      if isdigit c || is_dot c then
        let (run, after) := scan_number rest' in (String c run, after)
      else (EmptyString, rest)
  end.

(** The outer loop of [_tokenise]; [rest] is [source[index:]] and
    [tokens] the list built so far. *)
Fixpoint tokenise_loop (fuel : nat) (rest : string) (tokens : list _Token)
  : outcome (list _Token) :=
  match fuel with
  | O => OutOfFuel
  | S fuel' =>
      match rest with
      | EmptyString => Return (tokens ++ [EOF])
      | String char rest' =>
          if isspace char then tokenise_loop fuel' rest' tokens
          else if char_in char "+-*/()" then
            tokenise_loop fuel' rest'
              (tokens ++ [mk_Token (char_str char) (VStr (char_str char))])
          else if isdigit char || is_dot char then
            let (run, after) := scan_number rest' in
            let literal := String char run in
            match float_of_str literal with
            | None => Raise (ValueError (InvalidNumberLiteral literal))
            | Some number =>
                tokenise_loop fuel' after
                  (tokens ++ [mk_Token "NUMBER" (VFloat number)])
            end
          else Raise (ValueError (UnexpectedCharacter char))
      end
  end.

Definition _tokenise (source : string) : outcome (list _Token) :=
  tokenise_loop (S (String.length source)) source [].

(** *** The parser *)

Section Parser.

Variable tokens : list _Token.

(** [self._tokens[self._index]] *)
Definition _current : parser _Token :=
  fun index =>
    match nth_error tokens index with
    | Some token => (Return token, index)
    | None => (Raise IndexError, index)
    end.

Definition advance : parser unit := fun index => (Return tt, S index).

Definition _consume (k : string) : parser _Token :=
  current <- _current ;;
  if negb (String.eqb (kind current) k) then
    raise (ValueError (ExpectedTokenButFound k (kind current)))
  else
    token <- _current ;;
    _ <- advance ;;
    ret token.

(** [float(token.value)] *)
Definition float_of_value (v : token_value) : parser float :=
  match v with
  | VFloat number => ret number
  | VStr text =>
      match float_of_str text with
      | Some number => ret number
      | None => raise (ValueError (CouldNotConvert text))
      end
  end.

Fixpoint _parse_expression (fuel : nat) : parser float :=
  match fuel with
  | O => out_of_fuel
  | S fuel' =>
      value <- _parse_term fuel' ;;
      expression_loop fuel' value
  end

with expression_loop (fuel : nat) (value : float) : parser float :=
  match fuel with
  | O => out_of_fuel
  | S fuel' =>
      current <- _current ;;
      if kind_in (kind current) ["+"; "-"] then
        current <- _current ;;
        token <- _consume (kind current) ;;
        let op := kind token in
        rhs <- _parse_term fuel' ;;
        if String.eqb op "+" then expression_loop fuel' (Float.add value rhs)
        else expression_loop fuel' (Float.sub value rhs)
      else ret value
  end

with _parse_term (fuel : nat) : parser float :=
  match fuel with
  | O => out_of_fuel
  | S fuel' =>
      value <- _parse_factor fuel' ;;
      term_loop fuel' value
  end

with term_loop (fuel : nat) (value : float) : parser float :=
  match fuel with
  | O => out_of_fuel
  | S fuel' =>
      current <- _current ;;
      if kind_in (kind current) ["*"; "/"] then
        current <- _current ;;
        token <- _consume (kind current) ;;
        let op := kind token in
        rhs <- _parse_factor fuel' ;;
        if String.eqb op "*" then term_loop fuel' (Float.mul value rhs)
        else if Float.eqb rhs Float.zero then
          raise (ValueError DivisionByZero)
        else term_loop fuel' (Float.div value rhs)
      else ret value
  end

with _parse_factor (fuel : nat) : parser float :=
  match fuel with
  | O => out_of_fuel
  | S fuel' =>
      current <- _current ;;
      if kind_in (kind current) ["+"; "-"] then
        current <- _current ;;
        token <- _consume (kind current) ;;
        let op := kind token in
        value <- _parse_factor fuel' ;;
        ret (if String.eqb op "+" then value else Float.neg value)
      else _parse_primary fuel'
  end

with _parse_primary (fuel : nat) : parser float :=
  match fuel with
  | O => out_of_fuel
  | S fuel' =>
      token <- _current ;;
      if String.eqb (kind token) "NUMBER" then
        _ <- _consume "NUMBER" ;;
        float_of_value (value token)
      else if String.eqb (kind token) "(" then
        _ <- _consume "(" ;;
        value <- _parse_expression fuel' ;;
        _ <- _consume ")" ;;
        ret value
      else raise (ValueError (UnexpectedToken (kind token)))
  end.

(** Fuel that [parse] never exhausts: six levels of calls for each
    token still to be read. *)
Definition parse_fuel : nat := 6 * List.length tokens + 6.

Definition parse : parser float :=
  value <- _parse_expression parse_fuel ;;
  current <- _current ;;
  if negb (String.eqb (kind current) "EOF") then
    raise (ValueError TrailingTokens)
  else ret value.

End Parser.

(** *** The entry point *)

Fixpoint lstrip (text : string) : string :=
  match text with
  | EmptyString => EmptyString
  | String c text' => if isspace c then lstrip text' else text
  end.

(** [rstrip text] drops the white space at the end of [text]. *)
Fixpoint rstrip (text : string) : string :=
  match text with
  | EmptyString => EmptyString
  | String c text' =>
      match rstrip text' with
      | EmptyString => if isspace c then EmptyString else char_str c
      | kept => String c kept
      end
  end.

(** [str.strip()] *)
Definition strip (text : string) : string := rstrip (lstrip text).

Definition is_empty (text : string) : bool :=
  match text with EmptyString => true | _ => false end.

Definition evaluate_expression (expression : string) : outcome float :=
  if is_empty expression || String.eqb (strip expression) "" then
    Raise (ValueError MustBeNonEmpty)
  else
    match _tokenise expression with
    | Return tokens => fst (parse tokens 0)
    | Raise e => Raise e
    | OutOfFuel => OutOfFuel
    end.

End Evaluator.

(** [evaluate_expression] with the decimal reading of literals. *)
Definition evaluate (expression : string) : outcome float :=
  evaluate_expression float_of_literal expression.

(** ** The call stack

    Above, a call can be nested in a call without end.  The interpreter
    bounds the depth of its call stack: a Python function that is called
    when the stack is full does not run, and the call raises
    [RecursionError].  [Stack] is the evaluator again, on such a stack.
    Every function takes [frames], the number of frames the stack has room
    for at the moment it is called: the call takes one of them, and the
    calls made by the body have the others.  The functions of the module,
    the methods of [_Parser], its property [_current] and the [__init__]
    of the two classes are Python functions; the builtins ([len], [float],
    the methods of [str] and [list]) take no frame.  An interpreter that
    counts a builtin against the bound while it runs differs from this
    only when fewer than four frames are left at the call of
    [evaluate_expression], where no theorem below tells the two apart. *)

Module Stack.

(** The call of a method: [body] runs with the frames that are left. *)
Definition call {A} (frames : nat) (body : nat -> parser A) : parser A :=
  match frames with
  | O => raise RecursionError
  | S frames' => body frames'
  end.

(** The call of a function. *)
Definition call_function {A} (frames : nat) (body : nat -> outcome A)
  : outcome A :=
  match frames with
  | O => Raise RecursionError
  | S frames' => body frames'
  end.

(** [_Token(kind=k, value=v)]: the [__init__] the dataclass generates. *)
Definition new_Token (frames : nat) (k : string) (v : token_value)
  : outcome _Token :=
  call_function frames (fun _ => Return (mk_Token k v)).

Section Evaluator.

Variable float_of_str : string -> option float.

(** The loop of [_tokenise]; [frames] is what the body of [_tokenise] has
    for its calls. *)
Fixpoint tokenise_loop (fuel frames : nat) (rest : string)
         (tokens : list _Token) : outcome (list _Token) :=
  match fuel with
  | O => OutOfFuel
  | S fuel' =>
      match rest with
      | EmptyString =>
          and_then (new_Token frames "EOF" (VStr ""))
                   (fun token => Return (tokens ++ [token]))
      | String char rest' =>
          if isspace char then tokenise_loop fuel' frames rest' tokens
          else if char_in char "+-*/()" then
            and_then (new_Token frames (char_str char) (VStr (char_str char)))
                     (fun token =>
                        tokenise_loop fuel' frames rest' (tokens ++ [token]))
          else if isdigit char || is_dot char then
            let (run, after) := scan_number rest' in
            let literal := String char run in
            match float_of_str literal with
            | None => Raise (ValueError (InvalidNumberLiteral literal))
            | Some number =>
                and_then (new_Token frames "NUMBER" (VFloat number))
                         (fun token =>
                            tokenise_loop fuel' frames after
                                          (tokens ++ [token]))
            end
          else Raise (ValueError (UnexpectedCharacter char))
      end
  end.

Definition _tokenise (frames : nat) (source : string)
  : outcome (list _Token) :=
  call_function frames (fun frames' =>
    tokenise_loop (S (String.length source)) frames' source []).

Section Parser.

Variable tokens : list _Token.

(** [self._current]: the getter of the property is called. *)
Definition _current (frames : nat) : parser _Token :=
  call frames (fun _ => fun index =>
    match nth_error tokens index with
    | Some token => (Return token, index)
    | None => (Raise IndexError, index)
    end).

(** The message of the error reads [self._current] once more: the same
    token, with the same room. *)
Definition _consume (frames : nat) (k : string) : parser _Token :=
  call frames (fun frames' =>
    current <- _current frames' ;;
    if negb (String.eqb (kind current) k) then
      raise (ValueError (ExpectedTokenButFound k (kind current)))
    else
      token <- _current frames' ;;
      _ <- advance ;;
      ret token).

(** The two loops run in the frame of their method: their [frames] is what
    the body of the method has for its calls. *)
Fixpoint _parse_expression (fuel frames : nat) : parser float :=
  match fuel with
  | O => out_of_fuel
  | S fuel' =>
      call frames (fun frames' =>
        value <- _parse_term fuel' frames' ;;
        expression_loop fuel' frames' value)
  end

with expression_loop (fuel frames : nat) (value : float) : parser float :=
  match fuel with
  | O => out_of_fuel
  | S fuel' =>
      current <- _current frames ;;
      if kind_in (kind current) ["+"; "-"] then
        current <- _current frames ;;
        token <- _consume frames (kind current) ;;
        let op := kind token in
        rhs <- _parse_term fuel' frames ;;
        if String.eqb op "+" then
          expression_loop fuel' frames (Float.add value rhs)
        else expression_loop fuel' frames (Float.sub value rhs)
      else ret value
  end

with _parse_term (fuel frames : nat) : parser float :=
  match fuel with
  | O => out_of_fuel
  | S fuel' =>
      call frames (fun frames' =>
        value <- _parse_factor fuel' frames' ;;
        term_loop fuel' frames' value)
  end

with term_loop (fuel frames : nat) (value : float) : parser float :=
  match fuel with
  | O => out_of_fuel
  | S fuel' =>
      current <- _current frames ;;
      if kind_in (kind current) ["*"; "/"] then
        current <- _current frames ;;
        token <- _consume frames (kind current) ;;
        let op := kind token in
        rhs <- _parse_factor fuel' frames ;;
        if String.eqb op "*" then
          term_loop fuel' frames (Float.mul value rhs)
        else if Float.eqb rhs Float.zero then
          raise (ValueError DivisionByZero)
        else term_loop fuel' frames (Float.div value rhs)
      else ret value
  end

with _parse_factor (fuel frames : nat) : parser float :=
  match fuel with
  | O => out_of_fuel
  | S fuel' =>
      call frames (fun frames' =>
        current <- _current frames' ;;
        if kind_in (kind current) ["+"; "-"] then
          current <- _current frames' ;;
          token <- _consume frames' (kind current) ;;
          let op := kind token in
          value <- _parse_factor fuel' frames' ;;
          ret (if String.eqb op "+" then value else Float.neg value)
        else _parse_primary fuel' frames')
  end

with _parse_primary (fuel frames : nat) : parser float :=
  match fuel with
  | O => out_of_fuel
  | S fuel' =>
      call frames (fun frames' =>
        token <- _current frames' ;;
        if String.eqb (kind token) "NUMBER" then
          _ <- _consume frames' "NUMBER" ;;
          float_of_value float_of_str (value token)
        else if String.eqb (kind token) "(" then
          _ <- _consume frames' "(" ;;
          value <- _parse_expression fuel' frames' ;;
          _ <- _consume frames' ")" ;;
          ret value
        else raise (ValueError (UnexpectedToken (kind token))))
  end.

Definition parse (frames : nat) : parser float :=
  call frames (fun frames' =>
    value <- _parse_expression (parse_fuel tokens) frames' ;;
    current <- _current frames' ;;
    if negb (String.eqb (kind current) "EOF") then
      raise (ValueError TrailingTokens)
    else ret value).

End Parser.

(** [_Parser(tokens)]: [_Parser.__init__] keeps the list and sets the
    cursor to [0]. *)
Definition __init__ (frames : nat) (tokens : list _Token)
  : outcome (list _Token * nat) :=
  call_function frames (fun _ => Return (tokens, 0)).

Definition evaluate_expression (frames : nat) (expression : string)
  : outcome float :=
  call_function frames (fun frames' =>
    if is_empty expression || String.eqb (strip expression) "" then
      Raise (ValueError MustBeNonEmpty)
    else
      and_then (_tokenise frames' expression) (fun tokens =>
      and_then (__init__ frames' tokens) (fun self =>
      fst (parse (fst self) frames' (snd self))))).

End Evaluator.

(** [evaluate_expression] with the decimal reading of literals. *)
Definition evaluate (frames : nat) (expression : string) : outcome float :=
  evaluate_expression float_of_literal frames expression.

End Stack.

(** ** Predicates used in the statements *)

(** The binary64 value of a float constant. *)
Definition f64 (x : PrimFloat.float) : float := Prim2SF x.

Fixpoint all_chars (p : ascii -> bool) (text : string) : bool :=
  match text with
  | EmptyString => true
  | String c text' => p c && all_chars p text'
  end.

Definition not_EOF (token : _Token) : Prop := kind token <> "EOF".

Definition digit_or_dot (c : ascii) : bool := isdigit c || is_dot c.

Definition starts_with (p : ascii -> bool) (text : string) : bool :=
  match text with
  | EmptyString => false
  | String c _ => p c
  end.


(** [cursor_safe tokens m]: started at an index of [tokens], the method [m]
    leaves the cursor at an index of [tokens] that is not smaller, and it
    does not raise [IndexError], whether it returns or raises. *)
Definition cursor_safe {A} (tokens : list _Token) (m : parser A) : Prop :=
  forall index,
    index < List.length tokens ->
    index <= snd (m index) < List.length tokens
    /\ fst (m index) <> Raise IndexError.

(** ** The grammar, as syntax trees

    The module's docstring gives the grammar the parser handles:
<<
    expression  ::= term (("+" | "-") term)*
    term        ::= factor (("*" | "/") factor)*
    factor      ::= ("+" | "-") factor | primary
    primary     ::= NUMBER | "(" expression ")"
>>
    The trees below are its derivations, with the repetitions nested to the
    left.  [show_*] writes a tree back as the text it derives, [tokens_of_*]
    as the tokens of that text, and [eval_*] is the value arithmetic gives
    it, operand by operand from left to right.  None of this is used by the
    parser: it is what the parser is compared with. *)

Inductive sign : Type := Plus | Minus.

Inductive mulop : Type := Times | Divide.

Inductive primary_tree : Type :=
| Number (literal : string)
| Paren (e : expression_tree)

with factor_tree : Type :=
| Primary (p : primary_tree)
| Unary (op : sign) (f : factor_tree)

with term_tree : Type :=
| TFactor (f : factor_tree)
| TBinary (t : term_tree) (op : mulop) (f : factor_tree)

with expression_tree : Type :=
| ETerm (t : term_tree)
| EBinary (e : expression_tree) (op : sign) (t : term_tree).

Scheme primary_tree_mut := Induction for primary_tree Sort Prop
with factor_tree_mut := Induction for factor_tree Sort Prop
with term_tree_mut := Induction for term_tree Sort Prop
with expression_tree_mut := Induction for expression_tree Sort Prop.

Combined Scheme tree_mutind from
  primary_tree_mut, factor_tree_mut, term_tree_mut, expression_tree_mut.

Definition sign_char (op : sign) : ascii :=
  match op with Plus => "+"%char | Minus => "-"%char end.

Definition mulop_char (op : mulop) : ascii :=
  match op with Times => "*"%char | Divide => "/"%char end.

Fixpoint show_primary (p : primary_tree) : string :=
  match p with
  | Number literal => literal
  | Paren e => ("(" ++ show_expression e ++ ")")%string
  end

with show_factor (f : factor_tree) : string :=
  match f with
  | Primary p => show_primary p
  | Unary op f' => String (sign_char op) (show_factor f')
  end

with show_term (t : term_tree) : string :=
  match t with
  | TFactor f => show_factor f
  | TBinary t' op f =>
      (show_term t' ++ String (mulop_char op) (show_factor f))%string
  end

with show_expression (e : expression_tree) : string :=
  match e with
  | ETerm t => show_term t
  | EBinary e' op t =>
      (show_expression e' ++ String (sign_char op) (show_term t))%string
  end.

(** The token the tokeniser makes of an operator or a parenthesis. *)
Definition symbol (c : ascii) : _Token :=
  mk_Token (char_str c) (VStr (char_str c)).

Definition number_token (number : float) : _Token :=
  mk_Token "NUMBER" (VFloat number).

Definition apply_sign (op : sign) (value : float) : float :=
  match op with Plus => value | Minus => Float.neg value end.

Definition apply_additive (op : sign) (a b : float) : float :=
  match op with Plus => Float.add a b | Minus => Float.sub a b end.

Definition apply_multiplicative (op : mulop) (a b : float) : outcome float :=
  match op with
  | Times => Return (Float.mul a b)
  | Divide =>
      if Float.eqb b Float.zero then Raise (ValueError DivisionByZero)
      else Return (Float.div a b)
  end.

Section Trees.

Variable float_of_str : string -> option float.

Definition number_of (literal : string) : float :=
  match float_of_str literal with
  | Some number => number
  | None => Float.zero
  end.

Fixpoint tokens_of_primary (p : primary_tree) : list _Token :=
  match p with
  | Number literal => [number_token (number_of literal)]
  | Paren e => symbol "(" :: tokens_of_expression e ++ [symbol ")"]
  end

with tokens_of_factor (f : factor_tree) : list _Token :=
  match f with
  | Primary p => tokens_of_primary p
  | Unary op f' => symbol (sign_char op) :: tokens_of_factor f'
  end

with tokens_of_term (t : term_tree) : list _Token :=
  match t with
  | TFactor f => tokens_of_factor f
  | TBinary t' op f =>
      tokens_of_term t' ++ symbol (mulop_char op) :: tokens_of_factor f
  end

with tokens_of_expression (e : expression_tree) : list _Token :=
  match e with
  | ETerm t => tokens_of_term t
  | EBinary e' op t =>
      tokens_of_expression e' ++ symbol (sign_char op) :: tokens_of_term t
  end.

Fixpoint eval_primary (p : primary_tree) : outcome float :=
  match p with
  | Number literal =>
      match float_of_str literal with
      | Some number => Return number
      | None => Raise (ValueError (InvalidNumberLiteral literal))
      end
  | Paren e => eval_expression e
  end

with eval_factor (f : factor_tree) : outcome float :=
  match f with
  | Primary p => eval_primary p
  | Unary op f' =>
      and_then (eval_factor f') (fun value => Return (apply_sign op value))
  end

with eval_term (t : term_tree) : outcome float :=
  match t with
  | TFactor f => eval_factor f
  | TBinary t' op f =>
      and_then (eval_term t') (fun a =>
      and_then (eval_factor f) (fun b => apply_multiplicative op a b))
  end

with eval_expression (e : expression_tree) : outcome float :=
  match e with
  | ETerm t => eval_term t
  | EBinary e' op t =>
      and_then (eval_expression e') (fun a =>
      and_then (eval_term t) (fun b => Return (apply_additive op a b)))
  end.

(** A literal the tokeniser reads as one number: a non-empty run of digits
    and points that [float] accepts. *)
Definition literal_ok (literal : string) : Prop :=
  starts_with digit_or_dot literal = true
  /\ all_chars digit_or_dot literal = true
  /\ float_of_str literal <> None.

Fixpoint primary_ok (p : primary_tree) : Prop :=
  match p with
  | Number literal => literal_ok literal
  | Paren e => expression_ok e
  end

with factor_ok (f : factor_tree) : Prop :=
  match f with
  | Primary p => primary_ok p
  | Unary _ f' => factor_ok f'
  end

with term_ok (t : term_tree) : Prop :=
  match t with
  | TFactor f => factor_ok f
  | TBinary t' _ f => term_ok t' /\ factor_ok f
  end

with expression_ok (e : expression_tree) : Prop :=
  match e with
  | ETerm t => term_ok t
  | EBinary e' _ t => expression_ok e' /\ term_ok t
  end.

End Trees.

(** ** Chains of operators and operands *)

(** [n] minus signs written before [text]. *)
Fixpoint minus_signs (n : nat) (text : string) : string :=
  match n with
  | O => text
  | S n' => String "-" (minus_signs n' text)
  end.







(** ** Notions used in the proofs about the parser *)

(** [agrees m m']: wherever [m] finishes, [m'] does the same. *)
Definition agrees {A} (m m' : parser A) : Prop :=
  forall index, fst (m index) <> OutOfFuel -> m' index = m index.

(** [finite tokens b m]: started with at most [b] tokens left, [m]
    finishes, and it leaves the cursor where it was or further, within the
    list. *)
Definition finite {A} (tokens : list _Token) (b : nat) (m : parser A)
  : Prop :=
  forall index,
    index <= List.length tokens ->
    List.length tokens - index <= b ->
    fst (m index) <> OutOfFuel
    /\ index <= snd (m index) <= List.length tokens.

(** [safe_when tokens P m]: on [tokens], [m] is safe from the indices that
    satisfy [P]. *)
Definition safe_when {A} (tokens : list _Token) (P : nat -> Prop)
           (m : parser A) : Prop :=
  forall index,
    P index ->
    index < List.length tokens ->
    index <= snd (m index) < List.length tokens
    /\ fst (m index) <> Raise IndexError.

Definition anywhere : nat -> Prop := fun _ => True.

(** An operator or a parenthesis. *)
Definition is_symbol (c : ascii) : Prop :=
  isspace c = false /\ char_in c "+-*/()" = true.

(** [finishes m index r index']: with enough fuel, [m] started at [index]
    ends with the outcome [r] and the cursor at [index']. *)
Definition finishes {A} (m : nat -> parser A) (index : nat)
           (r : outcome A) (index' : nat) : Prop :=
  r <> OutOfFuel
  /\ exists fuel0, forall fuel, fuel0 <= fuel -> m fuel index = (r, index').

(** What may follow a term: a token that is neither [*] nor [/]. *)
Definition ends_term (rest : list _Token) : Prop :=
  exists token rest',
    rest = token :: rest' /\ kind_in (kind token) ["*"; "/"] = false.

(** A method that parses a whole tree: it ends with the value of the tree
    just after its tokens, or with the exception its evaluation raises. *)
Definition parses_whole (m : nat -> parser float) (index width : nat)
           (expected : outcome float) : Prop :=
  match expected with
  | Return _ => finishes m index expected (index + width)
  | Raise _ => exists index', finishes m index expected index'
  | OutOfFuel => False
  end.

(** A method that parses the first operand of a chain and goes on with the
    loop [tail]: it ends the way the loop does when the loop is started
    after the tree with the value of the tree. *)
Definition parses_head (m : nat -> parser float)
           (tail : nat -> float -> parser float) (index width : nat)
           (expected : outcome float) : Prop :=
  match expected with
  | Return v =>
      forall r index',
        finishes (fun fuel => tail fuel v) (index + width) r index' ->
        finishes m index r index'
  | Raise _ => exists index', finishes m index expected index'
  | OutOfFuel => False
  end.



(** * The project simulator *)

Module Project.

Record Phase : Type := mk_Phase {
  name : string;
  base_days : float;
  complexity_multiplier : float;
  variability : float;
  quality_impact : float
}.

Record PhaseOutcome : Type := mk_PhaseOutcome {
  outcome_name : string;
  planned_days : float;
  actual_days : float;
  start_day : float;
  end_day : float;
  quality_delta : float
}.

(** The attributes of a [ProjectSimulator] object. *)
Record ProjectSimulator : Type := mk_ProjectSimulator {
  _phases : list Phase;
  team_size : Z;
  cost_per_day : float
}.

(** The dictionary [simulate] returns. *)
Record report : Type := mk_report {
  total_days : float;
  budget_used : float;
  quality_score : float;
  timeline : list PhaseOutcome
}.

(** The builtins [max] and [min] on two floats: the first argument is kept
    unless the second is strictly greater (strictly smaller). *)
Definition max (a b : float) : float := if Float.ltb a b then b else a.

Definition min (a b : float) : float := if Float.ltb b a then b else a.

(** [ProjectSimulator.__init__] *)
Definition __init__ (phases : list Phase) (team_size : Z)
           (cost_per_day : float) : outcome ProjectSimulator :=
  match phases with
  | [] => Raise (ValueError NoPhases)
  | _ =>
      if (team_size <=? 0)%Z then Raise (ValueError TeamSizeNotPositive)
      else if Float.ltb cost_per_day Float.zero
           then Raise (ValueError NegativeCost)
           else Return (mk_ProjectSimulator phases team_size cost_per_day)
  end.

Section Simulation.

(** The module [random] is not part of the repository.  [generator] is the
    state of a [random.Random] object, [seeded n] the generator
    [random.Random(n)] makes from an integer, [uniform g a b] the number
    [g.uniform(a, b)] and the state it leaves.  [random.Random(None)] seeds
    the generator from the operating system: [from_entropy] takes it from
    the [environment], everything the process can observe that is not an
    argument of the call. *)
Variable generator : Type.
Variable environment : Type.
Variable seeded : Z -> generator.
Variable from_entropy : environment -> generator * environment.
Variable uniform : generator -> float -> float -> float * generator.

(** What a call can read and change besides its arguments: the simulator
    object and the environment. *)
Record process : Type := mk_process {
  self : ProjectSimulator;
  env : environment
}.

(** [random.Random(seed)] *)
Definition Random (seed : option Z) (e : environment)
  : generator * environment :=
  match seed with
  | Some n => (seeded n, e)
  | None => from_entropy e
  end.

(** The expected duration, computed in [sample_duration] and again in
    [simulate]. *)
Definition expected_days (phase : Phase) (complexity : float) : float :=
  Float.add (base_days phase)
            (Float.mul (complexity_multiplier phase)
                       (max (Float.sub complexity (f64 1.0)) Float.zero)).

(** [Phase.sample_duration] *)
Definition sample_duration (phase : Phase) (complexity : float)
           (rng : generator) : float * generator :=
  let expected := expected_days phase complexity in
  let spread := Float.mul expected (variability phase) in
  let (offset, rng') := uniform rng (Float.neg spread) spread in
  let duration := max (Float.add expected offset) Float.zero in
  (duration, rng').

(** The local variables of [simulate] that the loop updates. *)
Record locals : Type := mk_locals {
  rng : generator;
  day_cursor : float;
  outcomes : list PhaseOutcome;
  score : float
}.

(** One turn of the loop [for phase in self._phases]. *)
Definition simulate_phase (complexity : float) (l : locals) (phase : Phase)
  : locals :=
  let planned := expected_days phase complexity in
  let (actual, rng') := sample_duration phase complexity (rng l) in
  let start := day_cursor l in
  let finish := Float.add start actual in
  mk_locals rng'
            finish
            (outcomes l
             ++ [mk_PhaseOutcome (name phase) planned actual start finish
                                 (quality_impact phase)])
            (Float.add (score l) (quality_impact phase)).

(** [ProjectSimulator.simulate] *)
Definition simulate (complexity : float) (seed : option Z) (p : process)
  : outcome report * process :=
  if Float.leb complexity Float.zero then
    (Raise (ValueError ComplexityNotPositive), p)
  else
    let (rng0, env') := Random seed (env p) in
    let p' := mk_process (self p) env' in
    let l := fold_left (simulate_phase complexity) (_phases (self p))
                       (mk_locals rng0 Float.zero [] (f64 70.0)) in
    let total := day_cursor l in
    match Float.of_int (team_size (self p)) with
    | None => (Raise OverflowError, p')
    | Some size =>
        let budget := Float.mul (Float.mul total size)
                                (cost_per_day (self p)) in
        let quality := max (min (score l) (f64 100.0)) Float.zero in
        (Return (mk_report total budget quality (outcomes l)), p')
    end.

End Simulation.

#[warnings="-inexact-float"]
Definition DEFAULT_PHASES : list Phase :=
  [ mk_Phase "Requirements" (f64 10) (f64 6) (f64 0.1) (f64 5.0);
    mk_Phase "Design" (f64 12) (f64 5) (f64 0.15) (f64 7.5);
    mk_Phase "Implementation" (f64 30) (f64 12) (f64 0.2) (f64 3.0);
    mk_Phase "Verification" (f64 14) (f64 8) (f64 0.1) (f64 4.5);
    mk_Phase "Deployment" (f64 5) (f64 2) (f64 0.05) (f64 (-1.0)) ].

Definition create_default_simulator (team_size : Z) (cost_per_day : float)
  : outcome ProjectSimulator :=
  __init__ DEFAULT_PHASES team_size cost_per_day.

(** The timeline runs on without a gap: it starts at [start], every phase
    ends [actual_days] after it starts, the next one starts where it ends,
    and the last one ends at [total]. *)
Fixpoint chained (start : float) (phases : list PhaseOutcome) (total : float)
  : Prop :=
  match phases with
  | [] => total = start
  | o :: rest =>
      start_day o = start
      /\ end_day o = Float.add (start_day o) (actual_days o)
      /\ chained (end_day o) rest total
  end.

End Project.

(** The timeline of a report in the words of its fields: it is not empty
    and begins on day [0.0]; every phase ends [actual_days] after it
    starts; every phase starts when the one before it ends; [total_days] is
    the end of the last phase. *)
Definition contiguous (r : Project.report) : Prop :=
  (exists first rest,
      Project.timeline r = first :: rest
      /\ Project.start_day first = Float.zero
      /\ Project.total_days r = Project.end_day (List.last rest first))
  /\ Forall (fun o => Project.end_day o
                      = Float.add (Project.start_day o)
                                  (Project.actual_days o))
            (Project.timeline r)
  /\ (forall i previous next,
         nth_error (Project.timeline r) i = Some previous ->
         nth_error (Project.timeline r) (S i) = Some next ->
         Project.start_day next = Project.end_day previous).

(** ** A small generator, for examples

    A counter stands for the generator; [uniform] returns the lower bound
    and counts the draw. *)
Definition counter_uniform (g : nat) (a b : float) : float * nat := (a, S g).

Definition counter_simulate :=
  Project.simulate nat unit Z.to_nat (fun e => (O, e)) counter_uniform.

Definition example_simulator : Project.ProjectSimulator :=
  Project.mk_ProjectSimulator Project.DEFAULT_PHASES 3 (f64 1000).

Definition example_report : Project.report :=
  match fst (counter_simulate (f64 1.5) (Some 42%Z)
               (Project.mk_process unit example_simulator tt)) with
  | Return r => r
  | _ => Project.mk_report Float.zero Float.zero Float.zero []
  end.

(** * Texts with white space *)

(** What the tokeniser makes one token of: a number literal or one of the
    characters [+ - * / ( )]. *)
Inductive lexeme : Type :=
| LNumber (literal : string)
| LSymbol (c : ascii).

Definition lexeme_text (x : lexeme) : string :=
  match x with
  | LNumber literal => literal
  | LSymbol c => char_str c
  end.

Definition is_number (x : lexeme) : bool :=
  match x with LNumber _ => true | LSymbol _ => false end.

(** [render items trail]: every lexeme written after its gap, then
    [trail]. *)
Fixpoint render (items : list (string * lexeme)) (trail : string) : string :=
  match items with
  | [] => trail
  | (gap, x) :: more => (gap ++ lexeme_text x ++ render more trail)%string
  end.

Definition blank (text : string) : Prop := all_chars isspace text = true.

(** No two number literals touch: a literal written after a literal has a
    gap that is not empty. *)
Fixpoint separated (after_number : bool) (items : list (string * lexeme))
  : Prop :=
  match items with
  | [] => True
  | (gap, x) :: more =>
      (after_number && is_number x = true -> gap <> EmptyString)
      /\ separated (is_number x) more
  end.

Fixpoint lexemes_of_primary (p : primary_tree) : list lexeme :=
  match p with
  | Number literal => [LNumber literal]
  | Paren e => LSymbol "(" :: lexemes_of_expression e ++ [LSymbol ")"]
  end

with lexemes_of_factor (f : factor_tree) : list lexeme :=
  match f with
  | Primary p => lexemes_of_primary p
  | Unary op f' => LSymbol (sign_char op) :: lexemes_of_factor f'
  end

with lexemes_of_term (t : term_tree) : list lexeme :=
  match t with
  | TFactor f => lexemes_of_factor f
  | TBinary t' op f =>
      lexemes_of_term t' ++ LSymbol (mulop_char op) :: lexemes_of_factor f
  end

with lexemes_of_expression (e : expression_tree) : list lexeme :=
  match e with
  | ETerm t => lexemes_of_term t
  | EBinary e' op t =>
      lexemes_of_expression e' ++ LSymbol (sign_char op) :: lexemes_of_term t
  end.

Section Lexemes.

Variable float_of_str : string -> option float.

Definition token_of (x : lexeme) : _Token :=
  match x with
  | LNumber literal => number_token (number_of float_of_str literal)
  | LSymbol c => symbol c
  end.

Definition lexeme_ok (x : lexeme) : Prop :=
  match x with
  | LNumber literal => literal_ok float_of_str literal
  | LSymbol c => is_symbol c
  end.

(** Gaps of white space only, between lexemes the tokeniser accepts. *)
Definition items_ok (items : list (string * lexeme)) : Prop :=
  Forall (fun item => blank (fst item) /\ lexeme_ok (snd item)) items.

(** The tokens of the lexemes, in order. *)
Definition lex (items : list (string * lexeme)) : list _Token :=
  List.map (fun item => token_of (snd item)) items.

End Lexemes.

Definition lexeme_kind (x : lexeme) : string :=
  match x with
  | LNumber _ => "NUMBER"
  | LSymbol c => char_str c
  end.

(** The kind of the token that comes next: of the first lexeme, or [EOF]
    when there is none. *)
Definition next_kind (more : list lexeme) : string :=
  match more with
  | [] => "EOF"
  | x :: _ => lexeme_kind x
  end.

(** No two number literals follow each other. *)
Fixpoint alternating (after_number : bool) (l : list lexeme) : Prop :=
  match l with
  | [] => True
  | x :: more =>
      after_number && is_number x = false /\ alternating (is_number x) more
  end.

(** A text the tokeniser reads as the lexemes of [items]: gaps and [trail]
    are white space, the lexemes are literals [float] accepts and operator
    or parenthesis characters, and literals do not touch. *)
Definition well_spaced (float_of_str : string -> option float)
           (items : list (string * lexeme)) (trail : string) : Prop :=
  items_ok float_of_str items /\ separated false items /\ blank trail.

(** A character the tokeniser has no use for. *)
Definition unexpected (c : ascii) : Prop :=
  isspace c = false /\ char_in c "+-*/()" = false /\ digit_or_dot c = false.

(** The lexemes of a tree with no white space at all. *)
Definition unspaced (l : list lexeme) : list (string * lexeme) :=
  List.map (fun x => (EmptyString, x)) l.

(** Signs written before a text, and what they do to a value. *)
Fixpoint signs_text (signs : list sign) (text : string) : string :=
  match signs with
  | [] => text
  | op :: more => String (sign_char op) (signs_text more text)
  end.

Definition count_minus (signs : list sign) : nat :=
  List.length (List.filter (fun op => match op with Minus => true
                                               | Plus => false end) signs).

(** [only_value_error o]: the call returned, or raised a [ValueError]. *)
Definition only_value_error {A} (o : outcome A) : Prop :=
  match o with
  | Return _ => True
  | Raise (ValueError _) => True
  | _ => False
  end.

(** [never_raises e m]: [m] does not raise [e]. *)
Definition never_raises {A} (e : exception) (m : parser A) : Prop :=
  forall index, fst (m index) <> Raise e.

(** The lexemes of a well-formed tree are accepted by the tokeniser, they
    become the tokens of the tree, and no two literals are neighbours. *)
Definition lexemes_fit (float_of_str : string -> option float)
           (l : list lexeme) (tokens : list _Token) : Prop :=
  Forall (lexeme_ok float_of_str) l
  /\ List.map (token_of float_of_str) l = tokens
  /\ alternating false l.


(** The signs of a list applied to a factor, the first one outermost. *)
Fixpoint signed (signs : list sign) (f : factor_tree) : factor_tree :=
  match signs with
  | [] => f
  | op :: more => Unary op (signed more f)
  end.

(** * Signs of floats *)

Definition is_nan (x : float) : bool :=
  match x with S754_nan => true | _ => false end.

(** [x < 0] is false: [x] is a zero, a positive number, [+inf] or NaN. *)
Definition not_negative (x : float) : Prop := Float.ltb x Float.zero = false.

(** The same, read off the sign bit. *)
Definition sign_not_negative (x : float) : Prop :=
  match x with
  | S754_infinity s | S754_finite s _ _ => s = false
  | S754_zero _ | S754_nan => True
  end.

(** The sign of a float that has one. *)
Definition has_sign (s : bool) (x : float) : Prop :=
  match x with
  | S754_zero s' | S754_infinity s' | S754_finite s' _ _ => s' = s
  | S754_nan => True
  end.

(** * The command line *)

Module Cli.

(** The [argparse.Namespace] that [parse_args] returns: [complexity] and
    [cost_per_day] are read with [float], [seed] and [team_size] with
    [int], and [seed] is [None] when the option is absent. *)
Record Namespace : Type := mk_Namespace {
  complexity : float;
  seed : option Z;
  team_size : Z;
  cost_per_day : float
}.

Section Run.

Variable generator : Type.
Variable environment : Type.
Variable seeded : Z -> generator.
Variable from_entropy : environment -> generator * environment.
Variable uniform : generator -> float -> float -> float * generator.

(** [run_simulation]: the simulator is built first, then run. *)
Definition run_simulation (args : Namespace) (e : environment)
  : outcome Project.report * environment :=
  match Project.create_default_simulator (team_size args)
                                         (cost_per_day args) with
  | Return simulator =>
      let (result, p) :=
        Project.simulate generator environment seeded from_entropy uniform
                         (complexity args) (seed args)
                         (Project.mk_process environment simulator e) in
      (result, Project.env environment p)
  | Raise x => (Raise x, e)
  | OutOfFuel => (OutOfFuel, e)
  end.

End Run.

End Cli.

(** No day count of the outcome of a phase is negative. *)
Definition days_not_negative (o : Project.PhaseOutcome) : Prop :=
  not_negative (Project.actual_days o)
  /\ not_negative (Project.start_day o)
  /\ not_negative (Project.end_day o).


(** The quality score before it is clamped: [70.0] and the impacts of the
    phases, added in order. *)
Definition raw_quality (phases : list Project.Phase) : float :=
  fold_left (fun score phase => Float.add score (Project.quality_impact phase))
            phases (f64 70.0).

(** The names of the default phases, in order. *)
Definition default_names : list string :=
  ["Requirements"; "Design"; "Implementation"; "Verification"; "Deployment"].

(** [segment L i j l]: the lexemes of [L] from index [i] up to index [j]
    are [l]. *)
Definition segment (L : list lexeme) (i j : nat) (l : list lexeme) : Prop :=
  skipn i L = l ++ skipn j L /\ j = i + List.length l.

(** What a method that returns has read, from index [i] to index [j] of the
    lexemes [L], is the lexemes of a tree, and what it returns is the value
    of the tree. *)
Definition reads_primary (float_of_str : string -> option float)
           (L : list lexeme) (i j : nat) (v : float) : Prop :=
  exists p,
    primary_ok float_of_str p
    /\ eval_primary float_of_str p = Return v
    /\ segment L i j (lexemes_of_primary p).

Definition reads_factor (float_of_str : string -> option float)
           (L : list lexeme) (i j : nat) (v : float) : Prop :=
  exists f,
    factor_ok float_of_str f
    /\ eval_factor float_of_str f = Return v
    /\ segment L i j (lexemes_of_factor f).

Definition reads_term (float_of_str : string -> option float)
           (L : list lexeme) (i j : nat) (v : float) : Prop :=
  exists t,
    term_ok float_of_str t
    /\ eval_term float_of_str t = Return v
    /\ segment L i j (lexemes_of_term t).

Definition reads_expression (float_of_str : string -> option float)
           (L : list lexeme) (i j : nat) (v : float) : Prop :=
  exists e,
    expression_ok float_of_str e
    /\ eval_expression float_of_str e = Return v
    /\ segment L i j (lexemes_of_expression e).


(** * Notions used in the statements about the call stack *)

(** The frames a token can cost.  An opening parenthesis nests four calls,
    [_parse_primary] in [_parse_factor] in [_parse_term] in
    [_parse_expression]; a sign nests one, [_parse_factor] in itself when
    the sign is unary. *)
Definition kind_nesting (k : string) : nat :=
  if String.eqb k "(" then 4
  else if kind_in k ["+"; "-"] then 1
  else 0.

Definition tokens_nesting (tokens : list _Token) : nat :=
  list_sum (List.map (fun token => kind_nesting (kind token)) tokens).

(** The same for the tokens from [index] on. *)
Definition nesting_from (tokens : list _Token) (index : nat) : nat :=
  tokens_nesting (skipn index tokens).

(** The same counted on the text: four for each ["("], one for each ["+"]
    and ["-"]. *)
Fixpoint nesting (text : string) : nat :=
  match text with
  | EmptyString => 0
  | String c text' => kind_nesting (char_str c) + nesting text'
  end.

(** The number of signs the token list starts with. *)
Fixpoint signs_ahead (tokens : list _Token) : nat :=
  match tokens with
  | [] => 0
  | token :: more =>
      if kind_in (kind token) ["+"; "-"] then S (signs_ahead more) else 0
  end.

(** [overflows_or m' m]: [m'] raises [RecursionError], or it does what [m]
    does. *)
Definition overflows_or {A} (m' m : parser A) : Prop :=
  forall index,
    fst (m' index) = Raise RecursionError \/ m' index = m index.

(** [fits tokens P frames bound m' m]: started on a token that satisfies
    [P] and from which the nesting and [bound] more frames fit on the
    stack, [m'] does what [m] does. *)
Definition fits {A} (tokens : list _Token) (P : nat -> Prop)
           (frames bound : nat) (m' m : parser A) : Prop :=
  forall index,
    P index ->
    index < List.length tokens ->
    nesting_from tokens index + bound <= frames ->
    m' index = m index.

(** [needs tokens frames bound m']: [m'] returns from [index] only when the
    signs ahead and [bound] more frames fit on the stack. *)
Definition needs {A} (tokens : list _Token) (frames bound : nat)
           (m' : parser A) : Prop :=
  forall index a index',
    m' index = (Return a, index') ->
    signs_ahead (skipn index tokens) + bound <= frames.

(** [no_other_error o]: the call returned, or raised [ValueError] or
    [RecursionError]. *)
Definition no_other_error {A} (o : outcome A) : Prop :=
  match o with
  | Return _ => True
  | Raise (ValueError _) => True
  | Raise RecursionError => True
  | _ => False
  end.

(** ** Division, on trees *)

Section Division.

Variable float_of_str : string -> option float.

(** The value arithmetic gives a tree when no divisor is tested: [/] is
    the division of binary64, which has a result for a zero divisor too. *)
Fixpoint value_primary (p : primary_tree) : float :=
  match p with
  | Number literal => number_of float_of_str literal
  | Paren e => value_expression e
  end

with value_factor (f : factor_tree) : float :=
  match f with
  | Primary p => value_primary p
  | Unary op f' => apply_sign op (value_factor f')
  end

with value_term (t : term_tree) : float :=
  match t with
  | TFactor f => value_factor f
  | TBinary t' Times f => Float.mul (value_term t') (value_factor f)
  | TBinary t' Divide f => Float.div (value_term t') (value_factor f)
  end

with value_expression (e : expression_tree) : float :=
  match e with
  | ETerm t => value_term t
  | EBinary e' op t =>
      apply_additive op (value_expression e') (value_term t)
  end.

(** Some division of the tree, at any depth, has a divisor whose value is
    [== 0]. *)
Fixpoint zero_divisor_primary (p : primary_tree) : bool :=
  match p with
  | Number _ => false
  | Paren e => zero_divisor_expression e
  end

with zero_divisor_factor (f : factor_tree) : bool :=
  match f with
  | Primary p => zero_divisor_primary p
  | Unary _ f' => zero_divisor_factor f'
  end

with zero_divisor_term (t : term_tree) : bool :=
  match t with
  | TFactor f => zero_divisor_factor f
  | TBinary t' Times f => zero_divisor_term t' || zero_divisor_factor f
  | TBinary t' Divide f =>
      zero_divisor_term t' || zero_divisor_factor f
      || Float.eqb (value_factor f) Float.zero
  end

with zero_divisor_expression (e : expression_tree) : bool :=
  match e with
  | ETerm t => zero_divisor_term t
  | EBinary e' _ t => zero_divisor_expression e' || zero_divisor_term t
  end.

End Division.
(** * Properties *)

(** C1: on the eight scenarios of the test suite, [evaluate_expression]
    returns exactly the stated binary64 value. *)
Theorem evaluate_expression_scenarios :
  evaluate "1 + 2" = Return (f64 3.0)
  /\ evaluate "2 * 3 + 4" = Return (f64 10.0)
  /\ evaluate "2 * (3 + 4)" = Return (f64 14.0)
  /\ evaluate "(1 + 2) * (3 + 4)" = Return (f64 21.0)
  /\ evaluate "-5 + 10" = Return (f64 5.0)
  /\ evaluate "-3 * -2" = Return (f64 6.0)
  /\ evaluate "8 / 4" = Return (f64 2.0)
  /\ evaluate "3 + 4 * 2 / (1 - 5)" = Return (f64 1.0).
Proof.
  repeat split; vm_compute; reflexivity.
Qed.

(** ** Characters *)

Lemma digit_or_dot_not_space (c : ascii) :
  isdigit c || is_dot c = true -> isspace c = false.
Proof.
  destruct c as [[] [] [] [] [] [] [] []]; vm_compute; congruence.
Qed.

Lemma digit_or_dot_not_operator (c : ascii) :
  isdigit c || is_dot c = true -> char_in c "+-*/()" = false.
Proof.
  destruct c as [[] [] [] [] [] [] [] []]; vm_compute; congruence.
Qed.

Lemma operator_kind_not_EOF (c : ascii) : char_str c <> "EOF".
Proof. unfold char_str; congruence. Qed.

(** ** The tokeniser *)

Section TokeniserFacts.

Variable float_of_str : string -> option float.

Lemma scan_number_length (rest : string) :
  String.length (snd (scan_number rest)) <= String.length rest.
Proof.
  induction rest as [|c rest IH]; simpl; [lia|].
  destruct (isdigit c || is_dot c); simpl; [|lia].
  destruct (scan_number rest); simpl in *; lia.
Qed.

(** The outer loop never runs out of fuel when it has more fuel than
    characters left. *)
Lemma tokenise_loop_terminates (fuel : nat) :
  forall rest tokens,
    String.length rest < fuel ->
    tokenise_loop float_of_str fuel rest tokens <> OutOfFuel.
Proof.
  induction fuel as [|fuel IH]; intros rest tokens Hlen; [lia|].
  destruct rest as [|c rest]; cbn [tokenise_loop]; [congruence|].
  simpl in Hlen.
  destruct (isspace c); [apply IH; lia|].
  destruct (char_in c "+-*/()"); [apply IH; lia|].
  destruct (isdigit c || is_dot c); [|congruence].
  pose proof (scan_number_length rest) as Hscan.
  destruct (scan_number rest) as [run after]; simpl in Hscan.
  destruct (float_of_str (String c run)); [apply IH; lia|congruence].
Qed.

Lemma _tokenise_terminates (source : string) :
  _tokenise float_of_str source <> OutOfFuel.
Proof. apply tokenise_loop_terminates; lia. Qed.

Lemma tokenise_loop_EOF (fuel : nat) :
  forall rest acc tokens,
    Forall not_EOF acc ->
    tokenise_loop float_of_str fuel rest acc = Return tokens ->
    exists body, tokens = body ++ [EOF] /\ Forall not_EOF body.
Proof.
  induction fuel as [|fuel IH]; intros rest acc tokens Hacc Hrun;
    [discriminate|].
  destruct rest as [|c rest]; cbn [tokenise_loop] in Hrun.
  - injection Hrun as <-. now exists acc.
  - destruct (isspace c); [now apply (IH _ _ _ Hacc Hrun)|].
    destruct (char_in c "+-*/()").
    { apply (IH _ _ _) in Hrun; [assumption|].
      apply Forall_app; split; [assumption|].
      constructor; [apply operator_kind_not_EOF|constructor]. }
    destruct (isdigit c || is_dot c); [|discriminate].
    destruct (scan_number rest) as [run after].
    destruct (float_of_str (String c run)); [|discriminate].
    apply (IH _ _ _) in Hrun; [assumption|].
    apply Forall_app; split; [assumption|].
    constructor; [unfold not_EOF; simpl; congruence|constructor].
Qed.

(** C5: when the tokeniser succeeds, its result is a list of tokens none of
    which is an [EOF] token, followed by one [EOF] token. *)
Theorem _tokenise_ends_with_one_EOF (source : string) (tokens : list _Token) :
  _tokenise float_of_str source = Return tokens ->
  exists body,
    tokens = body ++ [EOF] /\ Forall (fun token => kind token <> "EOF") body.
Proof.
  intros Hrun.
  apply (tokenise_loop_EOF _ _ [] _ (Forall_nil _) Hrun).
Qed.

End TokeniserFacts.

(** A witness for C5: the tokens of ["1 + 2"]. *)
Lemma _tokenise_ends_with_one_EOF_witness :
  exists body,
    [mk_Token "NUMBER" (VFloat (f64 1.0)); mk_Token "+" (VStr "+");
     mk_Token "NUMBER" (VFloat (f64 2.0)); EOF] = body ++ [EOF]
    /\ Forall (fun token => kind token <> "EOF") body.
Proof.
  apply (_tokenise_ends_with_one_EOF float_of_literal "1 + 2").
  vm_compute. reflexivity.
Defined.

(** ** Blank input *)

Section BlankInput.

Variable float_of_str : string -> option float.

Lemma lstrip_blank (text : string) :
  all_chars isspace text = true -> lstrip text = "".
Proof.
  induction text as [|c text IH]; simpl; [reflexivity|].
  destruct (isspace c); simpl; [exact IH|discriminate].
Qed.

Lemma strip_blank (text : string) :
  all_chars isspace text = true -> strip text = "".
Proof. intros H. unfold strip. now rewrite (lstrip_blank _ H). Qed.

Lemma tokenise_loop_blank (fuel : nat) :
  forall rest acc,
    all_chars isspace rest = true ->
    String.length rest < fuel ->
    tokenise_loop float_of_str fuel rest acc = Return (acc ++ [EOF]).
Proof.
  induction fuel as [|fuel IH]; intros rest acc Hblank Hlen; [lia|].
  destruct rest as [|c rest]; cbn [tokenise_loop]; [reflexivity|].
  simpl in Hblank, Hlen.
  destruct (isspace c); [|discriminate].
  apply IH; [exact Hblank|lia].
Qed.

(** C7: an empty or all-white-space expression is rejected with the
    "must be non-empty" [ValueError].  The tokeniser is not what rejects it:
    run on such a string it returns the single token [EOF], on which the
    parser would raise a different error. *)
Theorem evaluate_expression_rejects_blank (expression : string) :
  all_chars isspace expression = true ->
  evaluate_expression float_of_str expression
    = Raise (ValueError MustBeNonEmpty)
  /\ _tokenise float_of_str expression = Return [EOF]
  /\ fst (parse float_of_str [EOF] 0)
     = Raise (ValueError (UnexpectedToken "EOF")).
Proof.
  intros Hblank. split; [|split].
  - unfold evaluate_expression.
    rewrite (strip_blank _ Hblank). simpl.
    now rewrite orb_true_r.
  - unfold _tokenise.
    now rewrite (tokenise_loop_blank _ _ [] Hblank) by lia.
  - reflexivity.
Qed.

End BlankInput.

(** A witness for C7: three spaces. *)
Lemma evaluate_expression_rejects_blank_witness :
  evaluate_expression float_of_literal "   "
    = Raise (ValueError MustBeNonEmpty)
  /\ _tokenise float_of_literal "   " = Return [EOF]
  /\ fst (parse float_of_literal [EOF] 0)
     = Raise (ValueError (UnexpectedToken "EOF")).
Proof.
  apply (evaluate_expression_rejects_blank float_of_literal "   ").
  reflexivity.
Defined.

(** ** Number literals *)

Section Literals.

Variable float_of_str : string -> option float.

(** The inner loop takes the whole run of digits and points, however many
    points it holds, and stops at the first other character. *)
Lemma scan_number_maximal (rest : string) :
  let (run, after) := scan_number rest in
  rest = (run ++ after)%string
  /\ all_chars digit_or_dot run = true
  /\ starts_with digit_or_dot after = false.
Proof.
  induction rest as [|c rest IH]; simpl; [auto|].
  fold (digit_or_dot c).
  destruct (digit_or_dot c) eqn:Hc.
  - destruct (scan_number rest) as [run after].
    destruct IH as (-> & Hrun & Hafter). simpl.
    rewrite Hc, Hrun. auto.
  - simpl. rewrite Hc. auto.
Qed.

(** The tokeniser raises "Invalid number literal" only for a literal the
    conversion rejects. *)
Lemma tokenise_loop_invalid_literal (fuel : nat) :
  forall rest acc literal,
    tokenise_loop float_of_str fuel rest acc
      = Raise (ValueError (InvalidNumberLiteral literal)) ->
    float_of_str literal = None.
Proof.
  induction fuel as [|fuel IH]; intros rest acc literal Hrun;
    [discriminate|].
  destruct rest as [|c rest]; cbn [tokenise_loop] in Hrun; [discriminate|].
  destruct (isspace c); [now apply (IH _ _ _ Hrun)|].
  destruct (char_in c "+-*/()"); [now apply (IH _ _ _ Hrun)|].
  destruct (isdigit c || is_dot c); [|discriminate].
  destruct (scan_number rest) as [run after].
  destruct (float_of_str (String c run)) eqn:Hconv;
    [now apply (IH _ _ _ Hrun)|].
  now injection Hrun as <-.
Qed.

(** C8: where the scanner meets a digit or a point, the literal is the whole
    run of digits and points from there, whatever the number of points; the
    tokeniser raises "Invalid number literal" with that literal exactly when
    [float] rejects it.  ["1.2.3"] is rejected this way. *)
Theorem _tokenise_invalid_literal
        (fuel : nat) (char : ascii) (rest : string) (tokens : list _Token) :
  digit_or_dot char = true ->
  let literal := String char (fst (scan_number rest)) in
  let after := snd (scan_number rest) in
  String char rest = (literal ++ after)%string
  /\ all_chars digit_or_dot literal = true
  /\ starts_with digit_or_dot after = false
  /\ (float_of_str literal = None <->
      tokenise_loop float_of_str (S fuel) (String char rest) tokens
        = Raise (ValueError (InvalidNumberLiteral literal)))
  /\ _tokenise float_of_literal "1.2.3"
     = Raise (ValueError (InvalidNumberLiteral "1.2.3")).
Proof.
  intros Hchar literal after. subst literal after.
  pose proof (scan_number_maximal rest) as Hscan.
  cbn [tokenise_loop].
  rewrite (digit_or_dot_not_space _ Hchar).
  rewrite (digit_or_dot_not_operator _ Hchar).
  unfold digit_or_dot in Hchar. rewrite Hchar.
  destruct (scan_number rest) as [run after].
  destruct Hscan as (Hsplit & Hrun & Hafter). simpl.
  fold (digit_or_dot char). unfold digit_or_dot at 1. rewrite Hchar. simpl.
  repeat split; try assumption.
  - now rewrite Hsplit.
  - intros Hnone. now rewrite Hnone.
  - destruct (float_of_str (String char run)) eqn:Hconv; [|reflexivity].
    intros Hraise.
    apply tokenise_loop_invalid_literal in Hraise. congruence.
Qed.

End Literals.

(** A witness for C8: the scanner at the start of ["1.2.3+4"]. *)
Lemma _tokenise_invalid_literal_witness :
  "1.2.3+4" = ("1.2.3" ++ "+4")%string
  /\ all_chars digit_or_dot "1.2.3" = true
  /\ starts_with digit_or_dot "+4" = false
  /\ (float_of_literal "1.2.3" = None <->
      tokenise_loop float_of_literal 8 "1.2.3+4" []
        = Raise (ValueError (InvalidNumberLiteral "1.2.3")))
  /\ _tokenise float_of_literal "1.2.3"
     = Raise (ValueError (InvalidNumberLiteral "1.2.3")).
Proof.
  apply (_tokenise_invalid_literal float_of_literal 7 "1" ".2.3+4" []).
  reflexivity.
Defined.

(** ** The parser: unfolding equations *)

(** One goal for each of the six mutually recursive methods. *)
Ltac six := split; [|split; [|split; [|split; [|split]]]].

Section ParserFacts.

Variable float_of_str : string -> option float.
Variable tokens : list _Token.

Local Abbreviation current := (_current tokens).
Local Abbreviation consume := (_consume tokens).
Local Abbreviation expression := (_parse_expression float_of_str tokens).
Local Abbreviation expression_tail := (expression_loop float_of_str tokens).
Local Abbreviation term := (_parse_term float_of_str tokens).
Local Abbreviation term_tail := (term_loop float_of_str tokens).
Local Abbreviation factor := (_parse_factor float_of_str tokens).
Local Abbreviation primary := (_parse_primary float_of_str tokens).

Lemma _parse_expression_S (fuel : nat) :
  expression (S fuel) = (value <- term fuel ;; expression_tail fuel value).
Proof. reflexivity. Qed.

Lemma expression_loop_S (fuel : nat) (value : float) :
  expression_tail (S fuel) value =
  (token <- current ;;
   if kind_in (kind token) ["+"; "-"] then
     token <- current ;;
     token <- consume (kind token) ;;
     rhs <- term fuel ;;
     if String.eqb (kind token) "+"
     then expression_tail fuel (Float.add value rhs)
     else expression_tail fuel (Float.sub value rhs)
   else ret value).
Proof. reflexivity. Qed.

Lemma _parse_term_S (fuel : nat) :
  term (S fuel) = (value <- factor fuel ;; term_tail fuel value).
Proof. reflexivity. Qed.

Lemma term_loop_S (fuel : nat) (value : float) :
  term_tail (S fuel) value =
  (token <- current ;;
   if kind_in (kind token) ["*"; "/"] then
     token <- current ;;
     token <- consume (kind token) ;;
     rhs <- factor fuel ;;
     if String.eqb (kind token) "*"
     then term_tail fuel (Float.mul value rhs)
     else if Float.eqb rhs Float.zero
          then raise (ValueError DivisionByZero)
          else term_tail fuel (Float.div value rhs)
   else ret value).
Proof. reflexivity. Qed.

Lemma _parse_factor_S (fuel : nat) :
  factor (S fuel) =
  (token <- current ;;
   if kind_in (kind token) ["+"; "-"] then
     token <- current ;;
     token <- consume (kind token) ;;
     value <- factor fuel ;;
     ret (if String.eqb (kind token) "+" then value else Float.neg value)
   else primary fuel).
Proof. reflexivity. Qed.

Lemma _parse_primary_S (fuel : nat) :
  primary (S fuel) =
  (token <- current ;;
   if String.eqb (kind token) "NUMBER" then
     _ <- consume "NUMBER" ;;
     float_of_value float_of_str (value token)
   else if String.eqb (kind token) "(" then
     _ <- consume "(" ;;
     value <- expression fuel ;;
     _ <- consume ")" ;;
     ret value
   else raise (ValueError (UnexpectedToken (kind token)))).
Proof. reflexivity. Qed.

(** ** More fuel changes nothing *)

Lemma agrees_refl {A} (m : parser A) : agrees m m.
Proof. now intros index _. Qed.

Lemma agrees_bind {A B} (m m' : parser A) (f f' : A -> parser B) :
  agrees m m' -> (forall a, agrees (f a) (f' a)) ->
  agrees (bind m f) (bind m' f').
Proof.
  intros Hm Hf index. unfold bind.
  specialize (Hm index).
  destruct (m index) as [[a|e|] index'] eqn:Em; simpl.
  - intros Hfin. rewrite Hm by discriminate. now apply Hf.
  - intros _. now rewrite Hm by discriminate.
  - congruence.
Qed.

Ltac agrees_step :=
  first
    [ apply agrees_refl
    | assumption
    | apply agrees_bind; [|intros ?]
    | match goal with
      | |- agrees (if ?b then _ else _) _ => destruct b
      end ].

Lemma fuel_step :
  forall fuel,
    agrees (expression fuel) (expression (S fuel))
    /\ (forall value,
           agrees (expression_tail fuel value) (expression_tail (S fuel) value))
    /\ agrees (term fuel) (term (S fuel))
    /\ (forall value, agrees (term_tail fuel value) (term_tail (S fuel) value))
    /\ agrees (factor fuel) (factor (S fuel))
    /\ agrees (primary fuel) (primary (S fuel)).
Proof.
  induction fuel as [|fuel (IHe & IHel & IHt & IHtl & IHf & IHp)].
  - assert (Hzero : forall m : parser float, agrees out_of_fuel m)
      by (intros m index Hfin; now elim Hfin).
    repeat split; intros; apply Hzero.
  - six.
    + rewrite 2 _parse_expression_S. agrees_step; [exact IHt|apply IHel].
    + intros value. rewrite 2 expression_loop_S.
      repeat agrees_step; apply IHel.
    + rewrite 2 _parse_term_S. agrees_step; [exact IHf|apply IHtl].
    + intros value. rewrite 2 term_loop_S. repeat agrees_step; apply IHtl.
    + rewrite 2 _parse_factor_S. repeat agrees_step.
    + rewrite 2 _parse_primary_S. repeat agrees_step.
Qed.

Lemma agrees_trans {A} (m m' m'' : parser A) :
  agrees m m' -> agrees m' m'' -> agrees m m''.
Proof.
  intros H H' index Hfin.
  rewrite <- (H index Hfin). apply H'. now rewrite (H index Hfin).
Qed.

Lemma fuel_mono (fuel fuel' : nat) :
  fuel <= fuel' ->
  agrees (expression fuel) (expression fuel')
  /\ (forall value,
         agrees (expression_tail fuel value) (expression_tail fuel' value))
  /\ agrees (term fuel) (term fuel')
  /\ (forall value, agrees (term_tail fuel value) (term_tail fuel' value))
  /\ agrees (factor fuel) (factor fuel')
  /\ agrees (primary fuel) (primary fuel').
Proof.
  induction 1 as [|fuel' _ (IHe & IHel & IHt & IHtl & IHf & IHp)].
  - repeat split; intros; apply agrees_refl.
  - destruct (fuel_step fuel') as (He & Hel & Ht & Htl & Hf & Hp).
    repeat split; intros; eapply agrees_trans; eauto.
Qed.

(** ** The parser terminates *)

Lemma finite_ret {A} (b : nat) (a : A) : finite tokens b (ret a).
Proof. intros index Hle Hb. simpl. split; [discriminate|lia]. Qed.

Lemma finite_raise {A} (b : nat) (e : exception) : finite tokens b (@raise A e).
Proof. intros index Hle Hb. simpl. split; [discriminate|lia]. Qed.

Lemma finite_bind {A B} (b : nat) (m : parser A) (f : A -> parser B) :
  finite tokens b m -> (forall a, finite tokens b (f a)) ->
  finite tokens b (bind m f).
Proof.
  intros Hm Hf index Hle Hb. unfold bind.
  destruct (Hm index Hle Hb) as (Hfin & Hlo & Hhi).
  destruct (m index) as [[a|e|] index']; simpl in *.
  - destruct (Hf a index' Hhi) as (Hfin' & Hlo' & Hhi'); [lia|].
    split; [assumption|lia].
  - split; [discriminate|lia].
  - congruence.
Qed.

Lemma finite_current (b : nat) : finite tokens b current.
Proof.
  intros index Hle Hb. unfold _current.
  destruct (nth_error tokens index); simpl; split; try discriminate; lia.
Qed.

(** After [_consume] one token fewer is left. *)
Lemma finite_consume {B} (b : nat) (k : string) (f : _Token -> parser B) :
  (forall b', b = S b' -> forall token, finite tokens b' (f token)) ->
  finite tokens b (bind (consume k) f).
Proof.
  intros Hf index Hle Hb. unfold bind, _consume, bind, _current, advance.
  destruct (nth_error tokens index) as [token|] eqn:Hnth; simpl.
  - assert (Hlt : index < List.length tokens)
      by (apply nth_error_Some; congruence).
    destruct (negb (kind token =? k)%string); simpl.
    + split; [discriminate|lia].
    + rewrite Hnth. simpl.
      destruct b as [|b']; [lia|].
      destruct (Hf b' eq_refl token (S index)) as (Hfin & Hlo & Hhi);
        [lia|lia|].
      split; [assumption|lia].
  - split; [discriminate|lia].
Qed.

Lemma finite_weaken {A} (b b' : nat) (m : parser A) :
  b' <= b -> finite tokens b m -> finite tokens b' m.
Proof. intros Hbb Hm index Hle Hb. apply Hm; lia. Qed.

Lemma finite_float_of_value (b : nat) (v : token_value) :
  finite tokens b (float_of_value float_of_str v).
Proof.
  destruct v as [number|text]; simpl; [apply finite_ret|].
  destruct (float_of_str text); [apply finite_ret|apply finite_raise].
Qed.

Lemma parser_finite :
  forall fuel b,
    (6 * b + 6 <= fuel -> finite tokens b (expression fuel))
    /\ (6 * b + 5 <= fuel ->
        forall value, finite tokens b (expression_tail fuel value))
    /\ (6 * b + 4 <= fuel -> finite tokens b (term fuel))
    /\ (6 * b + 3 <= fuel ->
        forall value, finite tokens b (term_tail fuel value))
    /\ (6 * b + 2 <= fuel -> finite tokens b (factor fuel))
    /\ (6 * b + 1 <= fuel -> finite tokens b (primary fuel)).
Proof.
  induction fuel as [|fuel IH]; intros b.
  - repeat split; intros; lia.
  - pose proof (IH b) as (IHe & IHel & IHt & IHtl & IHf & IHp).
    six; intros Hfuel.
    + rewrite _parse_expression_S.
      apply finite_bind; [apply IHt; lia|intros value; apply IHel; lia].
    + intros value. rewrite expression_loop_S.
      apply finite_bind; [apply finite_current|intros token].
      destruct (kind_in (kind token) ["+"; "-"]); [|apply finite_ret].
      apply finite_bind; [apply finite_current|intros token'].
      apply finite_consume. intros b' -> op.
      pose proof (IH b') as (_ & IHel' & IHt' & _).
      apply finite_bind; [apply IHt'; lia|intros rhs].
      destruct (kind op =? "+")%string; apply IHel'; lia.
    + rewrite _parse_term_S.
      apply finite_bind; [apply IHf; lia|intros value; apply IHtl; lia].
    + intros value. rewrite term_loop_S.
      apply finite_bind; [apply finite_current|intros token].
      destruct (kind_in (kind token) ["*"; "/"]); [|apply finite_ret].
      apply finite_bind; [apply finite_current|intros token'].
      apply finite_consume. intros b' -> op.
      pose proof (IH b') as (_ & _ & _ & IHtl' & IHf' & _).
      apply finite_bind; [apply IHf'; lia|intros rhs].
      destruct (kind op =? "*")%string; [apply IHtl'; lia|].
      destruct (Float.eqb rhs Float.zero);
        [apply finite_raise|apply IHtl'; lia].
    + rewrite _parse_factor_S.
      apply finite_bind; [apply finite_current|intros token].
      destruct (kind_in (kind token) ["+"; "-"]); [|apply IHp; lia].
      apply finite_bind; [apply finite_current|intros token'].
      apply finite_consume. intros b' -> op.
      pose proof (IH b') as (_ & _ & _ & _ & IHf' & _).
      apply finite_bind; [apply IHf'; lia|intros v; apply finite_ret].
    + rewrite _parse_primary_S.
      apply finite_bind; [apply finite_current|intros token].
      destruct (kind token =? "NUMBER")%string.
      { apply finite_consume. intros b' -> _.
        apply finite_float_of_value. }
      destruct (kind token =? "(")%string; [|apply finite_raise].
      apply finite_consume. intros b' -> _.
      pose proof (IH b') as (IHe' & _).
      apply finite_bind; [apply IHe'; lia|intros v].
      apply finite_consume. intros b'' -> _. apply finite_ret.
Qed.

(** [parse] never runs out of fuel, whatever the tokens. *)
Lemma parse_terminates : fst (parse float_of_str tokens 0) <> OutOfFuel.
Proof.
  assert (Hfin : finite tokens (List.length tokens)
                        (parse float_of_str tokens)).
  { unfold parse.
    apply finite_bind.
    - apply (parser_finite (parse_fuel tokens) (List.length tokens)).
      unfold parse_fuel. lia.
    - intros v. apply finite_bind; [apply finite_current|intros token].
      destruct (negb (kind token =? "EOF")%string);
        [apply finite_raise|apply finite_ret]. }
  apply Hfin; lia.
Qed.

End ParserFacts.

(** ** The cursor stays on the tokens *)

Section Cursor.

Variable float_of_str : string -> option float.
Variable body : list _Token.
Variable last : _Token.
Hypothesis last_EOF : kind last = "EOF".

Local Abbreviation tokens := (body ++ [last]).
Local Abbreviation current := (_current tokens).
Local Abbreviation consume := (_consume tokens).
Local Abbreviation expression := (_parse_expression float_of_str tokens).
Local Abbreviation expression_tail := (expression_loop float_of_str tokens).
Local Abbreviation term := (_parse_term float_of_str tokens).
Local Abbreviation term_tail := (term_loop float_of_str tokens).
Local Abbreviation factor := (_parse_factor float_of_str tokens).
Local Abbreviation primary := (_parse_primary float_of_str tokens).

Lemma safe_when_weaken {A} (P : nat -> Prop) (m : parser A) :
  safe_when tokens anywhere m -> safe_when tokens P m.
Proof. intros Hm index _ Hlt. now apply Hm. Qed.

Lemma safe_ret {A} (P : nat -> Prop) (a : A) : safe_when tokens P (ret a).
Proof. intros index _ Hlt. simpl. split; [lia|discriminate]. Qed.

Lemma safe_raise {A} (P : nat -> Prop) (msg : message) :
  safe_when tokens P (@raise A (ValueError msg)).
Proof. intros index _ Hlt. simpl. split; [lia|discriminate]. Qed.

Lemma safe_out_of_fuel {A} (P : nat -> Prop) :
  safe_when tokens P (@out_of_fuel A).
Proof. intros index _ Hlt. simpl. split; [lia|discriminate]. Qed.

Lemma safe_bind {A B} (P : nat -> Prop) (m : parser A) (f : A -> parser B) :
  safe_when tokens P m -> (forall a, safe_when tokens anywhere (f a)) ->
  safe_when tokens P (bind m f).
Proof.
  intros Hm Hf index HP Hlt. unfold bind.
  destruct (Hm index HP Hlt) as ((Hlo & Hhi) & Hne).
  destruct (m index) as [[a|e|] index']; simpl in *.
  - destruct (Hf a index' I Hhi) as ((Hlo' & Hhi') & Hne').
    split; [lia|assumption].
  - split; [lia|]. intros Heq. apply Hne. congruence.
  - split; [lia|discriminate].
Qed.

(** Reading the current token leaves the cursor alone, and what follows
    knows which token it is. *)
Lemma safe_current_bind {B} (P : nat -> Prop) (f : _Token -> parser B) :
  (forall token,
      safe_when tokens
                (fun index => P index /\ nth_error tokens index = Some token)
                (f token)) ->
  safe_when tokens P (bind current f).
Proof.
  intros Hf index HP Hlt. unfold bind, _current.
  destruct (nth_error tokens index) as [token|] eqn:Hnth.
  - now apply (Hf token).
  - apply nth_error_None in Hnth. lia.
Qed.

Lemma not_last (index : nat) (token : _Token) :
  nth_error tokens index = Some token ->
  kind token <> "EOF" ->
  S index < List.length tokens.
Proof.
  intros Hnth Hkind.
  assert (Hlt : index < List.length tokens)
    by (apply nth_error_Some; congruence).
  rewrite length_app in *. simpl in *.
  destruct (Nat.eq_dec index (List.length body)) as [->|Hne]; [|lia].
  rewrite nth_error_app2, Nat.sub_diag in Hnth by lia.
  injection Hnth as <-. contradiction.
Qed.

(** [_consume] moves the cursor by one only off a token that is not
    [EOF]. *)
Lemma safe_consume_bind {B} (P : nat -> Prop) (k : string)
      (f : _Token -> parser B) :
  k <> "EOF" ->
  (forall token, safe_when tokens anywhere (f token)) ->
  safe_when tokens P (bind (consume k) f).
Proof.
  intros Hk Hf index HP Hlt. unfold bind, _consume, bind, _current, advance.
  destruct (nth_error tokens index) as [token|] eqn:Hnth.
  - destruct (kind token =? k)%string eqn:Heq; simpl.
    + rewrite Hnth. simpl.
      apply String.eqb_eq in Heq.
      assert (Hnext : S index < List.length tokens)
        by (apply (not_last _ _ Hnth); congruence).
      destruct (Hf token (S index) I Hnext) as ((Hlo & Hhi) & Hne).
      split; [lia|assumption].
    + split; [lia|discriminate].
  - apply nth_error_None in Hnth. lia.
Qed.

Lemma safe_consume_current {B} (P : nat -> Prop) (seen : _Token)
      (f : _Token -> parser B) :
  kind seen <> "EOF" ->
  (forall token, safe_when tokens anywhere (f token)) ->
  safe_when tokens (fun index => P index /\ nth_error tokens index = Some seen)
            (token <- current ;; bind (consume (kind token)) f).
Proof.
  intros Hseen Hf. apply safe_current_bind. intros token index.
  intros ((HP & Hnth) & Hnth') Hlt.
  assert (token = seen) as -> by congruence.
  apply (safe_consume_bind anywhere (kind seen) f Hseen Hf index I Hlt).
Qed.

Lemma kind_in_additive (k : string) : kind_in k ["+"; "-"] = true -> k <> "EOF".
Proof. intros H ->. discriminate. Qed.

Lemma kind_in_multiplicative (k : string) :
  kind_in k ["*"; "/"] = true -> k <> "EOF".
Proof. intros H ->. discriminate. Qed.

Lemma safe_float_of_value (v : token_value) :
  safe_when tokens anywhere (float_of_value float_of_str v).
Proof.
  destruct v as [number|text]; simpl; [apply safe_ret|].
  destruct (float_of_str text); [apply safe_ret|apply safe_raise].
Qed.

Lemma parser_safe :
  forall fuel,
    safe_when tokens anywhere (expression fuel)
    /\ (forall value, safe_when tokens anywhere (expression_tail fuel value))
    /\ safe_when tokens anywhere (term fuel)
    /\ (forall value, safe_when tokens anywhere (term_tail fuel value))
    /\ safe_when tokens anywhere (factor fuel)
    /\ safe_when tokens anywhere (primary fuel).
Proof.
  induction fuel as [|fuel (IHe & IHel & IHt & IHtl & IHf & IHp)].
  - six; intros; apply safe_out_of_fuel.
  - six.
    + rewrite _parse_expression_S. now apply safe_bind.
    + intros value. rewrite expression_loop_S.
      apply safe_current_bind. intros token.
      destruct (kind_in (kind token) ["+"; "-"]) eqn:Hkind;
        [|apply safe_ret].
      apply safe_consume_current; [now apply kind_in_additive|intros op].
      apply safe_bind; [exact IHt|intros rhs].
      destruct (kind op =? "+")%string; apply IHel.
    + rewrite _parse_term_S. now apply safe_bind.
    + intros value. rewrite term_loop_S.
      apply safe_current_bind. intros token.
      destruct (kind_in (kind token) ["*"; "/"]) eqn:Hkind;
        [|apply safe_ret].
      apply safe_consume_current;
        [now apply kind_in_multiplicative|intros op].
      apply safe_bind; [exact IHf|intros rhs].
      destruct (kind op =? "*")%string; [apply IHtl|].
      destruct (Float.eqb rhs Float.zero); [apply safe_raise|apply IHtl].
    + rewrite _parse_factor_S.
      apply safe_current_bind. intros token.
      destruct (kind_in (kind token) ["+"; "-"]) eqn:Hkind;
        [|apply safe_when_weaken, IHp].
      apply safe_consume_current; [now apply kind_in_additive|intros op].
      apply safe_bind; [exact IHf|intros v; apply safe_ret].
    + rewrite _parse_primary_S.
      apply safe_current_bind. intros token.
      destruct (kind token =? "NUMBER")%string.
      { apply safe_consume_bind; [discriminate|intros _].
        apply safe_float_of_value. }
      destruct (kind token =? "(")%string; [|apply safe_raise].
      apply safe_consume_bind; [discriminate|intros _].
      apply safe_bind; [exact IHe|intros v].
      apply safe_consume_bind; [discriminate|intros _; apply safe_ret].
Qed.

Lemma safe_parse : safe_when tokens anywhere (parse float_of_str tokens).
Proof.
  unfold parse.
  apply safe_bind; [apply parser_safe|intros v].
  apply safe_current_bind. intros token.
  destruct (negb (kind token =? "EOF")%string);
    [apply safe_raise|apply safe_ret].
Qed.

End Cursor.

(** C6: on a token list that ends with an [EOF] token and holds no other,
    [parse] and every method it calls, started with the cursor on a token,
    leave the cursor on a token at the same place or further right (so at
    most on the final [EOF]), and no [self._tokens[self._index]] is out of
    range: [IndexError] is never raised.  This holds for every amount of
    fuel and whether the method returns or raises. *)
Theorem parser_cursor_safe
        (float_of_str : string -> option float)
        (body : list _Token) (last : _Token) (fuel : nat) (value : float) :
  Forall (fun token => kind token <> "EOF") body ->
  kind last = "EOF" ->
  let tokens := body ++ [last] in
  cursor_safe tokens (parse float_of_str tokens)
  /\ cursor_safe tokens (_parse_expression float_of_str tokens fuel)
  /\ cursor_safe tokens (expression_loop float_of_str tokens fuel value)
  /\ cursor_safe tokens (_parse_term float_of_str tokens fuel)
  /\ cursor_safe tokens (term_loop float_of_str tokens fuel value)
  /\ cursor_safe tokens (_parse_factor float_of_str tokens fuel)
  /\ cursor_safe tokens (_parse_primary float_of_str tokens fuel).
Proof.
  intros Hbody Hlast tokens.
  pose proof (parser_safe float_of_str body last Hlast fuel)
    as (He & Hel & Ht & Htl & Hf & Hp).
  pose proof (safe_parse float_of_str body last Hlast) as Hparse.
  split; [|six]; intros index Hlt;
    first [ apply Hparse | apply He | apply Hel | apply Ht
          | apply Htl | apply Hf | apply Hp ];
    solve [exact I | exact Hlt].
Qed.

(** A witness for C6: the tokens of ["1 + 2"]. *)
Lemma parser_cursor_safe_witness :
  let tokens := [number_token (f64 1); symbol "+"; number_token (f64 2); EOF] in
  cursor_safe tokens (parse float_of_literal tokens).
Proof.
  refine (proj1 (parser_cursor_safe
                   float_of_literal
                   [number_token (f64 1); symbol "+"; number_token (f64 2)]
                   EOF 3 Float.zero _ _)).
  - repeat constructor; discriminate.
  - reflexivity.
Defined.

(** ** Strings *)

Lemma string_app_assoc (a b c : string) :
  ((a ++ b) ++ c = a ++ (b ++ c))%string.
Proof. induction a as [|x a IH]; simpl; [reflexivity|now rewrite IH]. Qed.

Lemma string_app_empty (a : string) : (a ++ "")%string = a.
Proof. induction a as [|x a IH]; simpl; [reflexivity|now rewrite IH]. Qed.

Lemma string_app_length (a b : string) :
  String.length (a ++ b) = String.length a + String.length b.
Proof. induction a as [|x a IH]; simpl; [reflexivity|now rewrite IH]. Qed.

(** ** The tokens of a written tree *)

Section TokeniseTrees.

Variable float_of_str : string -> option float.

Local Abbreviation loop := (tokenise_loop float_of_str).

Lemma scan_number_app (run rest : string) :
  all_chars digit_or_dot run = true ->
  starts_with digit_or_dot rest = false ->
  scan_number (run ++ rest) = (run, rest).
Proof.
  intros Hrun Hrest. induction run as [|c run IH]; simpl in *.
  - destruct rest as [|c rest]; [reflexivity|]. simpl in *.
    unfold digit_or_dot in Hrest. now rewrite Hrest.
  - apply andb_true_iff in Hrun as (Hc & Hrun).
    unfold digit_or_dot in Hc. rewrite Hc, (IH Hrun). reflexivity.
Qed.

Lemma tokenise_literal (fuel : nat) (literal rest : string)
      (acc : list _Token) :
  literal_ok float_of_str literal ->
  starts_with digit_or_dot rest = false ->
  loop (S fuel) (literal ++ rest) acc
  = loop fuel rest (acc ++ [number_token (number_of float_of_str literal)]).
Proof.
  intros (Hstart & Hall & Hconv) Hrest.
  destruct literal as [|c run]; [discriminate|].
  simpl in Hstart, Hall. rewrite Hstart in Hall. simpl in Hall.
  cbn [tokenise_loop append].
  rewrite (digit_or_dot_not_space _ Hstart).
  rewrite (digit_or_dot_not_operator _ Hstart).
  unfold digit_or_dot in Hstart. rewrite Hstart.
  rewrite (scan_number_app _ _ Hall Hrest).
  unfold number_of.
  destruct (float_of_str (String c run)); [reflexivity|congruence].
Qed.

Lemma tokenise_symbol (fuel : nat) (c : ascii) (rest : string)
      (acc : list _Token) :
  is_symbol c ->
  loop (S fuel) (String c rest) acc = loop fuel rest (acc ++ [symbol c]).
Proof.
  intros (Hspace & Hop). cbn [tokenise_loop]. now rewrite Hspace, Hop.
Qed.

Lemma sign_is_symbol (op : sign) : is_symbol (sign_char op).
Proof. destruct op; split; reflexivity. Qed.

Lemma mulop_is_symbol (op : mulop) : is_symbol (mulop_char op).
Proof. destruct op; split; reflexivity. Qed.

Lemma symbol_not_digit (c : ascii) (rest : string) :
  is_symbol c -> starts_with digit_or_dot (String c rest) = false.
Proof.
  intros (_ & Hop). simpl.
  destruct (digit_or_dot c) eqn:Hc; [|reflexivity].
  rewrite (digit_or_dot_not_operator _ Hc) in Hop. discriminate.
Qed.

Local Abbreviation tokens_p := (tokens_of_primary float_of_str).
Local Abbreviation tokens_f := (tokens_of_factor float_of_str).
Local Abbreviation tokens_t := (tokens_of_term float_of_str).
Local Abbreviation tokens_e := (tokens_of_expression float_of_str).

(** Run on the text of a tree followed by [rest], the loop spends one unit
    of fuel for each token of the tree and goes on with [rest]. *)
Lemma tokenise_trees :
  (forall p rest acc fuel,
      primary_ok float_of_str p ->
      starts_with digit_or_dot rest = false ->
      loop (List.length (tokens_p p) + fuel) (show_primary p ++ rest) acc
      = loop fuel rest (acc ++ tokens_p p))
  /\ (forall f rest acc fuel,
         factor_ok float_of_str f ->
         starts_with digit_or_dot rest = false ->
         loop (List.length (tokens_f f) + fuel) (show_factor f ++ rest) acc
         = loop fuel rest (acc ++ tokens_f f))
  /\ (forall t rest acc fuel,
         term_ok float_of_str t ->
         starts_with digit_or_dot rest = false ->
         loop (List.length (tokens_t t) + fuel) (show_term t ++ rest) acc
         = loop fuel rest (acc ++ tokens_t t))
  /\ (forall e rest acc fuel,
         expression_ok float_of_str e ->
         starts_with digit_or_dot rest = false ->
         loop (List.length (tokens_e e) + fuel)
              (show_expression e ++ rest) acc
         = loop fuel rest (acc ++ tokens_e e)).
Proof.
  apply tree_mutind.
  - intros literal rest acc fuel Hok Hrest.
    now apply tokenise_literal.
  - intros e IH rest acc fuel Hok Hrest.
    cbn [show_primary tokens_of_primary List.length Nat.add].
    rewrite !string_app_assoc. cbn [append].
    rewrite tokenise_symbol by (split; reflexivity).
    rewrite length_app, <- Nat.add_assoc. cbn [List.length Nat.add].
    rewrite IH by (assumption || reflexivity).
    rewrite tokenise_symbol by (split; reflexivity).
    now rewrite <- !app_assoc.
  - intros p IH rest acc fuel Hok Hrest. now apply IH.
  - intros op f IH rest acc fuel Hok Hrest.
    cbn [show_factor tokens_of_factor List.length Nat.add append].
    rewrite tokenise_symbol by apply sign_is_symbol.
    rewrite IH by assumption.
    now rewrite <- app_assoc.
  - intros f IH rest acc fuel Hok Hrest. now apply IH.
  - intros t IHt op f IHf rest acc fuel (Hokt & Hokf) Hrest.
    cbn [show_term tokens_of_term].
    rewrite string_app_assoc. cbn [append].
    rewrite length_app, <- Nat.add_assoc. cbn [List.length Nat.add].
    rewrite IHt by (assumption || apply symbol_not_digit, mulop_is_symbol).
    rewrite tokenise_symbol by apply mulop_is_symbol.
    rewrite IHf by assumption.
    now rewrite <- !app_assoc.
  - intros t IH rest acc fuel Hok Hrest. now apply IH.
  - intros e IHe op t IHt rest acc fuel (Hoke & Hokt) Hrest.
    cbn [show_expression tokens_of_expression].
    rewrite string_app_assoc. cbn [append].
    rewrite length_app, <- Nat.add_assoc. cbn [List.length Nat.add].
    rewrite IHe by (assumption || apply symbol_not_digit, sign_is_symbol).
    rewrite tokenise_symbol by apply sign_is_symbol.
    rewrite IHt by assumption.
    now rewrite <- !app_assoc.
Qed.

(** A tree has at most as many tokens as characters. *)
Lemma tokens_no_longer_than_text :
  (forall p, primary_ok float_of_str p ->
             List.length (tokens_p p) <= String.length (show_primary p))
  /\ (forall f, factor_ok float_of_str f ->
                List.length (tokens_f f) <= String.length (show_factor f))
  /\ (forall t, term_ok float_of_str t ->
                List.length (tokens_t t) <= String.length (show_term t))
  /\ (forall e, expression_ok float_of_str e ->
                List.length (tokens_e e)
                <= String.length (show_expression e)).
Proof.
  apply tree_mutind; simpl.
  - intros [|c literal] (Hstart & _); [discriminate|simpl; lia].
  - intros e IH Hok. specialize (IH Hok).
    rewrite length_app, string_app_length. simpl. lia.
  - auto.
  - intros op f IH Hok. specialize (IH Hok). lia.
  - auto.
  - intros t IHt op f IHf (Hokt & Hokf).
    specialize (IHt Hokt). specialize (IHf Hokf).
    rewrite length_app, string_app_length. simpl. lia.
  - auto.
  - intros e IHe op t IHt (Hoke & Hokt).
    specialize (IHe Hoke). specialize (IHt Hokt).
    rewrite length_app, string_app_length. simpl. lia.
Qed.

Lemma _tokenise_show (e : expression_tree) :
  expression_ok float_of_str e ->
  _tokenise float_of_str (show_expression e)
  = Return (tokens_e e ++ [EOF]).
Proof.
  intros Hok. unfold _tokenise.
  destruct tokens_no_longer_than_text as (_ & _ & _ & Hlen).
  specialize (Hlen e Hok).
  destruct tokenise_trees as (_ & _ & _ & Hrun).
  replace (S (String.length (show_expression e)))
    with (List.length (tokens_e e)
          + S (String.length (show_expression e) - List.length (tokens_e e)))
    by lia.
  rewrite <- (string_app_empty (show_expression e)) at 2.
  rewrite Hrun by (assumption || reflexivity).
  reflexivity.
Qed.

End TokeniseTrees.

(** ** The parser, step by step *)

Lemma bind_return {A B} {m : parser A} {a : A} {index index' : nat}
      (f : A -> parser B) :
  m index = (Return a, index') -> bind m f index = f a index'.
Proof. intros H. unfold bind. now rewrite H. Qed.

Lemma bind_raise {A B} {m : parser A} {e : exception} {index index' : nat}
      (f : A -> parser B) :
  m index = (Raise e, index') -> bind m f index = (Raise e, index').
Proof. intros H. unfold bind. now rewrite H. Qed.

Section Steps.

Variable float_of_str : string -> option float.
Variable tokens : list _Token.

Local Abbreviation current := (_current tokens).
Local Abbreviation consume := (_consume tokens).
Local Abbreviation expression := (_parse_expression float_of_str tokens).
Local Abbreviation expression_tail := (expression_loop float_of_str tokens).
Local Abbreviation term := (_parse_term float_of_str tokens).
Local Abbreviation term_tail := (term_loop float_of_str tokens).
Local Abbreviation factor := (_parse_factor float_of_str tokens).
Local Abbreviation primary := (_parse_primary float_of_str tokens).

Lemma current_at (index : nat) (token : _Token) :
  nth_error tokens index = Some token ->
  current index = (Return token, index).
Proof. intros H. unfold _current. now rewrite H. Qed.

Lemma consume_at (index : nat) (token : _Token) (k : string) :
  nth_error tokens index = Some token ->
  kind token = k ->
  consume k index = (Return token, S index).
Proof.
  intros H <-. unfold _consume.
  rewrite (bind_return _ (current_at _ _ H)).
  rewrite String.eqb_refl. cbn [negb].
  rewrite (bind_return _ (current_at _ _ H)).
  reflexivity.
Qed.


(** The two ways the lemmas below are proved: name the fuel that suffices,
    unfold one call, and follow the code. *)
Ltac enough_fuel n :=
  exists (S n); intros [|?fuel] ?Hfuel; [lia|].

Ltac read_token H :=
  rewrite (bind_return _ (current_at _ _ H)).

Ltac take_token H :=
  rewrite (bind_return _ (consume_at _ _ _ H eq_refl)).

Ltac take_token_of_kind H k :=
  rewrite (bind_return _ (consume_at _ _ k H eq_refl)).

(** *** primary *)

Lemma primary_number (index : nat) (number : float) :
  nth_error tokens index = Some (number_token number) ->
  finishes primary index (Return number) (S index).
Proof.
  intros Hnth. split; [discriminate|]. enough_fuel 0.
  rewrite _parse_primary_S. read_token Hnth. cbv beta.
  replace (kind (number_token number) =? "NUMBER")%string with true
    by reflexivity.
  take_token_of_kind Hnth "NUMBER". reflexivity.
Qed.

Lemma primary_paren (index index' : nat) (r : outcome float) :
  nth_error tokens index = Some (symbol "(") ->
  finishes expression (S index) r index' ->
  match r with
  | Return v =>
      nth_error tokens index' = Some (symbol ")") ->
      finishes primary index (Return v) (S index')
  | _ => finishes primary index r index'
  end.
Proof.
  intros Hopen (Hr & f1 & H1).
  assert (Hstart : forall fuel, f1 <= fuel ->
            primary (S fuel) index
            = (value <- expression fuel ;;
               _ <- consume ")" ;; ret value) (S index)).
  { intros fuel Hfuel. rewrite _parse_primary_S. read_token Hopen. cbv beta.
    replace (kind (symbol "(") =? "NUMBER")%string with false by reflexivity.
    replace (kind (symbol "(") =? "(")%string with true by reflexivity.
    now take_token_of_kind Hopen "(". }
  destruct r as [v|e|]; [intros Hclose| |congruence].
  - split; [discriminate|]. enough_fuel f1.
    rewrite Hstart by lia.
    rewrite (bind_return _ (H1 fuel ltac:(lia))).
    now take_token_of_kind Hclose ")".
  - split; [discriminate|]. enough_fuel f1.
    rewrite Hstart by lia.
    now rewrite (bind_raise _ (H1 fuel ltac:(lia))).
Qed.

(** *** factor *)

Lemma factor_primary (index index' : nat) (token : _Token)
      (r : outcome float) :
  nth_error tokens index = Some token ->
  kind_in (kind token) ["+"; "-"] = false ->
  finishes primary index r index' ->
  finishes factor index r index'.
Proof.
  intros Hnth Hkind (Hr & f1 & H1). split; [exact Hr|]. enough_fuel f1.
  rewrite _parse_factor_S. read_token Hnth. rewrite Hkind.
  apply H1. lia.
Qed.

Lemma factor_unary (index index' : nat) (op : sign) (r : outcome float) :
  nth_error tokens index = Some (symbol (sign_char op)) ->
  finishes factor (S index) r index' ->
  finishes factor index
           (and_then r (fun value => Return (apply_sign op value))) index'.
Proof.
  intros Hnth (Hr & f1 & H1).
  split; [destruct r; simpl; congruence|]. enough_fuel f1.
  rewrite _parse_factor_S. read_token Hnth.
  replace (kind_in (kind (symbol (sign_char op))) ["+"; "-"]) with true
    by (now destruct op).
  read_token Hnth. take_token Hnth.
  destruct r as [v|e|]; [|now rewrite (bind_raise _ (H1 fuel ltac:(lia)))|
                          congruence].
  rewrite (bind_return _ (H1 fuel ltac:(lia))).
  now destruct op.
Qed.

(** *** term *)

Lemma term_start (index index' index'' : nat) (value : float)
      (r : outcome float) :
  finishes factor index (Return value) index' ->
  finishes (fun fuel => term_tail fuel value) index' r index'' ->
  finishes term index r index''.
Proof.
  intros (_ & f1 & H1) (Hr & f2 & H2). split; [exact Hr|].
  enough_fuel (Nat.max f1 f2).
  rewrite _parse_term_S, (bind_return _ (H1 fuel ltac:(lia))).
  apply H2. lia.
Qed.

Lemma term_start_raise (index index' : nat) (e : exception) :
  finishes factor index (Raise e) index' ->
  finishes term index (Raise e) index'.
Proof.
  intros (_ & f1 & H1). split; [discriminate|]. enough_fuel f1.
  now rewrite _parse_term_S, (bind_raise _ (H1 fuel ltac:(lia))).
Qed.

Lemma term_tail_stop (index : nat) (token : _Token) (value : float) :
  nth_error tokens index = Some token ->
  kind_in (kind token) ["*"; "/"] = false ->
  finishes (fun fuel => term_tail fuel value) index (Return value) index.
Proof.
  intros Hnth Hkind. split; [discriminate|]. enough_fuel 0.
  rewrite term_loop_S. read_token Hnth. now rewrite Hkind.
Qed.

Lemma term_tail_step (index index' index'' : nat) (op : mulop)
      (a b c : float) (r : outcome float) :
  nth_error tokens index = Some (symbol (mulop_char op)) ->
  finishes factor (S index) (Return b) index' ->
  apply_multiplicative op a b = Return c ->
  finishes (fun fuel => term_tail fuel c) index' r index'' ->
  finishes (fun fuel => term_tail fuel a) index r index''.
Proof.
  intros Hnth (_ & f1 & H1) Hop (Hr & f2 & H2). split; [exact Hr|].
  enough_fuel (Nat.max f1 f2).
  rewrite term_loop_S. read_token Hnth.
  replace (kind_in (kind (symbol (mulop_char op))) ["*"; "/"]) with true
    by (now destruct op).
  read_token Hnth. take_token Hnth.
  rewrite (bind_return _ (H1 fuel ltac:(lia))).
  destruct op; cbn in Hop |- *.
  - injection Hop as <-. apply H2. lia.
  - destruct (Float.eqb b Float.zero); [discriminate|].
    injection Hop as <-. apply H2. lia.
Qed.

Lemma term_tail_fails (index index' : nat) (op : mulop)
      (a b : float) (e : exception) :
  nth_error tokens index = Some (symbol (mulop_char op)) ->
  finishes factor (S index) (Return b) index' ->
  apply_multiplicative op a b = Raise e ->
  finishes (fun fuel => term_tail fuel a) index (Raise e) index'.
Proof.
  intros Hnth (_ & f1 & H1) Hop. split; [discriminate|].
  enough_fuel f1.
  rewrite term_loop_S. read_token Hnth.
  replace (kind_in (kind (symbol (mulop_char op))) ["*"; "/"]) with true
    by (now destruct op).
  read_token Hnth. take_token Hnth.
  rewrite (bind_return _ (H1 fuel ltac:(lia))).
  destruct op; cbn in Hop |- *; [discriminate|].
  destruct (Float.eqb b Float.zero); [|discriminate].
  now injection Hop as <-.
Qed.

Lemma term_tail_raise (index index' : nat) (op : mulop)
      (a : float) (e : exception) :
  nth_error tokens index = Some (symbol (mulop_char op)) ->
  finishes factor (S index) (Raise e) index' ->
  finishes (fun fuel => term_tail fuel a) index (Raise e) index'.
Proof.
  intros Hnth (_ & f1 & H1). split; [discriminate|].
  enough_fuel f1.
  rewrite term_loop_S. read_token Hnth.
  replace (kind_in (kind (symbol (mulop_char op))) ["*"; "/"]) with true
    by (now destruct op).
  read_token Hnth. take_token Hnth.
  now rewrite (bind_raise _ (H1 fuel ltac:(lia))).
Qed.

(** *** expression *)

Lemma expression_start (index index' index'' : nat) (value : float)
      (r : outcome float) :
  finishes term index (Return value) index' ->
  finishes (fun fuel => expression_tail fuel value) index' r index'' ->
  finishes expression index r index''.
Proof.
  intros (_ & f1 & H1) (Hr & f2 & H2). split; [exact Hr|].
  enough_fuel (Nat.max f1 f2).
  rewrite _parse_expression_S, (bind_return _ (H1 fuel ltac:(lia))).
  apply H2. lia.
Qed.

Lemma expression_start_raise (index index' : nat) (e : exception) :
  finishes term index (Raise e) index' ->
  finishes expression index (Raise e) index'.
Proof.
  intros (_ & f1 & H1). split; [discriminate|]. enough_fuel f1.
  now rewrite _parse_expression_S, (bind_raise _ (H1 fuel ltac:(lia))).
Qed.

Lemma expression_tail_stop (index : nat) (token : _Token) (value : float) :
  nth_error tokens index = Some token ->
  kind_in (kind token) ["+"; "-"] = false ->
  finishes (fun fuel => expression_tail fuel value) index
           (Return value) index.
Proof.
  intros Hnth Hkind. split; [discriminate|]. enough_fuel 0.
  rewrite expression_loop_S. read_token Hnth. now rewrite Hkind.
Qed.

Lemma expression_tail_step (index index' index'' : nat) (op : sign)
      (a b : float) (r : outcome float) :
  nth_error tokens index = Some (symbol (sign_char op)) ->
  finishes term (S index) (Return b) index' ->
  finishes (fun fuel => expression_tail fuel (apply_additive op a b))
           index' r index'' ->
  finishes (fun fuel => expression_tail fuel a) index r index''.
Proof.
  intros Hnth (_ & f1 & H1) (Hr & f2 & H2). split; [exact Hr|].
  enough_fuel (Nat.max f1 f2).
  rewrite expression_loop_S. read_token Hnth.
  replace (kind_in (kind (symbol (sign_char op))) ["+"; "-"]) with true
    by (now destruct op).
  read_token Hnth. take_token Hnth.
  rewrite (bind_return _ (H1 fuel ltac:(lia))).
  destruct op; cbn; apply H2; lia.
Qed.

Lemma expression_tail_raise (index index' : nat) (op : sign)
      (a : float) (e : exception) :
  nth_error tokens index = Some (symbol (sign_char op)) ->
  finishes term (S index) (Raise e) index' ->
  finishes (fun fuel => expression_tail fuel a) index (Raise e) index'.
Proof.
  intros Hnth (_ & f1 & H1). split; [discriminate|].
  enough_fuel f1.
  rewrite expression_loop_S. read_token Hnth.
  replace (kind_in (kind (symbol (sign_char op))) ["+"; "-"]) with true
    by (now destruct op).
  read_token Hnth. take_token Hnth.
  now rewrite (bind_raise _ (H1 fuel ltac:(lia))).
Qed.

End Steps.

(** ** The parser on the tokens of a tree *)

Lemma skipn_head {A} (index : nat) (l rest : list A) (x : A) :
  skipn index l = x :: rest -> nth_error l index = Some x.
Proof. intros H. now rewrite <- hd_error_skipn, H. Qed.

Lemma skipn_tail {A} (index : nat) (l rest : list A) (x : A) :
  skipn index l = x :: rest -> skipn (S index) l = rest.
Proof.
  intros H. change (S index) with (1 + index).
  now rewrite <- skipn_skipn, H.
Qed.

Lemma skipn_after {A} (index : nat) (l front rest : list A) :
  skipn index l = front ++ rest ->
  skipn (index + List.length front) l = rest.
Proof.
  intros H. rewrite Nat.add_comm, <- skipn_skipn, H.
  rewrite skipn_app, skipn_all, Nat.sub_diag. reflexivity.
Qed.

Section ParseTrees.

Variable float_of_str : string -> option float.
Variable tokens : list _Token.

Local Abbreviation expression := (_parse_expression float_of_str tokens).
Local Abbreviation expression_tail := (expression_loop float_of_str tokens).
Local Abbreviation term := (_parse_term float_of_str tokens).
Local Abbreviation term_tail := (term_loop float_of_str tokens).
Local Abbreviation factor := (_parse_factor float_of_str tokens).
Local Abbreviation primary := (_parse_primary float_of_str tokens).
Local Abbreviation tokens_p := (tokens_of_primary float_of_str).
Local Abbreviation tokens_f := (tokens_of_factor float_of_str).
Local Abbreviation tokens_t := (tokens_of_term float_of_str).
Local Abbreviation tokens_e := (tokens_of_expression float_of_str).

Lemma primary_starts (p : primary_tree) :
  exists token rest,
    tokens_p p = token :: rest /\ kind_in (kind token) ["+"; "-"] = false.
Proof. destruct p; simpl; eauto. Qed.

Lemma parse_trees :
  (forall p, primary_ok float_of_str p ->
     forall index rest,
       skipn index tokens = tokens_p p ++ rest ->
       parses_whole primary index (List.length (tokens_p p))
                    (eval_primary float_of_str p))
  /\ (forall f, factor_ok float_of_str f ->
        forall index rest,
          skipn index tokens = tokens_f f ++ rest ->
          parses_whole factor index (List.length (tokens_f f))
                       (eval_factor float_of_str f))
  /\ (forall t, term_ok float_of_str t ->
        forall index rest,
          skipn index tokens = tokens_t t ++ rest ->
          parses_head term term_tail index (List.length (tokens_t t))
                      (eval_term float_of_str t))
  /\ (forall e, expression_ok float_of_str e ->
        forall index rest,
          skipn index tokens = tokens_e e ++ rest ->
          ends_term rest ->
          parses_head expression expression_tail index
                      (List.length (tokens_e e))
                      (eval_expression float_of_str e)).
Proof.
  apply tree_mutind.
  - (* NUMBER *)
    intros literal (_ & _ & Hconv) index rest Hat.
    cbn [eval_primary tokens_of_primary List.length] in *.
    apply skipn_head in Hat. unfold number_of in Hat.
    destruct (float_of_str literal) as [number|]; [|congruence].
    unfold parses_whole. rewrite Nat.add_1_r.
    now apply primary_number.
  - (* "(" expression ")" *)
    intros e IH Hok index rest Hat.
    cbn [eval_primary tokens_of_primary primary_ok] in *.
    rewrite <- app_comm_cons, <- app_assoc in Hat.
    pose proof (skipn_head _ _ _ _ Hat) as Hopen.
    apply skipn_tail in Hat.
    specialize (IH Hok (S index) _ Hat
                   ltac:(now exists (symbol ")"), rest)).
    apply skipn_after, skipn_head in Hat.
    rewrite length_cons, length_app.
    unfold parses_head, parses_whole in *.
    destruct (eval_expression float_of_str e) as [v|x|]; [| |contradiction].
    + replace (index + S (List.length (tokens_e e) + List.length [symbol ")"]))
        with (S (S index + List.length (tokens_e e))) by (simpl; lia).
      apply (primary_paren _ _ _ _ (Return v) Hopen); [|exact Hat].
      apply IH. now apply (expression_tail_stop _ _ _ _ _ Hat).
    + destruct IH as (index' & IH). exists index'.
      apply (primary_paren _ _ _ _ (Raise x) Hopen IH).
  - (* a primary as a factor *)
    intros p IH Hok index rest Hat.
    cbn [eval_factor tokens_of_factor factor_ok] in *.
    specialize (IH Hok index rest Hat).
    destruct (primary_starts p) as (token & more & Hstart & Hkind).
    rewrite Hstart in Hat. apply skipn_head in Hat.
    unfold parses_whole in *.
    destruct (eval_primary float_of_str p) as [v|x|]; [| |contradiction].
    + now apply (factor_primary _ _ _ _ _ _ Hat Hkind).
    + destruct IH as (index' & IH). exists index'.
      now apply (factor_primary _ _ _ _ _ _ Hat Hkind).
  - (* a sign and a factor *)
    intros op f IH Hok index rest Hat.
    cbn [eval_factor tokens_of_factor factor_ok] in *.
    rewrite <- app_comm_cons in Hat.
    pose proof (skipn_head _ _ _ _ Hat) as Hop.
    apply skipn_tail in Hat.
    specialize (IH Hok (S index) rest Hat).
    rewrite length_cons. unfold parses_whole in *.
    destruct (eval_factor float_of_str f) as [v|x|]; [| |contradiction].
    + replace (index + S (List.length (tokens_f f)))
        with (S index + List.length (tokens_f f)) by lia.
      apply (factor_unary _ _ _ _ op (Return v) Hop IH).
    + destruct IH as (index' & IH). exists index'.
      apply (factor_unary _ _ _ _ op (Raise x) Hop IH).
  - (* a factor as a term *)
    intros f IH Hok index rest Hat.
    cbn [eval_term tokens_of_term term_ok] in *.
    specialize (IH Hok index rest Hat).
    unfold parses_whole, parses_head in *.
    destruct (eval_factor float_of_str f) as [v|x|]; [| |contradiction].
    + intros r index' Htail. now apply (term_start _ _ _ _ _ _ _ IH).
    + destruct IH as (index' & IH). exists index'.
      now apply term_start_raise.
  - (* term ("*" | "/") factor *)
    intros t IHt op f IHf (Hokt & Hokf) index rest Hat.
    cbn [eval_term tokens_of_term] in *.
    rewrite <- app_assoc, <- app_comm_cons in Hat.
    specialize (IHt Hokt index _ Hat).
    apply skipn_after in Hat.
    pose proof (skipn_head _ _ _ _ Hat) as Hop.
    apply skipn_tail in Hat.
    specialize (IHf Hokf _ rest Hat).
    rewrite length_app, length_cons.
    unfold parses_whole, parses_head in *.
    destruct (eval_term float_of_str t) as [a|x|]; [| |contradiction];
      cbn [and_then]; [|exact IHt].
    destruct (eval_factor float_of_str f) as [b|x|]; [| |contradiction];
      cbn [and_then].
    + destruct (apply_multiplicative op a b) as [c|x|] eqn:Happly.
      * intros r index' Htail. apply IHt.
        apply (term_tail_step _ _ _ _ _ op a b c r Hop IHf Happly).
        replace (S (index + List.length (tokens_t t))
                 + List.length (tokens_f f))
          with (index + (List.length (tokens_t t)
                         + S (List.length (tokens_f f)))) by lia.
        exact Htail.
      * eexists. apply IHt.
        apply (term_tail_fails _ _ _ _ op a b x Hop IHf Happly).
      * destruct op; simpl in Happly; [discriminate|].
        destruct (Float.eqb b Float.zero); discriminate.
    + destruct IHf as (index' & IHf). exists index'. apply IHt.
      apply (term_tail_raise _ _ _ _ op a x Hop IHf).
  - (* a term as an expression *)
    intros t IH Hok index rest Hat (token & rest' & -> & Hkind).
    cbn [eval_expression tokens_of_expression expression_ok] in *.
    specialize (IH Hok index _ Hat).
    apply skipn_after, skipn_head in Hat.
    unfold parses_head in *.
    destruct (eval_term float_of_str t) as [v|x|]; [| |contradiction].
    + intros r index' Htail.
      eapply expression_start; [|exact Htail].
      apply IH. now apply (term_tail_stop _ _ _ _ _ Hat).
    + destruct IH as (index' & IH). exists index'.
      now apply expression_start_raise.
  - (* expression ("+" | "-") term *)
    intros e IHe op t IHt (Hoke & Hokt) index rest Hat
           (token & rest' & -> & Hkind).
    cbn [eval_expression tokens_of_expression] in *.
    rewrite <- app_assoc, <- app_comm_cons in Hat.
    specialize (IHe Hoke index _ Hat
                    ltac:(eexists _, _; split;
                          [reflexivity|now destruct op])).
    apply skipn_after in Hat.
    pose proof (skipn_head _ _ _ _ Hat) as Hop.
    apply skipn_tail in Hat.
    specialize (IHt Hokt _ _ Hat).
    apply skipn_after, skipn_head in Hat.
    rewrite length_app, length_cons.
    unfold parses_head in *.
    destruct (eval_expression float_of_str e) as [a|x|]; [| |contradiction];
      cbn [and_then]; [|exact IHe].
    destruct (eval_term float_of_str t) as [b|x|]; [| |contradiction];
      cbn [and_then].
    + intros r index' Htail. apply IHe.
      eapply (expression_tail_step _ _ _ _ _ op a b r Hop).
      * apply IHt. now apply (term_tail_stop _ _ _ _ _ Hat).
      * replace (S (index + List.length (tokens_e e))
                 + List.length (tokens_t t))
          with (index + (List.length (tokens_e e)
                         + S (List.length (tokens_t t)))) by lia.
        exact Htail.
    + destruct IHt as (index' & IHt). exists index'. apply IHe.
      apply (expression_tail_raise _ _ _ _ op a x Hop IHt).
Qed.

End ParseTrees.

(** ** The evaluator on the text of a tree *)

Section Correctness.

Variable float_of_str : string -> option float.

Lemma rstrip_empty (text : string) :
  rstrip text = "" -> all_chars isspace text = true.
Proof.
  induction text as [|c text IH]; simpl; [reflexivity|].
  destruct (rstrip text); [|discriminate].
  destruct (isspace c); [intros _; now apply IH|discriminate].
Qed.

Lemma lstrip_blank_inv (text : string) :
  all_chars isspace (lstrip text) = true -> all_chars isspace text = true.
Proof.
  induction text as [|c text IH]; simpl; [reflexivity|].
  destruct (isspace c) eqn:Hc; simpl; [exact IH|].
  now rewrite Hc.
Qed.

Lemma strip_empty (text : string) :
  strip text = "" -> all_chars isspace text = true.
Proof. intros H. now apply lstrip_blank_inv, rstrip_empty. Qed.

(** The entry point lets through every string the tokeniser finds a token
    in. *)
Lemma not_blank (text : string) (token : _Token) (more : list _Token) :
  _tokenise float_of_str text = Return (token :: more ++ [EOF]) ->
  is_empty text || (strip text =? "")%string = false.
Proof.
  intros Htokens.
  destruct (is_empty text || (strip text =? "")%string) eqn:Hblank;
    [|reflexivity].
  assert (Hspace : all_chars isspace text = true).
  { apply orb_true_iff in Hblank as [Hempty|Hstrip].
    - now destruct text.
    - now apply strip_empty, String.eqb_eq. }
  unfold _tokenise in Htokens.
  rewrite (tokenise_loop_blank _ _ _ [] Hspace) in Htokens by lia.
  destruct more; discriminate.
Qed.

Lemma tokens_not_empty :
  (forall p, tokens_of_primary float_of_str p <> [])
  /\ (forall f, tokens_of_factor float_of_str f <> [])
  /\ (forall t, tokens_of_term float_of_str t <> [])
  /\ (forall e, tokens_of_expression float_of_str e <> []).
Proof.
  apply tree_mutind; simpl; try discriminate; try (intros; assumption).
  - intros t _ op f _ H. apply app_eq_nil in H as (_ & H). discriminate.
  - intros e _ op t _ H. apply app_eq_nil in H as (_ & H). discriminate.
Qed.

(** From [finishes] to the run with a given amount of fuel. *)
Lemma finishes_with (tokens : list _Token) (fuel index index' : nat)
      (r : outcome float) :
  finishes (_parse_expression float_of_str tokens) index r index' ->
  fst (_parse_expression float_of_str tokens fuel index) <> OutOfFuel ->
  _parse_expression float_of_str tokens fuel index = (r, index').
Proof.
  intros (Hr & fuel0 & Hrun) Hfin.
  pose proof (fuel_mono float_of_str tokens fuel (Nat.max fuel fuel0)
                        (Nat.le_max_l _ _)) as (Hmono & _).
  rewrite <- (Hmono index Hfin). apply Hrun. lia.
Qed.

Lemma parse_tokens_of (e : expression_tree) :
  expression_ok float_of_str e ->
  fst (parse float_of_str (tokens_of_expression float_of_str e ++ [EOF]) 0)
  = eval_expression float_of_str e.
Proof.
  intros Hok.
  set (tokens := tokens_of_expression float_of_str e ++ [EOF]).
  destruct (parse_trees float_of_str tokens) as (_ & _ & _ & Htree).
  specialize (Htree e Hok 0 [EOF] eq_refl
                    ltac:(now exists EOF, [])).
  assert (Hlast : nth_error tokens
                    (List.length (tokens_of_expression float_of_str e))
                  = Some EOF).
  { unfold tokens. now rewrite nth_error_app2, Nat.sub_diag by lia. }
  assert (Hfin : fst (_parse_expression float_of_str tokens
                        (parse_fuel tokens) 0) <> OutOfFuel).
  { apply (parser_finite float_of_str tokens (parse_fuel tokens)
                         (List.length tokens)); unfold parse_fuel; lia. }
  unfold parse. fold tokens. unfold parses_head in Htree. simpl in Htree.
  destruct (eval_expression float_of_str e) as [v|x|]; [| |contradiction].
  - specialize (Htree (Return v) _
                  (expression_tail_stop float_of_str tokens _ EOF v
                                        Hlast eq_refl)).
    rewrite (bind_return _ (finishes_with _ _ _ _ _ Htree Hfin)).
    rewrite (bind_return _ (current_at _ _ _ Hlast)).
    reflexivity.
  - destruct Htree as (index' & Htree).
    now rewrite (bind_raise _ (finishes_with _ _ _ _ _ Htree Hfin)).
Qed.

(** The entry point always ends: the fuel of the model is never used up. *)
Lemma evaluate_expression_terminates (text : string) :
  evaluate_expression float_of_str text <> OutOfFuel.
Proof.
  unfold evaluate_expression.
  destruct (is_empty text || (strip text =? "")%string); [discriminate|].
  pose proof (_tokenise_terminates float_of_str text) as Htok.
  destruct (_tokenise float_of_str text) as [tokens|e|];
    [apply parse_terminates|discriminate|congruence].
Qed.

(** The evaluator computes the value of every well-formed tree from the
    text of the tree. *)
Lemma evaluate_expression_show (e : expression_tree) :
  expression_ok float_of_str e ->
  evaluate_expression float_of_str (show_expression e)
  = eval_expression float_of_str e.
Proof.
  intros Hok. unfold evaluate_expression.
  pose proof (_tokenise_show float_of_str e Hok) as Htokens.
  destruct (tokens_of_expression float_of_str e) as [|token more] eqn:Hshape.
  { now destruct tokens_not_empty as (_ & _ & _ & Hne); elim (Hne e). }
  rewrite (not_blank _ token more Htokens), Htokens, <- Hshape.
  now apply parse_tokens_of.
Qed.

End Correctness.

(** ** Chains *)

Section Chains.

Variable float_of_str : string -> option float.

Local Abbreviation run := (evaluate_expression float_of_str).

Lemma evaluate_term_show (t : term_tree) :
  term_ok float_of_str t -> run (show_term t) = eval_term float_of_str t.
Proof. intros Hok. now apply (evaluate_expression_show _ (ETerm t)). Qed.

Lemma evaluate_factor_show (f : factor_tree) :
  factor_ok float_of_str f ->
  run (show_factor f) = eval_factor float_of_str f.
Proof.
  intros Hok. now apply (evaluate_expression_show _ (ETerm (TFactor f))).
Qed.










End Chains.

(** ** Unary minus *)

Lemma neg_involutive (x : float) : Float.neg (Float.neg x) = x.
Proof. destruct x; simpl; now rewrite ?negb_involutive. Qed.

(** ** Left to right *)



(** * The project simulator *)

Section SimulatorFacts.

Variable generator : Type.
Variable environment : Type.
Variable seeded : Z -> generator.
Variable from_entropy : environment -> generator * environment.
Variable uniform : generator -> float -> float -> float * generator.

Local Abbreviation simulate :=
  (Project.simulate generator environment seeded from_entropy uniform).
Local Abbreviation simulate_phase :=
  (Project.simulate_phase generator uniform).
Local Abbreviation process := (Project.process environment).

(** C9: with an integer seed, the outcome of [simulate] is a function of the
    simulator object and the arguments alone: it is the same in every
    environment, the call changes neither the object nor the environment,
    and a second call with the same arguments ends as the first did. *)
Theorem simulate_deterministic
        (sim : Project.ProjectSimulator) (complexity : float) (seed : Z)
        (e e' : environment) :
  let p := Project.mk_process environment sim e in
  let p' := Project.mk_process environment sim e' in
  fst (simulate complexity (Some seed) p)
  = fst (simulate complexity (Some seed) p')
  /\ snd (simulate complexity (Some seed) p) = p
  /\ fst (simulate complexity (Some seed)
                   (snd (simulate complexity (Some seed) p)))
     = fst (simulate complexity (Some seed) p).
Proof.
  intros p p'.
  assert (Hsame : snd (simulate complexity (Some seed) p) = p).
  { unfold Project.simulate, p. simpl.
    destruct (Float.leb complexity Float.zero); [reflexivity|].
    destruct (Float.of_int (Project.team_size sim)); reflexivity. }
  split; [|split; [exact Hsame|now rewrite Hsame]].
  unfold Project.simulate, p, p'. simpl.
  destruct (Float.leb complexity Float.zero); [reflexivity|].
  destruct (Float.of_int (Project.team_size sim)); reflexivity.
Qed.

(** ** The timeline *)

Lemma chained_app (start middle total : float)
      (front back : list Project.PhaseOutcome) :
  Project.chained start front middle ->
  Project.chained middle back total ->
  Project.chained start (front ++ back) total.
Proof.
  revert start. induction front as [|o front IH]; intros start; simpl.
  - now intros ->.
  - intros (Hstart & Hend & Hrest) Hback. auto.
Qed.

(** The loop appends one outcome for each phase, chained from the day the
    cursor was on to the day it ends on. *)
Lemma simulate_loop_chained (complexity : float)
      (phases : list Project.Phase) :
  forall l,
  exists added,
    Project.outcomes generator (fold_left (simulate_phase complexity) phases l)
    = Project.outcomes generator l ++ added
    /\ List.length added = List.length phases
    /\ Project.chained
         (Project.day_cursor generator l) added
         (Project.day_cursor generator
            (fold_left (simulate_phase complexity) phases l)).
Proof.
  induction phases as [|phase phases IH]; intros l; simpl.
  - exists []. now rewrite app_nil_r.
  - destruct (IH (simulate_phase complexity l phase))
      as (added & Hout & Hlen & Hchain).
    unfold Project.simulate_phase in *.
    destruct (Project.sample_duration generator uniform phase complexity
                                      (Project.rng generator l))
      as [actual rng'].
    simpl in *.
    eexists (_ :: added). rewrite Hout, <- app_assoc. simpl.
    repeat split; try reflexivity; [now rewrite Hlen|exact Hchain].
Qed.

Lemma chained_ends (start total : float)
      (phases : list Project.PhaseOutcome) :
  Project.chained start phases total ->
  Forall (fun o => Project.end_day o
                   = Float.add (Project.start_day o) (Project.actual_days o))
         phases.
Proof.
  revert start. induction phases as [|o phases IH]; intros start; simpl;
    [constructor|].
  intros (_ & Hend & Hrest). constructor; [exact Hend|exact (IH _ Hrest)].
Qed.

Lemma chained_next (start total : float)
      (phases : list Project.PhaseOutcome) :
  Project.chained start phases total ->
  forall i previous next,
    nth_error phases i = Some previous ->
    nth_error phases (S i) = Some next ->
    Project.start_day next = Project.end_day previous.
Proof.
  revert start. induction phases as [|o phases IH]; intros start Hchain i;
    [now destruct i|].
  destruct Hchain as (_ & _ & Hrest).
  destruct i as [|i]; simpl; intros previous next Hp Hn.
  - injection Hp as <-.
    destruct phases as [|o' phases]; [discriminate|].
    injection Hn as <-. now destruct Hrest as (-> & _).
  - now apply (IH _ Hrest i).
Qed.

Lemma last_cons_default {A} (l : list A) :
  forall a d, List.last (a :: l) d = List.last l a.
Proof.
  induction l as [|b l IH]; intros a d; [reflexivity|].
  change (List.last (a :: b :: l) d) with (List.last (b :: l) d).
  now rewrite !IH.
Qed.

Lemma chained_last (start total : float) (o : Project.PhaseOutcome)
      (phases : list Project.PhaseOutcome) :
  Project.chained start (o :: phases) total ->
  total = Project.end_day (List.last phases o).
Proof.
  revert start o. induction phases as [|o' phases IH]; intros start o.
  - now intros (_ & _ & ->).
  - intros (_ & _ & Hrest). rewrite last_cons_default.
    apply (IH _ _ Hrest).
Qed.

(** C10: every report [simulate] returns for a simulator that [__init__]
    built has a timeline without gaps: it starts on day [0.0], each phase
    ends [actual_days] after its start, each later phase starts where the
    one before it ends, and [total_days] is where the last one ends. *)
Theorem simulate_timeline_contiguous
        (phases : list Project.Phase) (team_size : Z) (cost_per_day : float)
        (sim : Project.ProjectSimulator)
        (complexity : float) (seed : option Z) (e : environment)
        (r : Project.report) :
  Project.__init__ phases team_size cost_per_day = Return sim ->
  fst (simulate complexity seed (Project.mk_process environment sim e))
  = Return r ->
  contiguous r.
Proof.
  intros Hinit Hrun.
  assert (Hphases : Project._phases sim <> []).
  { unfold Project.__init__ in Hinit.
    destruct phases as [|phase phases]; [discriminate|].
    destruct (team_size <=? 0)%Z; [discriminate|].
    destruct (Float.ltb cost_per_day Float.zero); [discriminate|].
    injection Hinit as <-. discriminate. }
  unfold Project.simulate in Hrun. simpl in Hrun.
  destruct (Float.leb complexity Float.zero); [discriminate|].
  destruct (Project.Random generator environment seeded from_entropy seed e)
    as [rng0 e'].
  destruct (Float.of_int (Project.team_size sim)); [|discriminate].
  simpl in Hrun. injection Hrun as <-.
  destruct (simulate_loop_chained
              complexity (Project._phases sim)
              (Project.mk_locals generator rng0 Float.zero [] (f64 70)))
    as (added & Hout & Hlen & Hchain).
  simpl in Hout, Hchain.
  unfold contiguous. simpl. rewrite Hout.
  destruct added as [|first rest].
  { destruct (Project._phases sim); [congruence|discriminate]. }
  split; [|split].
  - exists first, rest. split; [reflexivity|]. split.
    + now destruct Hchain as (-> & _).
    + now apply (chained_last _ _ _ _ Hchain).
  - now apply (chained_ends _ _ _ Hchain).
  - now apply (chained_next _ _ _ Hchain).
Qed.

End SimulatorFacts.

(** A witness for C10: the default phases, complexity [1.5], seed [42]. *)
Lemma simulate_timeline_contiguous_witness : contiguous example_report.
Proof.
  apply (simulate_timeline_contiguous
           nat unit Z.to_nat (fun e => (O, e)) counter_uniform
           Project.DEFAULT_PHASES 3 (f64 1000) example_simulator
           (f64 1.5) (Some 42%Z) tt example_report).
  - vm_compute. reflexivity.
  - vm_compute. reflexivity.
Defined.

(** * Texts with white space *)

Section Render.

Variable float_of_str : string -> option float.

Local Abbreviation loop := (tokenise_loop float_of_str).

(** The outer loop gives the same result with any fuel that exceeds the
    number of characters left. *)
Lemma tokenise_loop_fuel (fuel : nat) :
  forall fuel' rest acc,
    String.length rest < fuel ->
    String.length rest < fuel' ->
    loop fuel rest acc = loop fuel' rest acc.
Proof.
  induction fuel as [|fuel IH]; intros fuel' rest acc Hlen Hlen'; [lia|].
  destruct fuel' as [|fuel']; [lia|].
  destruct rest as [|c rest]; cbn [tokenise_loop]; [reflexivity|].
  simpl in Hlen, Hlen'.
  destruct (isspace c); [apply IH; lia|].
  destruct (char_in c "+-*/()"); [apply IH; lia|].
  destruct (isdigit c || is_dot c); [|reflexivity].
  pose proof (scan_number_length rest) as Hscan.
  destruct (scan_number rest) as [run after]; simpl in Hscan.
  destruct (float_of_str (String c run)); [apply IH; lia|reflexivity].
Qed.

Lemma tokenise_gap (gap rest : string) (acc : list _Token) :
  blank gap ->
  forall fuel,
    String.length (gap ++ rest) < fuel ->
    loop fuel (gap ++ rest) acc = loop (fuel - String.length gap) rest acc.
Proof.
  unfold blank. induction gap as [|c gap IH]; intros Hgap fuel Hlen.
  - simpl. now rewrite Nat.sub_0_r.
  - simpl in Hgap, Hlen. apply andb_true_iff in Hgap as (Hc & Hgap).
    destruct fuel as [|fuel]; [lia|].
    cbn [tokenise_loop append]. rewrite Hc.
    rewrite IH by (assumption || lia). reflexivity.
Qed.

Lemma space_not_digit (c : ascii) : isspace c = true -> digit_or_dot c = false.
Proof.
  intros Hc. destruct (digit_or_dot c) eqn:Hd; [|reflexivity].
  rewrite (digit_or_dot_not_space c Hd) in Hc. discriminate.
Qed.

Lemma blank_not_digit (text : string) :
  blank text -> starts_with digit_or_dot text = false.
Proof.
  unfold blank. destruct text as [|c text]; simpl; [reflexivity|].
  intros H. apply andb_true_iff in H as (Hc & _). now apply space_not_digit.
Qed.

Lemma literal_starts (literal rest : string) :
  literal_ok float_of_str literal ->
  starts_with digit_or_dot (literal ++ rest) = true.
Proof. intros (H & _). destruct literal; [discriminate|exact H]. Qed.

(** What follows a lexeme does not begin with a digit or a point, unless it
    is a literal glued to the lexeme. *)
Lemma render_not_digit (items : list (string * lexeme)) (rest : string) :
  items_ok float_of_str items ->
  starts_with digit_or_dot rest = false ->
  separated true items ->
  starts_with digit_or_dot (render items rest) = false.
Proof.
  intros Hok Hrest Hsep.
  destruct items as [|[gap x] more]; simpl; [exact Hrest|].
  inversion Hok as [|? ? (Hgap & Hx) _]; subst. simpl in Hgap, Hx.
  destruct Hsep as (Hglue & _).
  destruct gap as [|c gap].
  - destruct x as [literal|c]; simpl.
    + now elim Hglue.
    + now apply (symbol_not_digit c EmptyString).
  - simpl. unfold blank in Hgap. simpl in Hgap.
    apply andb_true_iff in Hgap as (Hc & _). now apply space_not_digit.
Qed.

Lemma separated_weaken (items : list (string * lexeme)) :
  separated true items -> separated false items.
Proof.
  destruct items as [|[gap x] more]; simpl; [trivial|].
  intros (_ & Hmore). split; [discriminate|exact Hmore].
Qed.

Lemma render_length (items : list (string * lexeme)) (trail : string) :
  String.length (render items trail)
  = list_sum (List.map (fun item => String.length (fst item)
                                    + String.length (lexeme_text (snd item)))
                       items)
    + String.length trail.
Proof.
  induction items as [|[gap x] more IH]; simpl; [reflexivity|].
  rewrite !string_app_length, IH. lia.
Qed.

(** The tokeniser on a rendered list of lexemes followed by [rest]: it
    makes the tokens of the lexemes and goes on with [rest]. *)
Lemma tokenise_render_then (items : list (string * lexeme)) (rest : string) :
  items_ok float_of_str items ->
  starts_with digit_or_dot rest = false ->
  forall after_number acc fuel,
    separated after_number items ->
    String.length (render items rest) < fuel ->
    loop fuel (render items rest) acc
    = loop (S (String.length rest)) rest (acc ++ lex float_of_str items).
Proof.
  intros Hok Hrest.
  induction Hok as [|[gap x] more (Hgap & Hx) Hmore IH];
    intros after_number acc fuel Hsep Hlen.
  - cbn [render lex List.map] in *. rewrite app_nil_r.
    apply tokenise_loop_fuel; lia.
  - simpl in Hgap, Hx, Hsep, Hlen. destruct Hsep as (_ & Hsep).
    cbn [render lex List.map snd].
    rewrite tokenise_gap by assumption.
    rewrite string_app_length in Hlen.
    destruct x as [literal|c]; cbn [lexeme_text token_of] in Hlen |- *.
    + assert (Hlit : 0 < String.length literal)
        by (destruct Hx as (Hs & _); destruct literal;
            [discriminate|simpl; lia]).
      rewrite string_app_length in Hlen.
      destruct (fuel - String.length gap) as [|fuel'] eqn:Hfuel; [lia|].
      rewrite tokenise_literal
        by (assumption || now apply render_not_digit).
      rewrite (IH true) by (assumption || lia).
      unfold lex. now rewrite <- app_assoc.
    + destruct (fuel - String.length gap) as [|fuel'] eqn:Hfuel;
        [simpl in Hlen; lia|].
      cbn [char_str append].
      rewrite tokenise_symbol by assumption.
      rewrite (IH false) by (assumption || (simpl in Hlen; lia)).
      unfold lex. now rewrite <- app_assoc.
Qed.

Lemma _tokenise_render_then (items : list (string * lexeme)) (rest : string) :
  items_ok float_of_str items ->
  starts_with digit_or_dot rest = false ->
  separated false items ->
  _tokenise float_of_str (render items rest)
  = loop (S (String.length rest)) rest (lex float_of_str items).
Proof.
  intros Hok Hrest Hsep. unfold _tokenise.
  now rewrite (tokenise_render_then items rest Hok Hrest false []) by
      (assumption || lia).
Qed.

Lemma _tokenise_render (items : list (string * lexeme)) (trail : string) :
  items_ok float_of_str items ->
  blank trail ->
  separated false items ->
  _tokenise float_of_str (render items trail)
  = Return (lex float_of_str items ++ [EOF]).
Proof.
  intros Hok Htrail Hsep.
  rewrite _tokenise_render_then
    by (assumption || now apply blank_not_digit).
  apply tokenise_loop_blank; [exact Htrail|lia].
Qed.

End Render.

(** ** The lexemes of a tree *)

Section RenderTrees.

Variable float_of_str : string -> option float.

Local Abbreviation tokens_p := (tokens_of_primary float_of_str).
Local Abbreviation tokens_f := (tokens_of_factor float_of_str).
Local Abbreviation tokens_t := (tokens_of_term float_of_str).
Local Abbreviation tokens_e := (tokens_of_expression float_of_str).
Local Abbreviation tok := (token_of float_of_str).

Lemma alternating_app_symbol (c : ascii) (front back : list lexeme) :
  forall after_number,
    alternating after_number front ->
    alternating false back ->
    alternating after_number (front ++ LSymbol c :: back).
Proof.
  induction front as [|x front IH]; intros after_number Hfront Hback; simpl.
  - split; [apply andb_false_r|exact Hback].
  - destruct Hfront as (Hx & Hfront). split; [exact Hx|now apply IH].
Qed.

Local Abbreviation lexemes_fit := (lexemes_fit float_of_str).

Lemma lexemes_fit_symbol (c : ascii) (front back : list lexeme)
      (tokens tokens' : list _Token) :
  is_symbol c ->
  lexemes_fit front tokens ->
  lexemes_fit back tokens' ->
  lexemes_fit (front ++ LSymbol c :: back) (tokens ++ symbol c :: tokens').
Proof.
  intros Hc (Hok & Htok & Halt) (Hok' & Htok' & Halt'). split; [|split].
  - apply Forall_app. split; [exact Hok|]. now constructor.
  - rewrite map_app. simpl. now rewrite Htok, Htok'.
  - now apply alternating_app_symbol.
Qed.

Lemma lexemes_fit_cons (c : ascii) (back : list lexeme)
      (tokens : list _Token) :
  is_symbol c ->
  lexemes_fit back tokens ->
  lexemes_fit (LSymbol c :: back) (symbol c :: tokens).
Proof.
  intros Hc Hback.
  apply (lexemes_fit_symbol c [] back [] tokens Hc); [|exact Hback].
  repeat split; constructor.
Qed.

Lemma lexemes_of_trees :
  (forall p, primary_ok float_of_str p ->
             lexemes_fit (lexemes_of_primary p) (tokens_p p))
  /\ (forall f, factor_ok float_of_str f ->
                lexemes_fit (lexemes_of_factor f) (tokens_f f))
  /\ (forall t, term_ok float_of_str t ->
                lexemes_fit (lexemes_of_term t) (tokens_t t))
  /\ (forall e, expression_ok float_of_str e ->
                lexemes_fit (lexemes_of_expression e) (tokens_e e)).
Proof.
  apply tree_mutind; simpl.
  - intros literal Hok. repeat split; auto.
  - intros e IH Hok. apply lexemes_fit_cons; [now split|].
    rewrite <- (app_nil_r (tokens_e e ++ [symbol ")"])), <- app_assoc.
    apply lexemes_fit_symbol; [now split|now apply IH|].
    repeat split; constructor.
  - auto.
  - intros op f IH Hok.
    apply lexemes_fit_cons; [apply sign_is_symbol|now apply IH].
  - auto.
  - intros t IHt op f IHf (Hokt & Hokf).
    apply lexemes_fit_symbol; [apply mulop_is_symbol|auto|auto].
  - auto.
  - intros e IHe op t IHt (Hoke & Hokt).
    apply lexemes_fit_symbol; [apply sign_is_symbol|auto|auto].
Qed.

Lemma separated_of_alternating (items : list (string * lexeme)) :
  forall after_number,
    alternating after_number (List.map snd items) ->
    separated after_number items.
Proof.
  induction items as [|[gap x] more IH]; intros after_number; simpl;
    [trivial|].
  intros (Hx & Hmore). split; [|now apply IH].
  intros Hglue. congruence.
Qed.

Lemma items_ok_of_lexemes (items : list (string * lexeme)) :
  Forall (lexeme_ok float_of_str) (List.map snd items) ->
  Forall (fun item => blank (fst item)) items ->
  items_ok float_of_str items.
Proof.
  intros Hlex Hgaps. unfold items_ok.
  induction items as [|item more IH]; [constructor|].
  inversion Hlex; inversion Hgaps; subst. constructor; auto.
Qed.

Lemma lex_of_lexemes (items : list (string * lexeme)) :
  lex float_of_str items = List.map tok (List.map snd items).
Proof. unfold lex. now rewrite map_map. Qed.

(** The evaluator on a well spaced text: the parser on its tokens. *)
Lemma evaluate_render (items : list (string * lexeme)) (trail : string) :
  well_spaced float_of_str items trail ->
  items <> [] ->
  evaluate_expression float_of_str (render items trail)
  = fst (parse float_of_str (lex float_of_str items ++ [EOF]) 0).
Proof.
  intros (Hok & Hsep & Htrail) Hne. unfold evaluate_expression.
  pose proof (_tokenise_render float_of_str items trail Hok Htrail Hsep)
    as Htokens.
  destruct (lex float_of_str items) as [|token more] eqn:Hshape.
  { destruct items; [congruence|discriminate]. }
  now rewrite (not_blank _ _ token more Htokens), Htokens.
Qed.

(** A tree written with any white space is well spaced. *)
Lemma tree_well_spaced (e : expression_tree)
      (items : list (string * lexeme)) (trail : string) :
  expression_ok float_of_str e ->
  List.map snd items = lexemes_of_expression e ->
  Forall (fun item => blank (fst item)) items ->
  blank trail ->
  well_spaced float_of_str items trail
  /\ lex float_of_str items = tokens_e e.
Proof.
  intros Hok Hitems Hgaps Htrail.
  destruct lexemes_of_trees as (_ & _ & _ & Hfit).
  destruct (Hfit e Hok) as (Hlex & Htok & Halt).
  rewrite <- Hitems in Hlex, Htok, Halt.
  repeat split; try assumption.
  - now apply items_ok_of_lexemes.
  - now apply separated_of_alternating.
  - now rewrite lex_of_lexemes.
Qed.

Lemma render_unspaced :
  (forall p rest, render (unspaced (lexemes_of_primary p)) rest
                  = (show_primary p ++ rest)%string)
  /\ (forall f rest, render (unspaced (lexemes_of_factor f)) rest
                     = (show_factor f ++ rest)%string)
  /\ (forall t rest, render (unspaced (lexemes_of_term t)) rest
                     = (show_term t ++ rest)%string)
  /\ (forall e rest, render (unspaced (lexemes_of_expression e)) rest
                     = (show_expression e ++ rest)%string).
Proof.
  assert (Happ : forall front back rest,
             render (unspaced (front ++ back)) rest
             = render (unspaced front) (render (unspaced back) rest)).
  { induction front as [|x front IH]; intros back rest; simpl;
      [reflexivity|]. now rewrite IH. }
  apply tree_mutind; simpl; intros.
  - reflexivity.
  - rewrite Happ, H. simpl. now rewrite !string_app_assoc.
  - apply H.
  - now rewrite H.
  - apply H.
  - rewrite Happ, H. simpl. rewrite H0. now rewrite string_app_assoc.
  - apply H.
  - rewrite Happ, H. simpl. rewrite H0. now rewrite string_app_assoc.
Qed.

End RenderTrees.

(** ** White space *)

(** X1: the tokeniser reads back what is written.  Lexemes written one
    after the other, with any white space before each and at the end (and
    some between two literals), are tokenised into their tokens, in order,
    and [EOF]. *)
Theorem _tokenise_reads_lexemes
        (float_of_str : string -> option float)
        (items : list (string * lexeme)) (trail : string) :
  items_ok float_of_str items ->
  separated false items ->
  blank trail ->
  _tokenise float_of_str (render items trail)
  = Return (List.map (fun item => token_of float_of_str (snd item)) items
            ++ [EOF]).
Proof. intros Hok Hsep Htrail. now apply _tokenise_render. Qed.

(** A witness for X1: [" 12 3.5+( "]. *)
Lemma _tokenise_reads_lexemes_witness :
  _tokenise float_of_literal " 12 3.5+( "
  = Return [number_token (f64 12); number_token (f64 3.5);
            symbol "+"; symbol "("; EOF].
Proof.
  apply (_tokenise_reads_lexemes
           float_of_literal
           [(" ", LNumber "12"); (" ", LNumber "3.5");
            ("", LSymbol "+"); ("", LSymbol "(")] " ").
  - repeat constructor; vm_compute; congruence.
  - repeat split; simpl; congruence.
  - reflexivity.
Defined.

(** X2: white space does not matter.  The text of a well-formed tree,
    written with any white space before each lexeme and at the end,
    evaluates as the text written without any. *)
Theorem evaluate_expression_ignores_white_space
        (float_of_str : string -> option float)
        (e : expression_tree)
        (items : list (string * lexeme)) (trail : string) :
  expression_ok float_of_str e ->
  List.map snd items = lexemes_of_expression e ->
  Forall (fun item => blank (fst item)) items ->
  blank trail ->
  evaluate_expression float_of_str (render items trail)
  = evaluate_expression float_of_str (show_expression e)
  /\ render (unspaced (lexemes_of_expression e)) "" = show_expression e.
Proof.
  intros Hok Hitems Hgaps Htrail. split.
  - destruct (tree_well_spaced float_of_str e items trail
                               Hok Hitems Hgaps Htrail) as (Hspaced & Hlex).
    rewrite evaluate_render; [|exact Hspaced|].
    + rewrite Hlex, parse_tokens_of by assumption.
      now rewrite evaluate_expression_show.
    + intros ->. simpl in Hitems.
      destruct (tokens_not_empty float_of_str) as (_ & _ & _ & Hne).
      destruct (lexemes_of_trees float_of_str) as (_ & _ & _ & Hfit).
      destruct (Hfit e Hok) as (_ & Htok & _).
      rewrite <- Hitems in Htok. now elim (Hne e).
  - destruct render_unspaced as (_ & _ & _ & Hshow).
    now rewrite Hshow, string_app_empty.
Qed.

(** A witness for X2: [" 1 +  2*3 "] is ["1+2*3"]. *)
Lemma evaluate_expression_ignores_white_space_witness :
  evaluate_expression float_of_literal " 1 +  2*3 "
  = evaluate_expression float_of_literal "1+2*3"
  /\ "1+2*3" = "1+2*3".
Proof.
  apply (evaluate_expression_ignores_white_space
           float_of_literal
           (EBinary (ETerm (TFactor (Primary (Number "1")))) Plus
                    (TBinary (TFactor (Primary (Number "2"))) Times
                             (Primary (Number "3"))))
           [(" ", LNumber "1"); (" ", LSymbol "+"); ("  ", LNumber "2");
            ("", LSymbol "*"); ("", LNumber "3")] " ").
  - repeat split; vm_compute; congruence.
  - reflexivity.
  - repeat constructor.
  - reflexivity.
Defined.

(** ** Syntax errors *)

Section SyntaxErrors.

Variable float_of_str : string -> option float.
Variable tokens : list _Token.

Local Abbreviation expression := (_parse_expression float_of_str tokens).
Local Abbreviation expression_tail := (expression_loop float_of_str tokens).
Local Abbreviation term := (_parse_term float_of_str tokens).
Local Abbreviation term_tail := (term_loop float_of_str tokens).
Local Abbreviation factor := (_parse_factor float_of_str tokens).
Local Abbreviation primary := (_parse_primary float_of_str tokens).
Local Abbreviation tokens_t := (tokens_of_term float_of_str).
Local Abbreviation tokens_e := (tokens_of_expression float_of_str).

Lemma primary_unexpected (index : nat) (token : _Token) :
  nth_error tokens index = Some token ->
  (kind token =? "NUMBER")%string = false ->
  (kind token =? "(")%string = false ->
  finishes primary index
           (Raise (ValueError (UnexpectedToken (kind token)))) index.
Proof.
  intros Hnth Hnumber Hopen. split; [discriminate|].
  exists 1. intros [|fuel] Hfuel; [lia|].
  rewrite _parse_primary_S, (bind_return _ (current_at _ _ _ Hnth)).
  cbv beta. now rewrite Hnumber, Hopen.
Qed.

(** Where an operand must start, a token that starts none is refused. *)
Lemma factor_unexpected (index : nat) (token : _Token) :
  nth_error tokens index = Some token ->
  kind_in (kind token) ["+"; "-"; "NUMBER"; "("] = false ->
  finishes factor index
           (Raise (ValueError (UnexpectedToken (kind token)))) index.
Proof.
  intros Hnth Hkind. unfold kind_in in Hkind. simpl in Hkind.
  repeat (apply orb_false_iff in Hkind as (? & Hkind)).
  apply (factor_primary _ _ _ _ token _ Hnth).
  - unfold kind_in. simpl. now rewrite H, H0.
  - now apply primary_unexpected.
Qed.


Lemma parse_has_fuel :
  fst (expression (parse_fuel tokens) 0) <> OutOfFuel.
Proof.
  apply (parser_finite float_of_str tokens (parse_fuel tokens)
                       (List.length tokens)); unfold parse_fuel; lia.
Qed.

Lemma parse_of_raise (x : exception) (index : nat) :
  finishes expression 0 (Raise x) index ->
  fst (parse float_of_str tokens 0) = Raise x.
Proof.
  intros Hrun. unfold parse.
  now rewrite (bind_raise _ (finishes_with _ _ _ _ _ _ Hrun parse_has_fuel)).
Qed.

Lemma parse_of_return (v : float) (index : nat) (token : _Token) :
  finishes expression 0 (Return v) index ->
  nth_error tokens index = Some token ->
  fst (parse float_of_str tokens 0)
  = if (kind token =? "EOF")%string then Return v
    else Raise (ValueError TrailingTokens).
Proof.
  intros Hrun Hnth. unfold parse.
  rewrite (bind_return _ (finishes_with _ _ _ _ _ _ Hrun parse_has_fuel)).
  rewrite (bind_return _ (current_at _ _ _ Hnth)).
  now destruct (kind token =? "EOF")%string.
Qed.

(** After the tokens of a tree comes a token that is no operator: the
    parser stops there, and accepts only [EOF]. *)
Lemma parse_then_stop (e : expression_tree) (token : _Token)
      (rest : list _Token) :
  expression_ok float_of_str e ->
  tokens = tokens_e e ++ token :: rest ->
  kind_in (kind token) ["+"; "-"; "*"; "/"] = false ->
  fst (parse float_of_str tokens 0)
  = and_then (eval_expression float_of_str e)
             (fun v => if (kind token =? "EOF")%string then Return v
                       else Raise (ValueError TrailingTokens)).
Proof.
  intros Hok Htokens Hkind.
  assert (Hadd : kind_in (kind token) ["+"; "-"] = false
                 /\ kind_in (kind token) ["*"; "/"] = false).
  { unfold kind_in in *. simpl in *.
    repeat (apply orb_false_iff in Hkind as (? & Hkind)).
    now rewrite H, H0, H1, H2. }
  destruct Hadd as (Hadd & Hmul).
  destruct (parse_trees float_of_str tokens) as (_ & _ & _ & Htree).
  specialize (Htree e Hok 0 (token :: rest) Htokens
                    ltac:(now exists token, rest)).
  assert (Hnth : nth_error tokens (List.length (tokens_e e)) = Some token).
  { rewrite Htokens. now rewrite nth_error_app2, Nat.sub_diag by lia. }
  unfold parses_head in Htree. simpl in Htree.
  destruct (eval_expression float_of_str e) as [v|x|]; [| |contradiction];
    cbn [and_then].
  - eapply (parse_of_return v _ token); [|exact Hnth].
    apply Htree. now apply (expression_tail_stop _ _ _ token).
  - destruct Htree as (index' & Htree). now apply (parse_of_raise x index').
Qed.


(** The tokens of a tree, a binary [+] or [-], and then a token that starts
    no operand. *)
Lemma parse_missing_term (e : expression_tree) (op : sign) (token : _Token)
      (rest : list _Token) :
  expression_ok float_of_str e ->
  tokens = tokens_e e ++ symbol (sign_char op) :: token :: rest ->
  kind_in (kind token) ["+"; "-"; "NUMBER"; "("] = false ->
  fst (parse float_of_str tokens 0)
  = and_then (eval_expression float_of_str e)
             (fun _ => Raise (ValueError (UnexpectedToken (kind token)))).
Proof.
  intros Hok Htokens Hkind.
  destruct (parse_trees float_of_str tokens) as (_ & _ & _ & Htree).
  specialize (Htree e Hok 0 _ Htokens
                    ltac:(eexists _, _; split;
                          [reflexivity|now destruct op])).
  assert (Hop : nth_error tokens (List.length (tokens_e e))
                = Some (symbol (sign_char op))).
  { rewrite Htokens. now rewrite nth_error_app2, Nat.sub_diag by lia. }
  assert (Hnth : nth_error tokens (S (List.length (tokens_e e)))
                 = Some token).
  { rewrite Htokens. rewrite nth_error_app2 by lia.
    now replace (S (List.length (tokens_e e)) - List.length (tokens_e e))
      with 1 by lia. }
  unfold parses_head in Htree. simpl in Htree.
  destruct (eval_expression float_of_str e) as [v|x|]; [| |contradiction];
    cbn [and_then].
  - eapply parse_of_raise. apply Htree.
    apply (expression_tail_raise _ _ _ _ op v _ Hop).
    apply term_start_raise. now apply factor_unexpected.
  - destruct Htree as (index' & Htree). now apply (parse_of_raise x index').
Qed.

(** The tokens of a term, a [*] or [/], and then a token that starts no
    operand. *)
Lemma parse_missing_factor (t : term_tree) (op : mulop) (token : _Token)
      (rest : list _Token) :
  term_ok float_of_str t ->
  tokens = tokens_t t ++ symbol (mulop_char op) :: token :: rest ->
  kind_in (kind token) ["+"; "-"; "NUMBER"; "("] = false ->
  fst (parse float_of_str tokens 0)
  = and_then (eval_term float_of_str t)
             (fun _ => Raise (ValueError (UnexpectedToken (kind token)))).
Proof.
  intros Hok Htokens Hkind.
  destruct (parse_trees float_of_str tokens) as (_ & _ & Htree & _).
  specialize (Htree t Hok 0 _ Htokens).
  assert (Hop : nth_error tokens (List.length (tokens_t t))
                = Some (symbol (mulop_char op))).
  { rewrite Htokens. now rewrite nth_error_app2, Nat.sub_diag by lia. }
  assert (Hnth : nth_error tokens (S (List.length (tokens_t t)))
                 = Some token).
  { rewrite Htokens. rewrite nth_error_app2 by lia.
    now replace (S (List.length (tokens_t t)) - List.length (tokens_t t))
      with 1 by lia. }
  unfold parses_head in Htree. simpl in Htree.
  destruct (eval_term float_of_str t) as [v|x|]; [| |contradiction];
    cbn [and_then].
  - eapply parse_of_raise. apply expression_start_raise. apply Htree.
    apply (term_tail_raise _ _ _ _ op v _ Hop).
    now apply factor_unexpected.
  - destruct Htree as (index' & Htree).
    apply (parse_of_raise x index'). now apply expression_start_raise.
Qed.

(** A first token that starts no operand. *)
Lemma parse_no_operand (token : _Token) (rest : list _Token) :
  tokens = token :: rest ->
  kind_in (kind token) ["+"; "-"; "NUMBER"; "("] = false ->
  fst (parse float_of_str tokens 0)
  = Raise (ValueError (UnexpectedToken (kind token))).
Proof.
  intros Htokens Hkind.
  eapply parse_of_raise.
  apply expression_start_raise, term_start_raise, factor_unexpected;
    [now rewrite Htokens|exact Hkind].
Qed.

End SyntaxErrors.

(** ** Syntax errors, from the text *)

Section SyntaxErrorsOfTexts.

Variable float_of_str : string -> option float.

Local Abbreviation run := (evaluate_expression float_of_str).
Local Abbreviation tok := (token_of float_of_str).

Lemma tokens_after (more : list lexeme) :
  exists token rest,
    List.map tok more ++ [EOF] = token :: rest
    /\ kind token = next_kind more.
Proof. destruct more as [|[literal|c] more]; simpl; eauto. Qed.

Lemma lexeme_kind_not_EOF (x : lexeme) :
  (lexeme_kind x =? "EOF")%string = false.
Proof. apply String.eqb_neq. destruct x; discriminate. Qed.

(** The tokens of a text that begins with the lexemes of a tree. *)
Lemma lex_after_tree (e : expression_tree) (more : list lexeme)
      (items : list (string * lexeme)) :
  expression_ok float_of_str e ->
  List.map snd items = lexemes_of_expression e ++ more ->
  lex float_of_str items
  = tokens_of_expression float_of_str e ++ List.map tok more.
Proof.
  intros Hok Hitems.
  destruct (lexemes_of_trees float_of_str) as (_ & _ & _ & Hfit).
  destruct (Hfit e Hok) as (_ & Htok & _).
  now rewrite lex_of_lexemes, Hitems, map_app, Htok.
Qed.

Lemma lex_after_term (t : term_tree) (more : list lexeme)
      (items : list (string * lexeme)) :
  term_ok float_of_str t ->
  List.map snd items = lexemes_of_term t ++ more ->
  lex float_of_str items
  = tokens_of_term float_of_str t ++ List.map tok more.
Proof.
  intros Hok Hitems.
  destruct (lexemes_of_trees float_of_str) as (_ & _ & Hfit & _).
  destruct (Hfit t Hok) as (_ & Htok & _).
  now rewrite lex_of_lexemes, Hitems, map_app, Htok.
Qed.

Lemma items_not_empty (items : list (string * lexeme)) (l : list lexeme) :
  List.map snd items = l -> l <> [] -> items <> [].
Proof. intros <- Hne ->. now apply Hne. Qed.

(** X3: input left over is an error.  When the text of a well-formed tree
    is followed by a lexeme that is no operator (a literal or a
    parenthesis), the evaluator raises "Unexpected trailing tokens", unless
    evaluating the tree raises first. *)
Theorem trailing_tokens_rejected
        (e : expression_tree) (x : lexeme) (more : list lexeme)
        (items : list (string * lexeme)) (trail : string) :
  well_spaced float_of_str items trail ->
  expression_ok float_of_str e ->
  List.map snd items = lexemes_of_expression e ++ x :: more ->
  kind_in (lexeme_kind x) ["+"; "-"; "*"; "/"] = false ->
  run (render items trail)
  = and_then (run (show_expression e))
             (fun _ => Raise (ValueError TrailingTokens)).
Proof.
  intros Hspaced Hok Hitems Hkind.
  rewrite evaluate_render;
    [|exact Hspaced
     |apply (items_not_empty _ _ Hitems);
      now destruct (lexemes_of_expression e)].
  rewrite (lex_after_tree e (x :: more) items Hok Hitems).
  destruct (tokens_after (x :: more)) as (token & rest & Hshape & Hnext).
  rewrite <- app_assoc, Hshape.
  rewrite (parse_then_stop float_of_str _ e token rest Hok eq_refl)
    by now rewrite Hnext.
  rewrite Hnext. simpl next_kind. rewrite lexeme_kind_not_EOF.
  now rewrite evaluate_expression_show.
Qed.


(** X5: an operator needs its right operand.  After the text of a
    well-formed tree and a binary operator, a token that starts no operand
    ([*], [/], [")"], or [EOF] at the end of the text) makes the evaluator
    raise "Unexpected token" with the kind of that token, unless evaluating
    the tree raises first.  This is stated for an expression followed by
    [+] or [-] and for a term followed by [*] or [/]. *)
Theorem missing_operand_rejected
        (e : expression_tree) (op : sign) (more : list lexeme)
        (items : list (string * lexeme)) (trail : string)
        (t : term_tree) (mop : mulop) (more' : list lexeme)
        (items' : list (string * lexeme)) (trail' : string) :
  well_spaced float_of_str items trail ->
  expression_ok float_of_str e ->
  List.map snd items
  = lexemes_of_expression e ++ LSymbol (sign_char op) :: more ->
  kind_in (next_kind more) ["+"; "-"; "NUMBER"; "("] = false ->
  well_spaced float_of_str items' trail' ->
  term_ok float_of_str t ->
  List.map snd items'
  = lexemes_of_term t ++ LSymbol (mulop_char mop) :: more' ->
  kind_in (next_kind more') ["+"; "-"; "NUMBER"; "("] = false ->
  run (render items trail)
  = and_then (run (show_expression e))
             (fun _ => Raise (ValueError (UnexpectedToken (next_kind more))))
  /\ run (render items' trail')
     = and_then (run (show_term t))
                (fun _ => Raise (ValueError
                                   (UnexpectedToken (next_kind more')))).
Proof.
  intros Hspaced Hok Hitems Hkind Hspaced' Hok' Hitems' Hkind'. split.
  - rewrite evaluate_render;
      [|exact Hspaced
       |apply (items_not_empty _ _ Hitems);
        now destruct (lexemes_of_expression e)].
    rewrite (lex_after_tree e _ items Hok Hitems). cbn [List.map token_of].
    destruct (tokens_after more) as (token & rest & Hshape & Hnext).
    rewrite <- app_assoc, <- app_comm_cons, Hshape.
    rewrite (parse_missing_term float_of_str _ e op token rest Hok eq_refl)
      by now rewrite Hnext.
    now rewrite Hnext, evaluate_expression_show.
  - rewrite evaluate_render;
      [|exact Hspaced'
       |apply (items_not_empty _ _ Hitems');
        now destruct (lexemes_of_term t)].
    rewrite (lex_after_term t _ items' Hok' Hitems'). cbn [List.map token_of].
    destruct (tokens_after more') as (token & rest & Hshape & Hnext).
    rewrite <- app_assoc, <- app_comm_cons, Hshape.
    rewrite (parse_missing_factor float_of_str _ t mop token rest Hok' eq_refl)
      by now rewrite Hnext.
    now rewrite Hnext, evaluate_term_show.
Qed.

(** X6: an expression cannot begin with [*], [/] or [")"]: the evaluator
    raises "Unexpected token" with that token, whatever follows. *)
Theorem leading_operator_rejected
        (gap : string) (c : ascii) (items : list (string * lexeme))
        (trail : string) :
  well_spaced float_of_str ((gap, LSymbol c) :: items) trail ->
  char_in c "*/)" = true ->
  run (render ((gap, LSymbol c) :: items) trail)
  = Raise (ValueError (UnexpectedToken (char_str c))).
Proof.
  intros Hspaced Hc.
  rewrite evaluate_render; [|exact Hspaced|discriminate].
  cbn [lex List.map snd token_of app].
  apply (parse_no_operand float_of_str _ (symbol c) _ eq_refl).
  unfold kind_in. simpl in *.
  repeat (apply orb_true_iff in Hc as [Hc|Hc]);
    try discriminate; apply Ascii.eqb_eq in Hc; now subst c.
Qed.

End SyntaxErrorsOfTexts.

(** Discharges [well_spaced] and the well-formedness of concrete trees. *)
Ltac concrete :=
  repeat (split || constructor); vm_compute; congruence.

(** A witness for X3: ["1 2"]. *)
Lemma trailing_tokens_rejected_witness :
  evaluate_expression float_of_literal "1 2"
  = Raise (ValueError TrailingTokens).
Proof.
  apply (trailing_tokens_rejected
           float_of_literal
           (ETerm (TFactor (Primary (Number "1")))) (LNumber "2") []
           [("", LNumber "1"); (" ", LNumber "2")] "");
    try reflexivity; concrete.
Defined.


(** A witness for X5: ["1 +"] and ["2 ** 3"]. *)
Lemma missing_operand_rejected_witness :
  evaluate_expression float_of_literal "1 +"
  = Raise (ValueError (UnexpectedToken "EOF"))
  /\ evaluate_expression float_of_literal "2 ** 3"
     = Raise (ValueError (UnexpectedToken "*")).
Proof.
  apply (missing_operand_rejected
           float_of_literal
           (ETerm (TFactor (Primary (Number "1")))) Plus []
           [("", LNumber "1"); (" ", LSymbol "+")] ""
           (TFactor (Primary (Number "2"))) Times
           [LSymbol "*"; LNumber "3"]
           [("", LNumber "2"); (" ", LSymbol "*"); ("", LSymbol "*");
            (" ", LNumber "3")] "");
    try reflexivity; concrete.
Defined.

(** A witness for X6: [" )1"]. *)
Lemma leading_operator_rejected_witness :
  evaluate_expression float_of_literal " )1"
  = Raise (ValueError (UnexpectedToken ")")).
Proof.
  apply (leading_operator_rejected
           float_of_literal " " ")" [("", LNumber "1")] "");
    try reflexivity; concrete.
Defined.

(** ** Lexical errors come first *)

Lemma all_chars_app (p : ascii -> bool) (a b : string) :
  all_chars p (a ++ b) = all_chars p a && all_chars p b.
Proof.
  induction a as [|c a IH]; simpl; [reflexivity|].
  now rewrite IH, andb_assoc.
Qed.

Lemma render_not_blank (items : list (string * lexeme)) (rest : string) :
  all_chars isspace rest = false ->
  all_chars isspace (render items rest) = false.
Proof.
  intros Hrest. induction items as [|[gap x] more IH]; simpl; [exact Hrest|].
  now rewrite !all_chars_app, IH, !andb_false_r.
Qed.

Lemma passes_blank_check (text : string) :
  all_chars isspace text = false ->
  is_empty text || (strip text =? "")%string = false.
Proof.
  intros Hspace.
  destruct (is_empty text || (strip text =? "")%string) eqn:Hblank;
    [|reflexivity].
  apply orb_true_iff in Hblank as [Hempty|Hstrip].
  - destruct text; [discriminate Hspace|discriminate Hempty].
  - apply String.eqb_eq, strip_empty in Hstrip. congruence.
Qed.

(** X7: a character that is neither white space, nor an operator or a
    parenthesis, nor a digit or a point is reported as "Unexpected
    character", whatever follows it and whatever the lexemes before it are:
    nothing is parsed or evaluated before the whole text is tokenised. *)
Theorem unexpected_character_reported
        (float_of_str : string -> option float)
        (items : list (string * lexeme)) (gap : string) (c : ascii)
        (rest : string) :
  items_ok float_of_str items ->
  separated false items ->
  blank gap ->
  unexpected c ->
  evaluate_expression float_of_str (render items (gap ++ String c rest))
  = Raise (ValueError (UnexpectedCharacter c)).
Proof.
  intros Hok Hsep Hgap (Hspace & Hop & Hdigit). unfold evaluate_expression.
  assert (Hstart : starts_with digit_or_dot (gap ++ String c rest) = false).
  { destruct gap as [|d gap]; simpl; [exact Hdigit|].
    unfold blank in Hgap. simpl in Hgap.
    apply andb_true_iff in Hgap as (Hd & _). now apply space_not_digit. }
  rewrite passes_blank_check
    by (apply render_not_blank; rewrite all_chars_app; simpl;
        now rewrite Hspace, andb_false_r).
  rewrite _tokenise_render_then by assumption.
  rewrite tokenise_gap by (assumption || lia).
  rewrite string_app_length.
  replace (S (String.length gap + String.length (String c rest))
           - String.length gap)
    with (S (String.length (String c rest))) by lia.
  cbn [tokenise_loop]. unfold digit_or_dot in Hdigit.
  now rewrite Hspace, Hop, Hdigit.
Qed.

(** A witness for X7: ["1/0 $ )"] reports the dollar sign, not the division
    by zero nor the parenthesis. *)
Lemma unexpected_character_reported_witness :
  evaluate_expression float_of_literal "1/0 $ )"
  = Raise (ValueError (UnexpectedCharacter "$")).
Proof.
  apply (unexpected_character_reported
           float_of_literal
           [("", LNumber "1"); ("", LSymbol "/"); ("", LNumber "0")]
           " " "$" " )").
  - concrete.
  - concrete.
  - reflexivity.
  - concrete.
Defined.

(** ** Nothing but ValueError *)

Section OnlyValueError.

Variable float_of_str : string -> option float.

Lemma tokenise_loop_raises (fuel : nat) :
  forall rest acc e,
    tokenise_loop float_of_str fuel rest acc = Raise e ->
    exists msg, e = ValueError msg.
Proof.
  induction fuel as [|fuel IH]; intros rest acc e Hrun; [discriminate|].
  destruct rest as [|c rest]; cbn [tokenise_loop] in Hrun; [discriminate|].
  destruct (isspace c); [now apply (IH _ _ _ Hrun)|].
  destruct (char_in c "+-*/()"); [now apply (IH _ _ _ Hrun)|].
  destruct (isdigit c || is_dot c); [|injection Hrun as <-; eauto].
  destruct (scan_number rest) as [run after].
  destruct (float_of_str (String c run));
    [now apply (IH _ _ _ Hrun)|injection Hrun as <-; eauto].
Qed.

(** An exception no statement of the parser raises. *)
Variable other : exception.
Hypothesis other_exception : other = OverflowError \/ other = RecursionError.

Local Abbreviation quiet := (never_raises other).

Lemma quiet_bind {A B} (m : parser A) (f : A -> parser B) :
  quiet m -> (forall a, quiet (f a)) -> quiet (bind m f).
Proof.
  intros Hm Hf index. unfold bind. specialize (Hm index).
  destruct (m index) as [[a|e|] index']; simpl in *.
  - apply Hf.
  - intros Heq. apply Hm. congruence.
  - discriminate.
Qed.

Lemma quiet_ret {A} (a : A) : quiet (ret a).
Proof. intros index. discriminate. Qed.

Lemma quiet_raise {A} (msg : message) : quiet (@raise A (ValueError msg)).
Proof.
  intros index Heq. simpl in Heq.
  destruct other_exception as [H|H]; rewrite H in Heq; discriminate.
Qed.

Variable tokens : list _Token.

Lemma quiet_current : quiet (_current tokens).
Proof.
  intros index. unfold _current.
  destruct (nth_error tokens index); [discriminate|].
  intros Heq. simpl in Heq.
  destruct other_exception as [H|H]; rewrite H in Heq; discriminate.
Qed.

Lemma quiet_consume (k : string) : quiet (_consume tokens k).
Proof.
  unfold _consume.
  apply quiet_bind; [apply quiet_current|intros token].
  destruct (negb (kind token =? k)%string); [apply quiet_raise|].
  apply quiet_bind; [apply quiet_current|intros token'].
  apply quiet_bind; [intros index; discriminate|intros _].
  apply quiet_ret.
Qed.

Ltac quiet_step :=
  first
    [ assumption
    | apply quiet_ret
    | apply quiet_raise
    | apply quiet_current
    | apply quiet_consume
    | apply quiet_bind; [|intros ?]
    | match goal with
      | |- never_raises _ (if ?b then _ else _) => destruct b
      | |- never_raises _ (float_of_value _ ?v) =>
          destruct v; simpl
      | |- never_raises _ (match float_of_str ?t with _ => _ end) =>
          destruct (float_of_str t)
      | H : forall value, never_raises _ (?f value)
        |- never_raises _ (?f _) =>
          apply H
      end ].

Lemma parser_quiet :
  forall fuel,
    quiet (_parse_expression float_of_str tokens fuel)
    /\ (forall value, quiet (expression_loop float_of_str tokens fuel value))
    /\ quiet (_parse_term float_of_str tokens fuel)
    /\ (forall value, quiet (term_loop float_of_str tokens fuel value))
    /\ quiet (_parse_factor float_of_str tokens fuel)
    /\ quiet (_parse_primary float_of_str tokens fuel).
Proof.
  induction fuel as [|fuel (IHe & IHel & IHt & IHtl & IHf & IHp)].
  - six; intros; intros index; discriminate.
  - six; [|intros value| |intros value| |];
      rewrite ?_parse_expression_S, ?expression_loop_S, ?_parse_term_S,
        ?term_loop_S, ?_parse_factor_S, ?_parse_primary_S;
      repeat quiet_step.
Qed.

Lemma parse_quiet : quiet (parse float_of_str tokens).
Proof.
  unfold parse.
  apply quiet_bind; [apply parser_quiet|intros value].
  repeat quiet_step.
Qed.

End OnlyValueError.

(** With calls nested to any depth, [evaluate_expression] returns or
    raises [ValueError] on every string. *)
Lemma evaluate_expression_only_value_error
      (float_of_str : string -> option float) (text : string) :
  only_value_error (evaluate_expression float_of_str text).
Proof.
  unfold evaluate_expression.
  destruct (is_empty text || (strip text =? "")%string); [exact I|].
  unfold _tokenise.
  destruct (tokenise_loop float_of_str (S (String.length text)) text [])
    as [tokens|e|] eqn:Htokens.
  - destruct (tokenise_loop_EOF float_of_str _ _ _ _
                                (Forall_nil _) Htokens)
      as (body & -> & _).
    pose proof (safe_parse float_of_str body EOF eq_refl 0 I) as Hsafe.
    pose proof (parse_quiet float_of_str OverflowError (or_introl eq_refl)
                            (body ++ [EOF]) 0) as Hover.
    pose proof (parse_quiet float_of_str RecursionError (or_intror eq_refl)
                            (body ++ [EOF]) 0) as Hdeep.
    pose proof (parse_terminates float_of_str (body ++ [EOF])) as Hfuel.
    rewrite length_app in Hsafe. simpl in Hsafe.
    destruct (Hsafe ltac:(lia)) as (_ & Hindex).
    destruct (fst (parse float_of_str (body ++ [EOF]) 0))
      as [v|[msg| | |]|]; simpl; congruence || exact I.
  - destruct (tokenise_loop_raises _ _ _ _ _ Htokens) as (msg & ->).
    exact I.
  - now elim (tokenise_loop_terminates float_of_str _ text []
                                       (Nat.lt_succ_diag_r _)).
Qed.

(** ** A successful parse reads every token *)

(** X9: when [parse] returns a value for tokens that end with [EOF] and hold
    no other [EOF], the cursor is left on that final [EOF]: every token
    before it has been consumed. *)
Theorem successful_parse_reads_every_token
        (float_of_str : string -> option float)
        (body : list _Token) (last : _Token) (v : float) (index : nat) :
  Forall (fun token => kind token <> "EOF") body ->
  kind last = "EOF" ->
  parse float_of_str (body ++ [last]) 0 = (Return v, index) ->
  index = List.length body.
Proof.
  intros Hbody Hlast Hparse. unfold parse, bind, _current in Hparse.
  destruct (_parse_expression float_of_str (body ++ [last])
                              (parse_fuel (body ++ [last])) 0)
    as [[v'|e|] index']; try discriminate.
  destruct (nth_error (body ++ [last]) index') as [token|] eqn:Hnth;
    [|discriminate].
  destruct (kind token =? "EOF")%string eqn:Hkind; simpl in Hparse;
    [|discriminate].
  injection Hparse as _ <-. apply String.eqb_eq in Hkind.
  destruct (Nat.lt_ge_cases index' (List.length body)) as [Hlt|Hge].
  - rewrite nth_error_app1 in Hnth by exact Hlt.
    apply nth_error_In in Hnth.
    rewrite Forall_forall in Hbody. now elim (Hbody token Hnth).
  - assert (Hin : index' < List.length (body ++ [last]))
      by (apply nth_error_Some; congruence).
    rewrite length_app in Hin. simpl in Hin. lia.
Qed.

(** A witness for X9: the tokens of ["1 + 2"]. *)
Lemma successful_parse_reads_every_token_witness :
  3 = List.length [number_token (f64 1); symbol "+"; number_token (f64 2)].
Proof.
  apply (successful_parse_reads_every_token
           float_of_literal
           [number_token (f64 1); symbol "+"; number_token (f64 2)] EOF
           (f64 3) 3).
  - repeat constructor; discriminate.
  - reflexivity.
  - vm_compute. reflexivity.
Defined.

(** ** Signs, precedence and parentheses *)

Section Precedence.

Variable float_of_str : string -> option float.

Local Abbreviation run := (evaluate_expression float_of_str).

Lemma signed_show (signs : list sign) (f : factor_tree) :
  show_factor (signed signs f) = signs_text signs (show_factor f).
Proof.
  induction signs as [|op signs IH]; simpl; [|rewrite IH]; reflexivity.
Qed.

Lemma signed_ok (signs : list sign) (f : factor_tree) :
  factor_ok float_of_str f -> factor_ok float_of_str (signed signs f).
Proof. intros Hok. induction signs as [|op signs IH]; simpl; assumption. Qed.

Lemma count_minus_cons (op : sign) (signs : list sign) :
  count_minus (op :: signs)
  = match op with
    | Minus => S (count_minus signs)
    | Plus => count_minus signs
    end.
Proof. now destruct op. Qed.

Lemma signed_eval (signs : list sign) (f : factor_tree) :
  eval_factor float_of_str (signed signs f)
  = and_then (eval_factor float_of_str f)
             (fun value =>
                Return (if Nat.even (count_minus signs) then value
                        else Float.neg value)).
Proof.
  induction signs as [|op signs IH]; simpl.
  - now destruct (eval_factor float_of_str f).
  - rewrite IH, count_minus_cons.
    destruct (eval_factor float_of_str f) as [v|x|]; simpl;
      try reflexivity.
    destruct op; simpl apply_sign; [reflexivity|].
    rewrite Nat.even_succ, <- Nat.negb_even.
    destruct (Nat.even (count_minus signs)); simpl;
      [reflexivity|now rewrite neg_involutive].
Qed.

(** With calls nested to any depth, signs written before a number literal
    evaluate to the number when the count of [-] is even and to its
    negation when it is odd. *)
Lemma signs_unbounded
      (signs : list sign) (literal : string) (number : float) :
  literal_ok float_of_str literal ->
  float_of_str literal = Some number ->
  run (signs_text signs literal)
  = Return (if Nat.even (count_minus signs) then number
            else Float.neg number).
Proof.
  intros Hok Hnumber.
  change literal with (show_factor (Primary (Number literal))).
  rewrite <- signed_show.
  rewrite evaluate_factor_show by now apply signed_ok.
  rewrite signed_eval. simpl. now rewrite Hnumber.
Qed.


End Precedence.


(** * Signs of floats *)

Lemma not_negative_sign (x : float) :
  not_negative x <-> sign_not_negative x.
Proof.
  unfold not_negative.
  destruct x as [s|[]| |[] m e]; simpl; split; intros H;
    try reflexivity; try discriminate; exact I.
Qed.

Lemma not_negative_leb (x : float) :
  not_negative x -> is_nan x = false -> Float.leb Float.zero x = true.
Proof.
  unfold not_negative.
  destruct x as [s|[]| |[] m e]; simpl; intros H Hnan;
    try reflexivity; discriminate.
Qed.

Lemma binary_round_aux_sign (s : bool) (m e : Z) (l : location) :
  has_sign s (binary_round_aux prec emax s m e l).
Proof.
  unfold binary_round_aux.
  destruct (shr_fexp prec emax m e l) as [mrs' e'].
  destruct (shr_fexp prec emax _ e' loc_Exact) as [mrs'' e''].
  destruct (shr_m mrs'');
    [ simpl; reflexivity
    | destruct (e'' <=? emax - prec)%Z; simpl; reflexivity
    | exact I ].
Qed.

Lemma binary_round_sign (s : bool) (m : positive) (e : Z) :
  has_sign s (binary_round prec emax s m e).
Proof.
  unfold binary_round.
  destruct (shl_align m e _) as [mz ez]. apply binary_round_aux_sign.
Qed.

Lemma has_sign_not_negative (x : float) :
  has_sign false x -> sign_not_negative x.
Proof. destruct x; simpl; auto. Qed.

Lemma add_not_negative (a b : float) :
  not_negative a -> not_negative b -> not_negative (Float.add a b).
Proof.
  rewrite !not_negative_sign.
  destruct a as [sa|sa| |sa ma ea], b as [sb|sb| |sb mb eb]; simpl;
    intros Ha Hb; subst; try exact I; try reflexivity.
  - now destruct sa, sb.
  - apply has_sign_not_negative.
    destruct (shl_align ma ea (Z.min ea eb)) as [ma' ea'].
    destruct (shl_align mb eb (Z.min ea eb)) as [mb' eb'].
    simpl. apply binary_round_sign.
Qed.

Lemma mul_not_negative (a b : float) :
  not_negative a -> not_negative b -> not_negative (Float.mul a b).
Proof.
  rewrite !not_negative_sign.
  destruct a as [sa|sa| |sa ma ea], b as [sb|sb| |sb mb eb]; simpl;
    intros Ha Hb; subst; try exact I; try reflexivity.
  apply has_sign_not_negative. apply binary_round_aux_sign.
Qed.

Lemma of_int_not_negative (n : Z) (x : float) :
  (0 < n)%Z -> Float.of_int n = Some x -> not_negative x.
Proof.
  intros Hn Hx. apply not_negative_sign, has_sign_not_negative.
  unfold Float.of_int in Hx. destruct n as [|p|p]; try lia.
  simpl in Hx. pose proof (binary_round_sign false p 0) as Hsign.
  destruct (binary_round prec emax false p 0); inversion Hx; subst;
    exact Hsign.
Qed.

Lemma max_zero_not_negative (x : float) :
  not_negative (Project.max x Float.zero).
Proof.
  unfold Project.max, not_negative.
  destruct (Float.ltb x Float.zero) eqn:Hx; [reflexivity|exact Hx].
Qed.

Lemma compare_antisym (a b : float) (c : comparison) :
  SFcompare a b = Some c -> SFcompare b a = Some (CompOpp c).
Proof.
  destruct a as [sa|sa| |sa ma ea], b as [sb|sb| |sb mb eb]; simpl;
    try discriminate; intros H; injection H as <-;
    try (now destruct sa, sb); try (now destruct sa); try (now destruct sb).
  change (Pos.compare_cont Eq ma mb) with (Pos.compare ma mb).
  change (Pos.compare_cont Eq mb ma) with (Pos.compare mb ma).
  rewrite (Z.compare_antisym ea eb), (Pos.compare_antisym ma mb).
  destruct sa, sb; try reflexivity;
    destruct (ea ?= eb)%Z; simpl; try reflexivity;
    destruct (ma ?= mb)%positive; reflexivity.
Qed.

(** When neither is NaN, [b < a] false means [a <= b]. *)
Lemma not_ltb_leb (a b : float) :
  Float.ltb b a = false ->
  is_nan a = false -> is_nan b = false ->
  Float.leb a b = true.
Proof.
  unfold Float.ltb, Float.leb, SFltb, SFleb. intros Hlt Ha Hb.
  destruct (SFcompare b a) as [c|] eqn:Hc.
  - rewrite (compare_antisym _ _ _ Hc). now destruct c.
  - destruct a, b; simpl in *; discriminate.
Qed.

(** * More on the project simulator *)

Section MoreSimulatorFacts.

Variable generator : Type.
Variable environment : Type.
Variable seeded : Z -> generator.
Variable from_entropy : environment -> generator * environment.
Variable uniform : generator -> float -> float -> float * generator.

Local Abbreviation simulate :=
  (Project.simulate generator environment seeded from_entropy uniform).
Local Abbreviation simulate_phase :=
  (Project.simulate_phase generator uniform).
Local Abbreviation sample_duration :=
  (Project.sample_duration generator uniform).

Lemma sample_duration_sign (phase : Project.Phase) (complexity : float)
      (rng : generator) :
  not_negative (fst (sample_duration phase complexity rng)).
Proof.
  unfold Project.sample_duration.
  destruct (uniform rng _ _) as [offset rng']. simpl.
  apply max_zero_not_negative.
Qed.

(** X12: a sampled duration is never negative, whatever the phase, the
    complexity and the random draw: [duration < 0] is false, and
    [duration >= 0] is true unless the duration is NaN. *)
Theorem sample_duration_never_negative
        (phase : Project.Phase) (complexity : float) (rng : generator) :
  let duration := fst (sample_duration phase complexity rng) in
  Float.ltb duration Float.zero = false
  /\ (is_nan duration = false -> Float.leb Float.zero duration = true).
Proof.
  intros duration. split.
  - apply sample_duration_sign.
  - apply not_negative_leb, sample_duration_sign.
Qed.

(** ** The shape of the timeline *)

Lemma simulate_loop_signs (complexity : float)
      (phases : list Project.Phase) :
  forall l,
    not_negative (Project.day_cursor generator l) ->
    Forall days_not_negative (Project.outcomes generator l) ->
    let l' := fold_left (simulate_phase complexity) phases l in
    not_negative (Project.day_cursor generator l')
    /\ Forall days_not_negative (Project.outcomes generator l').
Proof.
  induction phases as [|phase phases IH]; intros l Hday Hout; simpl;
    [now split|].
  apply IH.
  - unfold Project.simulate_phase.
    pose proof (sample_duration_sign phase complexity
                                     (Project.rng generator l)) as Hactual.
    destruct (sample_duration phase complexity (Project.rng generator l))
      as [actual rng']. simpl in *.
    now apply add_not_negative.
  - unfold Project.simulate_phase.
    pose proof (sample_duration_sign phase complexity
                                     (Project.rng generator l)) as Hactual.
    destruct (sample_duration phase complexity (Project.rng generator l))
      as [actual rng']. simpl in *.
    apply Forall_app. split; [exact Hout|].
    constructor; [|constructor].
    repeat split; simpl; try assumption. now apply add_not_negative.
Qed.

(** X13: in every report of a simulator that [__init__] built, no day count
    is negative: not the [actual_days], [start_day] and [end_day] of a
    phase, not [total_days], not [budget_used]. *)
Theorem report_never_negative
        (phases : list Project.Phase) (team_size : Z) (cost_per_day : float)
        (sim : Project.ProjectSimulator)
        (complexity : float) (seed : option Z) (e : environment)
        (r : Project.report) :
  Project.__init__ phases team_size cost_per_day = Return sim ->
  fst (simulate complexity seed (Project.mk_process environment sim e))
  = Return r ->
  Float.ltb (Project.total_days r) Float.zero = false
  /\ Float.ltb (Project.budget_used r) Float.zero = false
  /\ Forall (fun o =>
               Float.ltb (Project.actual_days o) Float.zero = false
               /\ Float.ltb (Project.start_day o) Float.zero = false
               /\ Float.ltb (Project.end_day o) Float.zero = false)
            (Project.timeline r).
Proof.
  intros Hinit Hrun.
  assert (Hsim : (0 < Project.team_size sim)%Z
                 /\ not_negative (Project.cost_per_day sim)).
  { unfold Project.__init__ in Hinit.
    destruct phases as [|phase phases]; [discriminate|].
    destruct (team_size <=? 0)%Z eqn:Hteam; [discriminate|].
    destruct (Float.ltb cost_per_day Float.zero) eqn:Hcost; [discriminate|].
    injection Hinit as <-. simpl. split; [lia|exact Hcost]. }
  destruct Hsim as (Hteam & Hcost).
  unfold Project.simulate in Hrun. simpl in Hrun.
  destruct (Float.leb complexity Float.zero); [discriminate|].
  destruct (Project.Random generator environment seeded from_entropy seed e)
    as [rng0 e'].
  destruct (Float.of_int (Project.team_size sim)) as [size|] eqn:Hsize;
    [|discriminate].
  simpl in Hrun. injection Hrun as <-. simpl.
  destruct (simulate_loop_signs
              complexity (Project._phases sim)
              (Project.mk_locals generator rng0 Float.zero [] (f64 70)))
    as (Htotal & Hdays); [reflexivity|constructor|].
  split; [exact Htotal|]. split; [|exact Hdays].
  apply mul_not_negative; [|exact Hcost].
  apply mul_not_negative; [exact Htotal|].
  now apply (of_int_not_negative (Project.team_size sim)).
Qed.

Lemma simulate_loop_plan (complexity : float)
      (phases : list Project.Phase) :
  forall l,
    let l' := fold_left (simulate_phase complexity) phases l in
    List.map Project.outcome_name (Project.outcomes generator l')
    = List.map Project.outcome_name (Project.outcomes generator l)
      ++ List.map Project.name phases
    /\ List.map Project.planned_days (Project.outcomes generator l')
       = List.map Project.planned_days (Project.outcomes generator l)
         ++ List.map (fun phase =>
                        Project.expected_days phase complexity) phases
    /\ List.map Project.quality_delta (Project.outcomes generator l')
       = List.map Project.quality_delta (Project.outcomes generator l)
         ++ List.map Project.quality_impact phases
    /\ Project.score generator l'
       = fold_left (fun score phase =>
                      Float.add score (Project.quality_impact phase))
                   phases (Project.score generator l).
Proof.
  induction phases as [|phase phases IH]; intros l; simpl.
  - now rewrite !app_nil_r.
  - destruct (IH (simulate_phase complexity l phase))
      as (Hnames & Hplanned & Hdeltas & Hscore).
    rewrite Hnames, Hplanned, Hdeltas, Hscore.
    unfold Project.simulate_phase.
    destruct (sample_duration phase complexity (Project.rng generator l))
      as [actual rng']. simpl.
    rewrite !map_app, <- !app_assoc. simpl. auto.
Qed.

(** The report of a successful run, in terms of the loop. *)
Lemma simulate_returns (complexity : float) (seed : option Z)
      (p : Project.process environment) (r : Project.report) :
  fst (simulate complexity seed p) = Return r ->
  exists l0,
    Project.day_cursor generator l0 = Float.zero
    /\ Project.outcomes generator l0 = []
    /\ Project.score generator l0 = f64 70
    /\ let l := fold_left (simulate_phase complexity)
                          (Project._phases (Project.self environment p)) l0 in
       Project.timeline r = Project.outcomes generator l
       /\ Project.total_days r = Project.day_cursor generator l
       /\ Project.quality_score r
          = Project.max (Project.min (Project.score generator l) (f64 100))
                        Float.zero.
Proof.
  unfold Project.simulate. intros Hrun.
  destruct (Float.leb complexity Float.zero); [discriminate|].
  destruct (Project.Random generator environment seeded from_entropy seed
                           (Project.env environment p)) as [rng0 e'].
  destruct (Float.of_int _); [|discriminate].
  simpl in Hrun. injection Hrun as <-.
  exists (Project.mk_locals generator rng0 Float.zero [] (f64 70)).
  cbv zeta. repeat split; reflexivity.
Qed.

(** X14: the quality score of a report is [70.0] plus the impacts of the
    phases, added in order, clamped: it is never below [0.0] nor above
    [100.0] ([0 <= score <= 100] unless the sum is NaN).  It depends neither
    on the complexity nor on the seed. *)
Theorem quality_score_clamped
        (complexity : float) (seed : option Z)
        (p : Project.process environment) (r : Project.report) :
  fst (simulate complexity seed p) = Return r ->
  let score := Project.quality_score r in
  score = Project.max
            (Project.min
               (raw_quality (Project._phases (Project.self environment p)))
               (f64 100))
            Float.zero
  /\ Float.ltb score Float.zero = false
  /\ Float.ltb (f64 100) score = false
  /\ (is_nan score = false ->
      Float.leb Float.zero score = true
      /\ Float.leb score (f64 100) = true).
Proof.
  intros Hrun score.
  destruct (simulate_returns _ _ _ _ Hrun)
    as (l0 & _ & _ & Hscore0 & _ & _ & Hquality).
  destruct (simulate_loop_plan
              complexity (Project._phases (Project.self environment p)) l0)
    as (_ & _ & _ & Hscore).
  assert (Hvalue : score
                   = Project.max
                       (Project.min
                          (raw_quality
                             (Project._phases (Project.self environment p)))
                          (f64 100))
                       Float.zero).
  { unfold score. rewrite Hquality, Hscore, Hscore0. reflexivity. }
  assert (Hbounds : Float.ltb score Float.zero = false
                    /\ Float.ltb (f64 100) score = false).
  { rewrite Hvalue.
    generalize (raw_quality (Project._phases (Project.self environment p))).
    intros raw. unfold Project.max, Project.min.
    assert (H100 : Float.ltb (f64 100) Float.zero = false)
      by (vm_compute; reflexivity).
    assert (H100' : Float.ltb (f64 100) (f64 100) = false)
      by (vm_compute; reflexivity).
    destruct (Float.ltb (f64 100) raw) eqn:Hhigh.
    - rewrite H100. now split.
    - destruct (Float.ltb raw Float.zero) eqn:Hlow; split;
        try assumption; reflexivity. }
  destruct Hbounds as (Hlow & Hhigh).
  repeat split; try assumption.
  - now apply not_negative_leb.
  - apply not_ltb_leb; [exact Hhigh|assumption|reflexivity].
Qed.

(** The timeline of a report, phase by phase. *)
Lemma simulate_timeline_plan
        (complexity : float) (seed : option Z)
        (p : Project.process environment) (r : Project.report) :
  fst (simulate complexity seed p) = Return r ->
  let phases := Project._phases (Project.self environment p) in
  List.map Project.outcome_name (Project.timeline r)
  = List.map Project.name phases
  /\ List.map Project.planned_days (Project.timeline r)
     = List.map (fun phase => Project.expected_days phase complexity) phases
  /\ List.map Project.quality_delta (Project.timeline r)
     = List.map Project.quality_impact phases
  /\ List.length (Project.timeline r) = List.length phases.
Proof.
  intros Hrun phases.
  destruct (simulate_returns _ _ _ _ Hrun)
    as (l0 & _ & Hout0 & _ & Htimeline & _ & _).
  destruct (simulate_loop_plan complexity phases l0)
    as (Hnames & Hplanned & Hdeltas & _).
  rewrite Hout0 in Hnames, Hplanned, Hdeltas. simpl in *.
  fold phases in Htimeline. rewrite Htimeline.
  repeat split; try assumption.
  rewrite <- (length_map Project.outcome_name), Hnames.
  apply length_map.
Qed.

(** X15: the timeline of a report mirrors the phases of the simulator: one
    outcome for each phase, in order, with the name of the phase, its
    quality impact, and as planned days the expected duration
    [base_days + complexity_multiplier * max(complexity - 1.0, 0.0)],
    whatever the seed and the random draws. *)
Theorem timeline_mirrors_phases
        (complexity : float) (seed : option Z)
        (p : Project.process environment) (r : Project.report) :
  fst (simulate complexity seed p) = Return r ->
  let phases := Project._phases (Project.self environment p) in
  List.map Project.outcome_name (Project.timeline r)
  = List.map Project.name phases
  /\ List.map Project.planned_days (Project.timeline r)
     = List.map (fun phase => Project.expected_days phase complexity) phases
  /\ List.map Project.quality_delta (Project.timeline r)
     = List.map Project.quality_impact phases
  /\ List.length (Project.timeline r) = List.length phases.
Proof. apply simulate_timeline_plan. Qed.

End MoreSimulatorFacts.

(** A witness for X13: the default phases, complexity [1.5], seed [42]. *)
Lemma report_never_negative_witness :
  Float.ltb (Project.total_days example_report) Float.zero = false
  /\ Float.ltb (Project.budget_used example_report) Float.zero = false
  /\ Forall (fun o =>
               Float.ltb (Project.actual_days o) Float.zero = false
               /\ Float.ltb (Project.start_day o) Float.zero = false
               /\ Float.ltb (Project.end_day o) Float.zero = false)
            (Project.timeline example_report).
Proof.
  apply (report_never_negative
           nat unit Z.to_nat (fun e => (O, e)) counter_uniform
           Project.DEFAULT_PHASES 3 (f64 1000) example_simulator
           (f64 1.5) (Some 42%Z) tt example_report).
  - vm_compute. reflexivity.
  - vm_compute. reflexivity.
Defined.

(** A witness for X14: the default phases give [70 + 19 = 89]. *)
Lemma quality_score_clamped_witness :
  Project.quality_score example_report = f64 89.
Proof.
  refine (eq_trans
            (proj1 (quality_score_clamped
                      nat unit Z.to_nat (fun e => (O, e)) counter_uniform
                      (f64 1.5) (Some 42%Z)
                      (Project.mk_process unit example_simulator tt)
                      example_report _)) _).
  - vm_compute. reflexivity.
  - vm_compute. reflexivity.
Defined.

(** A witness for X15: the default phases. *)
Lemma timeline_mirrors_phases_witness :
  List.map Project.outcome_name (Project.timeline example_report)
  = default_names.
Proof.
  refine (proj1 (timeline_mirrors_phases
                   nat unit Z.to_nat (fun e => (O, e)) counter_uniform
                   (f64 1.5) (Some 42%Z)
                   (Project.mk_process unit example_simulator tt)
                   example_report _)).
  vm_compute. reflexivity.
Defined.

(** * The command line *)

Section CliFacts.

Variable generator : Type.
Variable environment : Type.
Variable seeded : Z -> generator.
Variable from_entropy : environment -> generator * environment.
Variable uniform : generator -> float -> float -> float * generator.

Local Abbreviation run_simulation :=
  (Cli.run_simulation generator environment seeded from_entropy uniform).

(** X16: [run_simulation] checks the team size first, then the cost, then
    the complexity, and when it returns a report the timeline has the five
    default phases, in order. *)
Theorem run_simulation_outcome (args : Cli.Namespace) (e : environment) :
  let result := fst (run_simulation args e) in
  ((Cli.team_size args <= 0)%Z ->
   result = Raise (ValueError TeamSizeNotPositive))
  /\ ((0 < Cli.team_size args)%Z ->
      Float.ltb (Cli.cost_per_day args) Float.zero = true ->
      result = Raise (ValueError NegativeCost))
  /\ ((0 < Cli.team_size args)%Z ->
      Float.ltb (Cli.cost_per_day args) Float.zero = false ->
      Float.leb (Cli.complexity args) Float.zero = true ->
      result = Raise (ValueError ComplexityNotPositive))
  /\ (forall r,
         result = Return r ->
         List.map Project.outcome_name (Project.timeline r) = default_names).
Proof.
  intros result. subst result.
  unfold Cli.run_simulation, Project.create_default_simulator,
    Project.__init__, Project.DEFAULT_PHASES.
  destruct (Cli.team_size args <=? 0)%Z eqn:Hteam.
  { repeat split; try reflexivity; intros; try discriminate; lia. }
  destruct (Float.ltb (Cli.cost_per_day args) Float.zero) eqn:Hcost.
  { repeat split; try reflexivity; intros; try discriminate; lia. }
  match goal with
  | |- context [Project.simulate _ _ _ _ _ ?c ?s ?p] =>
      pose proof (simulate_timeline_plan
                    generator environment seeded from_entropy uniform
                    c s p) as Hmirror;
      destruct (Project.simulate generator environment seeded from_entropy
                                 uniform c s p) as [out p'] eqn:Hrun
  end.
  simpl in *.
  repeat split; intros; try discriminate; try lia.
  - unfold Project.simulate in Hrun. rewrite H1 in Hrun.
    now injection Hrun as <- _.
  - subst out. now destruct (Hmirror r eq_refl) as (Hnames & _).
Qed.

End CliFacts.

(** * What the evaluator accepts *)

(** ** The tokeniser, read backwards *)

Section TokeniserInversion.

Variable float_of_str : string -> option float.

Local Abbreviation loop := (tokenise_loop float_of_str).

(** Items whose text does not begin with a digit or a point can follow a
    literal. *)
Lemma separated_after_literal (items : list (string * lexeme))
      (trail : string) :
  items_ok float_of_str items ->
  starts_with digit_or_dot (render items trail) = false ->
  separated false items ->
  separated true items.
Proof.
  destruct items as [|[gap x] more]; simpl; [trivial|].
  intros Hok Hstart (_ & Hmore). split; [|exact Hmore].
  intros Hglue ->. simpl in Hglue.
  destruct x as [literal|c]; [|discriminate].
  inversion Hok as [|? ? (_ & Hx) _]; subst. simpl in Hx, Hstart.
  rewrite (literal_starts float_of_str literal _ Hx) in Hstart.
  discriminate.
Qed.

(** Every text the tokeniser accepts is a list of lexemes with white space
    around them, and the tokens are those of the lexemes. *)
Lemma tokenise_loop_inv (fuel : nat) :
  forall rest acc tokens,
    loop fuel rest acc = Return tokens ->
    exists items trail,
      rest = render items trail
      /\ well_spaced float_of_str items trail
      /\ tokens = acc ++ lex float_of_str items ++ [EOF].
Proof.
  induction fuel as [|fuel IH]; intros rest acc tokens Hrun;
    [discriminate|].
  destruct rest as [|c rest]; cbn [tokenise_loop] in Hrun.
  { injection Hrun as <-. exists [], EmptyString.
    repeat split; constructor. }
  destruct (isspace c) eqn:Hspace.
  { destruct (IH _ _ _ Hrun) as (items & trail & -> & Hspaced & ->).
    destruct Hspaced as (Hok & Hsep & Htrail).
    destruct items as [|[gap x] more].
    - exists [], (String c trail). simpl.
      repeat split; try constructor.
      unfold blank in *. simpl. now rewrite Hspace.
    - exists ((String c gap, x) :: more), trail.
      inversion Hok as [|? ? (Hgap & Hx) Hmore]; subst.
      destruct Hsep as (_ & Hsep). simpl in Hgap.
      repeat split; try assumption; try reflexivity.
      + constructor; [|assumption]. split; [|assumption].
        unfold blank in *. simpl. now rewrite Hspace.
      + simpl. discriminate. }
  destruct (char_in c "+-*/()") eqn:Hop.
  { destruct (IH _ _ _ Hrun) as (items & trail & -> & Hspaced & ->).
    destruct Hspaced as (Hok & Hsep & Htrail).
    exists ((EmptyString, LSymbol c) :: items), trail.
    repeat split; try assumption; try reflexivity.
    - constructor; [|assumption]. repeat split; assumption.
    - simpl. discriminate.
    - now rewrite <- app_assoc. }
  destruct (isdigit c || is_dot c) eqn:Hdigit; [|discriminate].
  pose proof (scan_number_maximal rest) as Hscan.
  destruct (scan_number rest) as [run after].
  destruct Hscan as (Hsplit & Hrun_ok & Hafter).
  destruct (float_of_str (String c run)) as [number|] eqn:Hconv;
    [|discriminate].
  destruct (IH _ _ _ Hrun) as (items & trail & Hrest & Hspaced & ->).
  destruct Hspaced as (Hok & Hsep & Htrail).
  exists ((EmptyString, LNumber (String c run)) :: items), trail.
  repeat split; try assumption.
  - simpl. now rewrite Hsplit, Hrest.
  - constructor; [|assumption]. split; [reflexivity|].
    repeat split; simpl; try assumption.
    + unfold digit_or_dot. now rewrite Hdigit.
    + congruence.
  - simpl. discriminate.
  - rewrite Hrest in Hafter. now apply (separated_after_literal items trail).
  - rewrite <- app_assoc. simpl. unfold number_of. now rewrite Hconv.
Qed.

End TokeniserInversion.

(** ** The parser, read backwards *)

Lemma bind_inv {A B} (m : parser A) (f : A -> parser B) (i j : nat) (b : B) :
  bind m f i = (Return b, j) ->
  exists a k, m i = (Return a, k) /\ f a k = (Return b, j).
Proof.
  unfold bind. destruct (m i) as [[a|e|] k]; try discriminate. eauto.
Qed.

Lemma kind_in_two (k a b : string) :
  kind_in k [a; b] = true -> k = a \/ k = b.
Proof.
  unfold kind_in. simpl. rewrite orb_false_r.
  intros H. apply orb_true_iff in H as [H|H]; apply String.eqb_eq in H; auto.
Qed.

Section ParserInversion.

Variable float_of_str : string -> option float.
Variable L : list lexeme.
Hypothesis L_ok : Forall (lexeme_ok float_of_str) L.

Local Abbreviation tok := (token_of float_of_str).
Local Abbreviation tokens := (List.map tok L ++ [EOF]).
Local Abbreviation expression := (_parse_expression float_of_str tokens).
Local Abbreviation expression_tail := (expression_loop float_of_str tokens).
Local Abbreviation term := (_parse_term float_of_str tokens).
Local Abbreviation term_tail := (term_loop float_of_str tokens).
Local Abbreviation factor := (_parse_factor float_of_str tokens).
Local Abbreviation primary := (_parse_primary float_of_str tokens).
Local Abbreviation segment := (segment L).

Lemma current_inv (i k : nat) (t : _Token) :
  _current tokens i = (Return t, k) -> k = i /\ nth_error tokens i = Some t.
Proof.
  unfold _current. destruct (nth_error tokens i); [|discriminate].
  intros H. injection H as <- <-. auto.
Qed.

Lemma consume_inv (kd : string) (i j : nat) (t : _Token) :
  _consume tokens kd i = (Return t, j) ->
  nth_error tokens i = Some t /\ kind t = kd /\ j = S i.
Proof.
  unfold _consume. intros H.
  apply bind_inv in H as (t1 & k1 & H1 & H).
  apply current_inv in H1 as (-> & Hnth).
  destruct (kind t1 =? kd)%string eqn:Hkind; simpl in H; [|discriminate].
  apply bind_inv in H as (t2 & k2 & H2 & H).
  apply current_inv in H2 as (-> & Hnth').
  unfold bind, advance, ret in H. injection H as <- <-.
  apply String.eqb_eq in Hkind. split; [congruence|]. split; congruence.
Qed.

Lemma token_at (i : nat) (t : _Token) :
  nth_error tokens i = Some t ->
  (exists x, nth_error L i = Some x /\ t = tok x)
  \/ (i = List.length L /\ t = EOF).
Proof.
  intros Hnth.
  destruct (Nat.lt_ge_cases i (List.length L)) as [Hlt|Hge].
  - left. rewrite nth_error_app1 in Hnth by now rewrite length_map.
    rewrite nth_error_map in Hnth.
    destruct (nth_error L i) as [x|]; [|discriminate].
    injection Hnth as <-. eauto.
  - right. rewrite nth_error_app2, length_map in Hnth
      by now rewrite length_map.
    destruct (i - List.length L) as [|[|n]] eqn:Hi; simpl in Hnth;
      try discriminate.
    injection Hnth as <-. split; [lia|reflexivity].
Qed.

Lemma symbol_at (c : ascii) (i : nat) (t : _Token) :
  nth_error tokens i = Some t ->
  kind t = char_str c ->
  nth_error L i = Some (LSymbol c).
Proof.
  intros Hnth Hkind.
  destruct (token_at i t Hnth) as [(x & Hx & ->)|(_ & ->)];
    [|discriminate].
  destruct x as [literal|c']; simpl in Hkind; [discriminate|].
  unfold char_str in Hkind. now injection Hkind as ->.
Qed.

Lemma number_at (i : nat) (t : _Token) :
  nth_error tokens i = Some t ->
  kind t = "NUMBER" ->
  exists literal,
    nth_error L i = Some (LNumber literal)
    /\ value t = VFloat (number_of float_of_str literal).
Proof.
  intros Hnth Hkind.
  destruct (token_at i t Hnth) as [(x & Hx & ->)|(_ & ->)];
    [|discriminate].
  destruct x as [literal|c]; simpl in Hkind; [eauto|discriminate].
Qed.

Lemma additive_at (i : nat) (t : _Token) :
  nth_error tokens i = Some t ->
  kind_in (kind t) ["+"; "-"] = true ->
  exists op,
    nth_error L i = Some (LSymbol (sign_char op))
    /\ kind t = char_str (sign_char op).
Proof.
  intros Hnth Hkind.
  apply kind_in_two in Hkind as [Hkind|Hkind];
    [exists Plus|exists Minus]; split; try exact Hkind;
    now apply (symbol_at _ i t).
Qed.

Lemma multiplicative_at (i : nat) (t : _Token) :
  nth_error tokens i = Some t ->
  kind_in (kind t) ["*"; "/"] = true ->
  exists op,
    nth_error L i = Some (LSymbol (mulop_char op))
    /\ kind t = char_str (mulop_char op).
Proof.
  intros Hnth Hkind.
  apply kind_in_two in Hkind as [Hkind|Hkind];
    [exists Times|exists Divide]; split; try exact Hkind;
    now apply (symbol_at _ i t).
Qed.

Lemma skipn_nth {A} (l : list A) :
  forall i x, nth_error l i = Some x -> skipn i l = x :: skipn (S i) l.
Proof.
  induction l as [|a l IH]; intros [|i] x H; simpl in *; try discriminate.
  - now injection H as ->.
  - now apply IH.
Qed.

Lemma segment_one (i : nat) (x : lexeme) :
  nth_error L i = Some x -> segment i (S i) [x].
Proof.
  intros H. split; [now apply skipn_nth|simpl; lia].
Qed.

Lemma segment_app (i j k : nat) (l l' : list lexeme) :
  segment i j l -> segment j k l' -> segment i k (l ++ l').
Proof.
  intros (H & ->) (H' & ->). split.
  - now rewrite H, H', app_assoc.
  - rewrite length_app. lia.
Qed.

Lemma lexeme_at_ok (i : nat) (x : lexeme) :
  nth_error L i = Some x -> lexeme_ok float_of_str x.
Proof.
  intros H. apply nth_error_In in H.
  rewrite Forall_forall in L_ok. now apply L_ok.
Qed.

Local Abbreviation reads_primary := (reads_primary float_of_str L).
Local Abbreviation reads_factor := (reads_factor float_of_str L).
Local Abbreviation reads_term := (reads_term float_of_str L).
Local Abbreviation reads_expression := (reads_expression float_of_str L).

Lemma reads_number (i : nat) (literal : string) :
  nth_error L i = Some (LNumber literal) ->
  reads_primary i (S i) (number_of float_of_str literal).
Proof.
  intros Hnth. exists (Number literal).
  pose proof (lexeme_at_ok _ _ Hnth) as Hok. simpl in Hok.
  split; [exact Hok|]. split; [|now apply segment_one].
  simpl. unfold number_of. destruct Hok as (_ & _ & Hconv).
  now destruct (float_of_str literal).
Qed.

Lemma reads_paren (i j : nat) (v : float) :
  nth_error L i = Some (LSymbol "(") ->
  reads_expression (S i) j v ->
  nth_error L j = Some (LSymbol ")") ->
  reads_primary i (S j) v.
Proof.
  intros Hopen (e & Hok & Heval & Hseg) Hclose. exists (Paren e).
  split; [exact Hok|]. split; [exact Heval|].
  apply (segment_app i (S i) (S j) [LSymbol "("]);
    [now apply segment_one|].
  apply (segment_app (S i) j (S j)); [exact Hseg|now apply segment_one].
Qed.

Lemma reads_unary (i j : nat) (op : sign) (v : float) :
  nth_error L i = Some (LSymbol (sign_char op)) ->
  reads_factor (S i) j v ->
  reads_factor i j (apply_sign op v).
Proof.
  intros Hop (f & Hok & Heval & Hseg). exists (Unary op f).
  split; [exact Hok|]. split; [simpl; now rewrite Heval|].
  apply (segment_app i (S i) j [LSymbol (sign_char op)]);
    [now apply segment_one|exact Hseg].
Qed.

Lemma reads_product (i0 i j : nat) (op : mulop) (a b c : float) :
  reads_term i0 i a ->
  nth_error L i = Some (LSymbol (mulop_char op)) ->
  reads_factor (S i) j b ->
  apply_multiplicative op a b = Return c ->
  reads_term i0 j c.
Proof.
  intros (t & Hokt & Hevalt & Hsegt) Hop (f & Hokf & Hevalf & Hsegf) Hc.
  exists (TBinary t op f).
  split; [now split|]. split; [simpl; now rewrite Hevalt, Hevalf|].
  apply (segment_app i0 i j); [exact Hsegt|].
  apply (segment_app i (S i) j [LSymbol (mulop_char op)]);
    [now apply segment_one|exact Hsegf].
Qed.

Lemma reads_sum (i0 i j : nat) (op : sign) (a b : float) :
  reads_expression i0 i a ->
  nth_error L i = Some (LSymbol (sign_char op)) ->
  reads_term (S i) j b ->
  reads_expression i0 j (apply_additive op a b).
Proof.
  intros (e & Hoke & Hevale & Hsege) Hop (t & Hokt & Hevalt & Hsegt).
  exists (EBinary e op t).
  split; [now split|]. split; [simpl; now rewrite Hevale, Hevalt|].
  apply (segment_app i0 i j); [exact Hsege|].
  apply (segment_app i (S i) j [LSymbol (sign_char op)]);
    [now apply segment_one|exact Hsegt].
Qed.

Lemma parser_reads_trees :
  forall fuel,
    (forall i j v, expression fuel i = (Return v, j) ->
                   reads_expression i j v)
    /\ (forall a i j v,
           expression_tail fuel a i = (Return v, j) ->
           forall i0, reads_expression i0 i a -> reads_expression i0 j v)
    /\ (forall i j v, term fuel i = (Return v, j) -> reads_term i j v)
    /\ (forall a i j v,
           term_tail fuel a i = (Return v, j) ->
           forall i0, reads_term i0 i a -> reads_term i0 j v)
    /\ (forall i j v, factor fuel i = (Return v, j) -> reads_factor i j v)
    /\ (forall i j v, primary fuel i = (Return v, j) -> reads_primary i j v).
Proof.
  induction fuel as [|fuel (IHe & IHel & IHt & IHtl & IHf & IHp)].
  - six; intros; discriminate.
  - six.
    + (* expression *)
      intros i j v H. rewrite _parse_expression_S in H.
      apply bind_inv in H as (a & k & Hterm & Htail).
      apply (IHel _ _ _ _ Htail).
      destruct (IHt _ _ _ Hterm) as (t & Hok & Heval & Hseg).
      now exists (ETerm t).
    + (* the loop of expression *)
      intros a i j v H i0 Hread. rewrite expression_loop_S in H.
      apply bind_inv in H as (t & k & Hcur & H).
      apply current_inv in Hcur as (-> & Hnth).
      destruct (kind_in (kind t) ["+"; "-"]) eqn:Hkind.
      * apply bind_inv in H as (t' & k & Hcur & H).
        apply current_inv in Hcur as (-> & Hnth').
        apply bind_inv in H as (tk & k & Hcons & H).
        apply consume_inv in Hcons as (Hnth'' & _ & ->).
        assert (t' = t) as -> by congruence.
        assert (tk = t) as -> by congruence.
        apply bind_inv in H as (b & k & Hterm & H).
        destruct (additive_at i t Hnth Hkind) as (op & Hop & Hk).
        pose proof (reads_sum i0 i k op a b Hread Hop
                              (IHt _ _ _ Hterm)) as Hsum.
        rewrite Hk in H.
        destruct op; simpl in H, Hsum; now apply (IHel _ _ _ _ H).
      * unfold ret in H. now injection H as <- <-.
    + (* term *)
      intros i j v H. rewrite _parse_term_S in H.
      apply bind_inv in H as (a & k & Hfactor & Htail).
      apply (IHtl _ _ _ _ Htail).
      destruct (IHf _ _ _ Hfactor) as (f & Hok & Heval & Hseg).
      now exists (TFactor f).
    + (* the loop of term *)
      intros a i j v H i0 Hread. rewrite term_loop_S in H.
      apply bind_inv in H as (t & k & Hcur & H).
      apply current_inv in Hcur as (-> & Hnth).
      destruct (kind_in (kind t) ["*"; "/"]) eqn:Hkind.
      * apply bind_inv in H as (t' & k & Hcur & H).
        apply current_inv in Hcur as (-> & Hnth').
        apply bind_inv in H as (tk & k & Hcons & H).
        apply consume_inv in Hcons as (Hnth'' & _ & ->).
        assert (t' = t) as -> by congruence.
        assert (tk = t) as -> by congruence.
        apply bind_inv in H as (b & k & Hfactor & H).
        destruct (multiplicative_at i t Hnth Hkind) as (op & Hop & Hk).
        pose proof (fun c => reads_product i0 i k op a b c Hread Hop
                                           (IHf _ _ _ Hfactor)) as Hprod.
        rewrite Hk in H.
        destruct op; simpl in H, Hprod.
        -- now apply (IHtl _ _ _ _ H), Hprod.
        -- destruct (Float.eqb b Float.zero); [discriminate|].
           now apply (IHtl _ _ _ _ H), Hprod.
      * unfold ret in H. now injection H as <- <-.
    + (* factor *)
      intros i j v H. rewrite _parse_factor_S in H.
      apply bind_inv in H as (t & k & Hcur & H).
      apply current_inv in Hcur as (-> & Hnth).
      destruct (kind_in (kind t) ["+"; "-"]) eqn:Hkind.
      * apply bind_inv in H as (t' & k & Hcur & H).
        apply current_inv in Hcur as (-> & Hnth').
        apply bind_inv in H as (tk & k & Hcons & H).
        apply consume_inv in Hcons as (Hnth'' & _ & ->).
        assert (t' = t) as -> by congruence.
        assert (tk = t) as -> by congruence.
        apply bind_inv in H as (b & k & Hfactor & H).
        destruct (additive_at i t Hnth Hkind) as (op & Hop & Hk).
        pose proof (reads_unary i k op b Hop (IHf _ _ _ Hfactor)) as Hun.
        rewrite Hk in H. unfold ret in H.
        destruct op; simpl in H, Hun; now injection H as <- <-.
      * destruct (IHp _ _ _ H) as (p & Hok & Heval & Hseg).
        now exists (Primary p).
    + (* primary *)
      intros i j v H. rewrite _parse_primary_S in H.
      apply bind_inv in H as (t & k & Hcur & H).
      apply current_inv in Hcur as (-> & Hnth).
      destruct (kind t =? "NUMBER")%string eqn:Hnumber.
      * apply String.eqb_eq in Hnumber.
        apply bind_inv in H as (tk & k & Hcons & H).
        apply consume_inv in Hcons as (_ & _ & ->).
        destruct (number_at i t Hnth Hnumber) as (literal & Hlit & Hvalue).
        rewrite Hvalue in H. simpl in H. unfold ret in H.
        injection H as <- <-. now apply reads_number.
      * destruct (kind t =? "(")%string eqn:Hopen; [|discriminate].
        apply String.eqb_eq in Hopen.
        apply bind_inv in H as (tk & k & Hcons & H).
        apply consume_inv in Hcons as (_ & _ & ->).
        apply bind_inv in H as (v' & k & Hexpr & H).
        apply bind_inv in H as (tc & k' & Hcons & H).
        apply consume_inv in Hcons as (Hclose & Hkind & ->).
        unfold ret in H. injection H as <- <-.
        apply (reads_paren i k v').
        -- now apply (symbol_at "(" i t).
        -- now apply IHe.
        -- now apply (symbol_at ")" k tc).
Qed.

(** When [parse] returns, the lexemes are those of a tree and the value is
    the value of the tree. *)
Lemma parse_reads_tree (v : float) (j : nat) :
  parse float_of_str tokens 0 = (Return v, j) ->
  exists e,
    expression_ok float_of_str e
    /\ eval_expression float_of_str e = Return v
    /\ L = lexemes_of_expression e.
Proof.
  unfold parse. intros H.
  apply bind_inv in H as (v' & k & Hexpr & H).
  apply bind_inv in H as (t & k' & Hcur & H).
  apply current_inv in Hcur as (-> & Hnth).
  destruct (kind t =? "EOF")%string eqn:Hkind; simpl in H; [|discriminate].
  unfold ret in H. injection H as <- <-.
  destruct (parser_reads_trees (parse_fuel tokens)) as (Hread & _).
  destruct (Hread _ _ _ Hexpr) as (e & Hok & Heval & Hseg & Hlen).
  exists e. split; [exact Hok|]. split; [exact Heval|].
  destruct (token_at k t Hnth) as [(x & Hx & ->)|(-> & _)].
  - apply String.eqb_eq in Hkind. destruct x; discriminate.
  - now rewrite skipn_all, app_nil_r in Hseg.
Qed.

End ParserInversion.

(** ** Only expressions are accepted *)

(** X17: the tokeniser accepts nothing but lexemes and white space.  When
    it returns tokens, the text is a list of lexemes (number literals that
    [float] accepts, operators, parentheses) with white space around them,
    no two literals touching, and the tokens are those of the lexemes
    followed by [EOF]. *)
Theorem _tokenise_accepts_only_lexemes
        (float_of_str : string -> option float)
        (text : string) (tokens : list _Token) :
  _tokenise float_of_str text = Return tokens ->
  exists items trail,
    text = render items trail
    /\ well_spaced float_of_str items trail
    /\ tokens
       = List.map (fun item => token_of float_of_str (snd item)) items
         ++ [EOF].
Proof.
  intros Hrun.
  destruct (tokenise_loop_inv float_of_str _ _ _ _ Hrun)
    as (items & trail & Htext & Hspaced & Htokens).
  now exists items, trail.
Qed.

(** A witness for X17: [" 12 3.5+( "]. *)
Lemma _tokenise_accepts_only_lexemes_witness :
  exists items trail,
    " 12 3.5+( " = render items trail
    /\ well_spaced float_of_literal items trail
    /\ [number_token (f64 12); number_token (f64 3.5);
        symbol "+"; symbol "("; EOF]
       = List.map (fun item => token_of float_of_literal (snd item)) items
         ++ [EOF].
Proof.
  apply (_tokenise_accepts_only_lexemes float_of_literal " 12 3.5+( ").
  vm_compute. reflexivity.
Defined.

(** X18: the evaluator returns a value only for expressions of the grammar,
    and then the right one.  When [evaluate_expression] returns [v], the
    text is the lexemes of a well-formed tree of the grammar written with
    white space around them, and [v] is what the evaluator returns for the
    tree written without white space: the value of the tree. *)
Theorem evaluate_expression_accepts_only_expressions
        (float_of_str : string -> option float)
        (text : string) (v : float) :
  evaluate_expression float_of_str text = Return v ->
  exists e items trail,
    text = render items trail
    /\ well_spaced float_of_str items trail
    /\ List.map snd items = lexemes_of_expression e
    /\ expression_ok float_of_str e
    /\ eval_expression float_of_str e = Return v
    /\ evaluate_expression float_of_str (show_expression e) = Return v.
Proof.
  unfold evaluate_expression at 1. intros Hrun.
  destruct (is_empty text || (strip text =? "")%string); [discriminate|].
  destruct (_tokenise float_of_str text) as [tokens|x|] eqn:Htokens;
    try discriminate.
  destruct (tokenise_loop_inv float_of_str _ _ _ _ Htokens)
    as (items & trail & Htext & Hspaced & ->).
  simpl in Hrun. rewrite lex_of_lexemes in Hrun.
  destruct (parse float_of_str _ 0) as [o j] eqn:Hparse.
  simpl in Hrun. subst o.
  assert (Hok : Forall (lexeme_ok float_of_str) (List.map snd items)).
  { destruct Hspaced as (Hitems & _). apply Forall_map.
    eapply Forall_impl; [|exact Hitems]. now intros item (_ & H). }
  destruct (parse_reads_tree float_of_str _ Hok v j Hparse)
    as (e & Hoke & Heval & Hlex).
  exists e, items, trail.
  repeat split; try assumption; try apply Hspaced.
  now rewrite evaluate_expression_show.
Qed.

(** A witness for X18: [" 1 + 2"]. *)
Lemma evaluate_expression_accepts_only_expressions_witness :
  exists e items trail,
    " 1 + 2" = render items trail
    /\ well_spaced float_of_literal items trail
    /\ List.map snd items = lexemes_of_expression e
    /\ expression_ok float_of_literal e
    /\ eval_expression float_of_literal e = Return (f64 3)
    /\ evaluate_expression float_of_literal (show_expression e)
       = Return (f64 3).
Proof.
  apply (evaluate_expression_accepts_only_expressions
           float_of_literal " 1 + 2" (f64 3)).
  vm_compute. reflexivity.
Defined.

(** * The call stack *)

(** ** A full stack is the only difference *)

Lemma overflows_or_refl {A} (m : parser A) : overflows_or m m.
Proof. intros index. now right. Qed.

Lemma overflows_or_bind {A B} (m' m : parser A) (f' f : A -> parser B) :
  overflows_or m' m ->
  (forall a, overflows_or (f' a) (f a)) ->
  overflows_or (bind m' f') (bind m f).
Proof.
  intros Hm Hf index. unfold bind.
  destruct (Hm index) as [Hdeep| ->].
  - left. destruct (m' index) as [[a|e|] index']; simpl in Hdeep;
      try discriminate. injection Hdeep as ->. reflexivity.
  - destruct (m index) as [[a|e|] index']; [apply Hf|now right|now right].
Qed.

Lemma overflows_or_call {A} (frames : nat) (body : nat -> parser A)
      (m : parser A) :
  (forall frames', overflows_or (body frames') m) ->
  overflows_or (Stack.call frames body) m.
Proof. intros H. destruct frames; [intros index; now left|apply H]. Qed.

Section StackRefines.

Variable float_of_str : string -> option float.
Variable tokens : list _Token.

Lemma stack_expression_S (fuel frames : nat) :
  Stack._parse_expression float_of_str tokens (S fuel) frames
  = Stack.call frames (fun frames' =>
      value <- Stack._parse_term float_of_str tokens fuel frames' ;;
      Stack.expression_loop float_of_str tokens fuel frames' value).
Proof. reflexivity. Qed.

Lemma stack_expression_loop_S (fuel frames : nat) (value : float) :
  Stack.expression_loop float_of_str tokens (S fuel) frames value
  = (current <- Stack._current tokens frames ;;
     if kind_in (kind current) ["+"; "-"] then
       current <- Stack._current tokens frames ;;
       token <- Stack._consume tokens frames (kind current) ;;
       rhs <- Stack._parse_term float_of_str tokens fuel frames ;;
       if (kind token =? "+")%string then
         Stack.expression_loop float_of_str tokens fuel frames
                               (Float.add value rhs)
       else Stack.expression_loop float_of_str tokens fuel frames
                                  (Float.sub value rhs)
     else ret value).
Proof. reflexivity. Qed.

Lemma stack_term_S (fuel frames : nat) :
  Stack._parse_term float_of_str tokens (S fuel) frames
  = Stack.call frames (fun frames' =>
      value <- Stack._parse_factor float_of_str tokens fuel frames' ;;
      Stack.term_loop float_of_str tokens fuel frames' value).
Proof. reflexivity. Qed.

Lemma stack_term_loop_S (fuel frames : nat) (value : float) :
  Stack.term_loop float_of_str tokens (S fuel) frames value
  = (current <- Stack._current tokens frames ;;
     if kind_in (kind current) ["*"; "/"] then
       current <- Stack._current tokens frames ;;
       token <- Stack._consume tokens frames (kind current) ;;
       rhs <- Stack._parse_factor float_of_str tokens fuel frames ;;
       if (kind token =? "*")%string then
         Stack.term_loop float_of_str tokens fuel frames
                         (Float.mul value rhs)
       else if Float.eqb rhs Float.zero then
         raise (ValueError DivisionByZero)
       else Stack.term_loop float_of_str tokens fuel frames
                            (Float.div value rhs)
     else ret value).
Proof. reflexivity. Qed.

Lemma stack_factor_S (fuel frames : nat) :
  Stack._parse_factor float_of_str tokens (S fuel) frames
  = Stack.call frames (fun frames' =>
      current <- Stack._current tokens frames' ;;
      if kind_in (kind current) ["+"; "-"] then
        current <- Stack._current tokens frames' ;;
        token <- Stack._consume tokens frames' (kind current) ;;
        value <- Stack._parse_factor float_of_str tokens fuel frames' ;;
        ret (if (kind token =? "+")%string then value
             else Float.neg value)
      else Stack._parse_primary float_of_str tokens fuel frames').
Proof. reflexivity. Qed.

Lemma stack_primary_S (fuel frames : nat) :
  Stack._parse_primary float_of_str tokens (S fuel) frames
  = Stack.call frames (fun frames' =>
      token <- Stack._current tokens frames' ;;
      if (kind token =? "NUMBER")%string then
        _ <- Stack._consume tokens frames' "NUMBER" ;;
        float_of_value float_of_str (value token)
      else if (kind token =? "(")%string then
        _ <- Stack._consume tokens frames' "(" ;;
        value <- Stack._parse_expression float_of_str tokens fuel frames' ;;
        _ <- Stack._consume tokens frames' ")" ;;
        ret value
      else raise (ValueError (UnexpectedToken (kind token)))).
Proof. reflexivity. Qed.

Lemma overflows_or_current (frames : nat) :
  overflows_or (Stack._current tokens frames) (_current tokens).
Proof.
  apply overflows_or_call. intros _. apply overflows_or_refl.
Qed.

Lemma overflows_or_consume (frames : nat) (k : string) :
  overflows_or (Stack._consume tokens frames k) (_consume tokens k).
Proof.
  apply overflows_or_call. intros frames'. unfold _consume.
  apply overflows_or_bind; [apply overflows_or_current|intros token].
  destruct (negb (kind token =? k)%string); [apply overflows_or_refl|].
  apply overflows_or_bind; [apply overflows_or_current|intros token'].
  apply overflows_or_refl.
Qed.

Ltac overflows_or_step :=
  first
    [ assumption
    | apply overflows_or_refl
    | apply overflows_or_current
    | apply overflows_or_consume
    | apply overflows_or_call; intros ?
    | apply overflows_or_bind; [|intros ?]
    | match goal with
      | |- overflows_or (if ?b then _ else _) _ => destruct b
      | H : forall frames, overflows_or (?f frames) _
        |- overflows_or (?f _) _ => apply H
      | H : forall frames value, overflows_or (?f frames value) _
        |- overflows_or (?f _ _) _ => apply H
      end ].

(** Every method on the bounded stack raises [RecursionError] or does what
    it does on the unbounded one, cursor included. *)
Lemma stack_refines :
  forall fuel frames,
    overflows_or (Stack._parse_expression float_of_str tokens fuel frames)
                 (_parse_expression float_of_str tokens fuel)
    /\ (forall value,
           overflows_or
             (Stack.expression_loop float_of_str tokens fuel frames value)
             (expression_loop float_of_str tokens fuel value))
    /\ overflows_or (Stack._parse_term float_of_str tokens fuel frames)
                    (_parse_term float_of_str tokens fuel)
    /\ (forall value,
           overflows_or
             (Stack.term_loop float_of_str tokens fuel frames value)
             (term_loop float_of_str tokens fuel value))
    /\ overflows_or (Stack._parse_factor float_of_str tokens fuel frames)
                    (_parse_factor float_of_str tokens fuel)
    /\ overflows_or (Stack._parse_primary float_of_str tokens fuel frames)
                    (_parse_primary float_of_str tokens fuel).
Proof.
  induction fuel as [|fuel IH]; intros frames.
  - six; intros; apply overflows_or_refl.
  - assert (IHe : forall frames,
               overflows_or
                 (Stack._parse_expression float_of_str tokens fuel frames)
                 (_parse_expression float_of_str tokens fuel))
      by (intros k; apply (IH k)).
    assert (IHel : forall frames value,
               overflows_or
                 (Stack.expression_loop float_of_str tokens fuel frames
                                        value)
                 (expression_loop float_of_str tokens fuel value))
      by (intros k; apply (IH k)).
    assert (IHt : forall frames,
               overflows_or
                 (Stack._parse_term float_of_str tokens fuel frames)
                 (_parse_term float_of_str tokens fuel))
      by (intros k; apply (IH k)).
    assert (IHtl : forall frames value,
               overflows_or
                 (Stack.term_loop float_of_str tokens fuel frames value)
                 (term_loop float_of_str tokens fuel value))
      by (intros k; apply (IH k)).
    assert (IHf : forall frames,
               overflows_or
                 (Stack._parse_factor float_of_str tokens fuel frames)
                 (_parse_factor float_of_str tokens fuel))
      by (intros k; apply (IH k)).
    assert (IHp : forall frames,
               overflows_or
                 (Stack._parse_primary float_of_str tokens fuel frames)
                 (_parse_primary float_of_str tokens fuel))
      by (intros k; apply (IH k)).
    clear IH.
    six; [|intros value| |intros value| |];
      rewrite ?stack_expression_S, ?stack_expression_loop_S, ?stack_term_S,
        ?stack_term_loop_S, ?stack_factor_S, ?stack_primary_S,
        ?_parse_expression_S, ?expression_loop_S, ?_parse_term_S,
        ?term_loop_S, ?_parse_factor_S, ?_parse_primary_S;
      repeat overflows_or_step.
Qed.

Lemma stack_parse_refines (frames : nat) :
  overflows_or (Stack.parse float_of_str tokens frames)
               (parse float_of_str tokens).
Proof.
  apply overflows_or_call. intros frames'. unfold parse.
  apply overflows_or_bind; [apply stack_refines|intros value].
  apply overflows_or_bind; [apply overflows_or_current|intros token].
  apply overflows_or_refl.
Qed.

End StackRefines.

(** ** The tokeniser on the stack *)

Section StackTokeniser.

Variable float_of_str : string -> option float.

Lemma new_Token_room (frames : nat) (k : string) (v : token_value) :
  Stack.new_Token (S frames) k v = Return (mk_Token k v).
Proof. reflexivity. Qed.

Lemma new_Token_full (k : string) (v : token_value) :
  Stack.new_Token 0 k v = Raise RecursionError.
Proof. reflexivity. Qed.

(** With room for one frame, the loop of the tokeniser does what it does
    without a bound. *)
Lemma stack_tokenise_loop_room (fuel frames : nat) :
  forall rest acc,
    Stack.tokenise_loop float_of_str fuel (S frames) rest acc
    = tokenise_loop float_of_str fuel rest acc.
Proof.
  induction fuel as [|fuel IH]; intros rest acc; [reflexivity|].
  destruct rest as [|c rest]; cbn [Stack.tokenise_loop tokenise_loop];
    rewrite ?new_Token_room; cbn [and_then]; [reflexivity|].
  destruct (isspace c); [apply IH|].
  destruct (char_in c "+-*/()"); [apply IH|].
  destruct (isdigit c || is_dot c); [|reflexivity].
  destruct (scan_number rest) as [run after].
  destruct (float_of_str (String c run)); [|reflexivity].
  rewrite new_Token_room. cbn [and_then]. apply IH.
Qed.

Lemma stack_tokenise_loop_refines (fuel frames : nat) :
  forall rest acc,
    Stack.tokenise_loop float_of_str fuel frames rest acc
    = Raise RecursionError
    \/ Stack.tokenise_loop float_of_str fuel frames rest acc
       = tokenise_loop float_of_str fuel rest acc.
Proof.
  destruct frames as [|frames];
    [|intros; right; apply stack_tokenise_loop_room].
  induction fuel as [|fuel IH]; intros rest acc; [now right|].
  destruct rest as [|c rest]; cbn [Stack.tokenise_loop tokenise_loop];
    rewrite ?new_Token_full; cbn [and_then]; [now left|].
  destruct (isspace c); [apply IH|].
  destruct (char_in c "+-*/()"); [now left|].
  destruct (isdigit c || is_dot c); [|now right].
  destruct (scan_number rest) as [run after].
  destruct (float_of_str (String c run)); [|now right].
  rewrite new_Token_full. now left.
Qed.

Lemma stack_tokenise_room (frames : nat) (source : string) :
  Stack._tokenise float_of_str (S (S frames)) source
  = _tokenise float_of_str source.
Proof. apply stack_tokenise_loop_room. Qed.

Lemma stack_tokenise_refines (frames : nat) (source : string) :
  Stack._tokenise float_of_str frames source = Raise RecursionError
  \/ Stack._tokenise float_of_str frames source
     = _tokenise float_of_str source.
Proof.
  destruct frames as [|frames]; [now left|].
  apply stack_tokenise_loop_refines.
Qed.

(** The evaluator on the bounded stack raises [RecursionError] or does
    what it does on the unbounded one. *)
Lemma stack_evaluate_refines (frames : nat) (text : string) :
  Stack.evaluate_expression float_of_str frames text = Raise RecursionError
  \/ Stack.evaluate_expression float_of_str frames text
     = evaluate_expression float_of_str text.
Proof.
  destruct frames as [|frames]; [now left|].
  unfold Stack.evaluate_expression, evaluate_expression.
  cbn [Stack.call_function].
  destruct (is_empty text || (strip text =? "")%string); [now right|].
  destruct (stack_tokenise_refines frames text) as [-> | ->];
    [now left|].
  destruct (_tokenise float_of_str text) as [tokens|e|]; cbn [and_then];
    [|now right|now right].
  destruct frames as [|frames]; [now left|].
  cbn [Stack.__init__ Stack.call_function and_then fst snd].
  destruct (stack_parse_refines float_of_str tokens (S frames) 0)
    as [Hdeep| ->]; [now left|now right].
Qed.

End StackTokeniser.

(** ** Room enough on the stack *)

Lemma tokens_nesting_cons (token : _Token) (more : list _Token) :
  tokens_nesting (token :: more)
  = kind_nesting (kind token) + tokens_nesting more.
Proof. reflexivity. Qed.

Lemma tokens_nesting_app (front back : list _Token) :
  tokens_nesting (front ++ back)
  = tokens_nesting front + tokens_nesting back.
Proof.
  induction front as [|token front IH]; [reflexivity|].
  rewrite <- app_comm_cons, !tokens_nesting_cons, IH. lia.
Qed.

Lemma tokens_nesting_skipn (l : list _Token) :
  forall k, tokens_nesting (skipn k l) <= tokens_nesting l.
Proof.
  induction l as [|token l IH]; intros [|k]; simpl; try lia.
  rewrite tokens_nesting_cons. specialize (IH k). lia.
Qed.

Lemma nesting_from_le (tokens : list _Token) (i j : nat) :
  i <= j -> nesting_from tokens j <= nesting_from tokens i.
Proof.
  intros Hle. unfold nesting_from.
  replace j with ((j - i) + i) by lia.
  rewrite <- skipn_skipn. apply tokens_nesting_skipn.
Qed.

Lemma nesting_from_token (tokens : list _Token) (index : nat)
      (token : _Token) :
  nth_error tokens index = Some token ->
  nesting_from tokens index
  = kind_nesting (kind token) + nesting_from tokens (S index).
Proof.
  intros Hnth. unfold nesting_from. now rewrite (skipn_nth _ _ _ Hnth).
Qed.

Lemma sign_nesting (k : string) :
  kind_in k ["+"; "-"] = true -> kind_nesting k = 1.
Proof. intros H. now destruct (kind_in_two _ _ _ H) as [-> | ->]. Qed.

Section StackFits.

Variable float_of_str : string -> option float.
Variable body : list _Token.
Variable last : _Token.
Hypothesis last_EOF : kind last = "EOF".

Local Abbreviation tokens := (body ++ [last]).

Lemma fits_refl {A} (P : nat -> Prop) (frames b : nat) (m : parser A) :
  fits tokens P frames b m m.
Proof. intros index _ _ _. reflexivity. Qed.

Lemma fits_weaken {A} (P : nat -> Prop) (frames b : nat)
      (m' m : parser A) :
  fits tokens anywhere frames b m' m -> fits tokens P frames b m' m.
Proof. intros H index _ Hlt Hroom. now apply H. Qed.

Lemma fits_bind {A B} (P : nat -> Prop) (frames b : nat)
      (m' m : parser A) (f' f : A -> parser B) :
  fits tokens P frames b m' m ->
  safe_when tokens anywhere m ->
  (forall a, fits tokens anywhere frames b (f' a) (f a)) ->
  fits tokens P frames b (bind m' f') (bind m f).
Proof.
  intros Hm Hsafe Hf index HP Hlt Hroom. unfold bind.
  rewrite (Hm index HP Hlt Hroom).
  destruct (Hsafe index I Hlt) as ((Hlo & Hhi) & _).
  destruct (m index) as [[a|e|] index']; simpl in *; try reflexivity.
  apply Hf; [exact I|assumption|].
  pose proof (nesting_from_le tokens index index' Hlo). lia.
Qed.

Lemma fits_call {A} (P : nat -> Prop) (frames b : nat)
      (body' : nat -> parser A) (m : parser A) :
  (forall frames', fits tokens P frames' b (body' frames') m) ->
  fits tokens P frames (S b) (Stack.call frames body') m.
Proof.
  intros H index HP Hlt Hroom. destruct frames as [|frames]; [lia|].
  simpl. apply H; [assumption|assumption|lia].
Qed.

Lemma fits_current_bind {B} (P : nat -> Prop) (frames b : nat)
      (f' f : _Token -> parser B) :
  1 <= b ->
  (forall token,
      fits tokens
           (fun index => P index /\ nth_error tokens index = Some token)
           frames b (f' token) (f token)) ->
  fits tokens P frames b (bind (Stack._current tokens frames) f')
       (bind (_current tokens) f).
Proof.
  intros Hb Hf index HP Hlt Hroom. destruct frames as [|frames]; [lia|].
  unfold bind, Stack._current, Stack.call, _current.
  destruct (nth_error tokens index) as [token|] eqn:Hnth; [|reflexivity].
  apply Hf; auto.
Qed.

(** [_consume] needs two frames, and what follows it gains the frames the
    token it took could have cost. *)
Lemma fits_consume_bind {B} (P : nat -> Prop) (frames b b' : nat)
      (k : string) (f' f : _Token -> parser B) :
  2 <= b ->
  b' <= b + kind_nesting k ->
  k <> "EOF" ->
  (forall token, fits tokens anywhere frames b' (f' token) (f token)) ->
  fits tokens P frames b (bind (Stack._consume tokens frames k) f')
       (bind (_consume tokens k) f).
Proof.
  intros Hb Hb' Hk Hf index HP Hlt Hroom.
  destruct frames as [|[|frames]]; [lia|lia|].
  unfold bind, Stack._consume, Stack.call, bind, Stack._current,
    Stack.call, _consume, bind, _current, advance.
  destruct (nth_error tokens index) as [token|] eqn:Hnth; [|reflexivity].
  destruct (kind token =? k)%string eqn:Heq; simpl; [|reflexivity].
  rewrite Hnth. simpl. apply String.eqb_eq in Heq.
  apply Hf; [exact I|apply (not_last body last last_EOF _ _ Hnth);
                     congruence|].
  rewrite (nesting_from_token _ _ _ Hnth), Heq in Hroom. lia.
Qed.

Lemma fits_consume_current {B} (P : nat -> Prop) (frames b b' : nat)
      (seen : _Token) (f' f : _Token -> parser B) :
  2 <= b ->
  b' <= b + kind_nesting (kind seen) ->
  kind seen <> "EOF" ->
  (forall token, fits tokens anywhere frames b' (f' token) (f token)) ->
  fits tokens
       (fun index => P index /\ nth_error tokens index = Some seen)
       frames b
       (token <- Stack._current tokens frames ;;
        bind (Stack._consume tokens frames (kind token)) f')
       (token <- _current tokens ;; bind (_consume tokens (kind token)) f).
Proof.
  intros Hb Hb' Hseen Hf. apply fits_current_bind; [lia|].
  intros token index ((HP & Hnth) & Hnth') Hlt Hroom.
  assert (token = seen) as -> by congruence.
  now apply (fits_consume_bind anywhere frames b b' (kind seen) f' f).
Qed.

Local Abbreviation safe := (parser_safe float_of_str body last last_EOF).

(** With room for the nesting of the tokens ahead and a few frames more,
    every method does on the bounded stack what it does on the unbounded
    one. *)
Lemma stack_fits :
  forall fuel frames,
    fits tokens anywhere frames 6
         (Stack._parse_expression float_of_str tokens fuel frames)
         (_parse_expression float_of_str tokens fuel)
    /\ (forall value,
           fits tokens anywhere frames 5
                (Stack.expression_loop float_of_str tokens fuel frames value)
                (expression_loop float_of_str tokens fuel value))
    /\ fits tokens anywhere frames 5
            (Stack._parse_term float_of_str tokens fuel frames)
            (_parse_term float_of_str tokens fuel)
    /\ (forall value,
           fits tokens anywhere frames 4
                (Stack.term_loop float_of_str tokens fuel frames value)
                (term_loop float_of_str tokens fuel value))
    /\ fits tokens anywhere frames 4
            (Stack._parse_factor float_of_str tokens fuel frames)
            (_parse_factor float_of_str tokens fuel)
    /\ fits tokens anywhere frames 3
            (Stack._parse_primary float_of_str tokens fuel frames)
            (_parse_primary float_of_str tokens fuel).
Proof.
  induction fuel as [|fuel IH]; intros frames.
  - six; intros; apply fits_refl.
  - six.
    + rewrite stack_expression_S, _parse_expression_S.
      apply fits_call. intros frames'.
      apply fits_bind; [apply (IH frames')|apply safe|intros value].
      apply (IH frames').
    + intros value. rewrite stack_expression_loop_S, expression_loop_S.
      apply fits_current_bind; [lia|intros token].
      destruct (kind_in (kind token) ["+"; "-"]) eqn:Hkind;
        [|apply fits_refl].
      apply (fits_consume_current anywhere frames 5 5);
        [lia|lia|now apply kind_in_additive|intros op].
      apply fits_bind; [apply (IH frames)|apply safe|intros rhs].
      destruct (kind op =? "+")%string; apply (IH frames).
    + rewrite stack_term_S, _parse_term_S.
      apply fits_call. intros frames'.
      apply fits_bind; [apply (IH frames')|apply safe|intros value].
      apply (IH frames').
    + intros value. rewrite stack_term_loop_S, term_loop_S.
      apply fits_current_bind; [lia|intros token].
      destruct (kind_in (kind token) ["*"; "/"]) eqn:Hkind;
        [|apply fits_refl].
      apply (fits_consume_current anywhere frames 4 4);
        [lia|lia|now apply kind_in_multiplicative|intros op].
      apply fits_bind; [apply (IH frames)|apply safe|intros rhs].
      destruct (kind op =? "*")%string; [apply (IH frames)|].
      destruct (Float.eqb rhs Float.zero);
        [apply fits_refl|apply (IH frames)].
    + rewrite stack_factor_S, _parse_factor_S.
      apply fits_call. intros frames'.
      apply fits_current_bind; [lia|intros token].
      destruct (kind_in (kind token) ["+"; "-"]) eqn:Hkind;
        [|apply fits_weaken, (IH frames')].
      apply (fits_consume_current anywhere frames' 3 4);
        [lia|rewrite (sign_nesting _ Hkind); lia
        |now apply kind_in_additive|intros op].
      apply fits_bind; [apply (IH frames')|apply safe|intros v].
      apply fits_refl.
    + rewrite stack_primary_S, _parse_primary_S.
      apply fits_call. intros frames'.
      apply fits_current_bind; [lia|intros token].
      destruct (kind token =? "NUMBER")%string.
      { apply (fits_consume_bind _ frames' 2 2);
          [lia|lia|discriminate|intros _]. apply fits_refl. }
      destruct (kind token =? "(")%string; [|apply fits_refl].
      apply (fits_consume_bind _ frames' 2 6);
        [lia|change (kind_nesting "(") with 4; lia|discriminate
        |intros _].
      apply fits_bind; [apply (IH frames')|apply safe|intros v].
      apply (fits_consume_bind _ frames' 6 6);
        [lia|lia|discriminate|intros _]. apply fits_refl.
Qed.

Lemma stack_parse_fits (frames : nat) :
  fits tokens anywhere frames 7 (Stack.parse float_of_str tokens frames)
       (parse float_of_str tokens).
Proof.
  apply fits_call. intros frames'. unfold parse.
  apply fits_bind; [apply stack_fits|apply safe|intros value].
  apply fits_current_bind; [lia|intros token].
  apply fits_refl.
Qed.

End StackFits.

(** ** The nesting of a text *)

Lemma digit_nesting (c : ascii) :
  isdigit c || is_dot c = true -> kind_nesting (char_str c) = 0.
Proof. destruct c as [[] [] [] [] [] [] [] []]; vm_compute; congruence. Qed.

Lemma space_nesting (c : ascii) :
  isspace c = true -> kind_nesting (char_str c) = 0.
Proof. destruct c as [[] [] [] [] [] [] [] []]; vm_compute; congruence. Qed.

Lemma scan_number_nesting (rest : string) :
  forall run after,
    scan_number rest = (run, after) -> nesting rest = nesting after.
Proof.
  induction rest as [|c rest IH]; intros run after Hscan;
    cbn [scan_number] in Hscan.
  - now injection Hscan as <- <-.
  - destruct (isdigit c || is_dot c) eqn:Hdigit.
    + destruct (scan_number rest) as [run' after'].
      injection Hscan as <- <-. cbn [nesting].
      rewrite (digit_nesting _ Hdigit). now apply (IH run').
    + now injection Hscan as <- <-.
Qed.

Section StackTexts.

Variable float_of_str : string -> option float.

(** The tokens have the nesting of the text they are made from. *)
Lemma tokenise_loop_nesting (fuel : nat) :
  forall rest acc tokens,
    tokenise_loop float_of_str fuel rest acc = Return tokens ->
    tokens_nesting tokens = tokens_nesting acc + nesting rest.
Proof.
  induction fuel as [|fuel IH]; intros rest acc tokens Hrun;
    [discriminate|].
  destruct rest as [|c rest]; cbn [tokenise_loop] in Hrun.
  - injection Hrun as <-. rewrite tokens_nesting_app. reflexivity.
  - cbn [nesting].
    destruct (isspace c) eqn:Hspace.
    { rewrite (space_nesting _ Hspace). now apply IH. }
    destruct (char_in c "+-*/()").
    { rewrite (IH _ _ _ Hrun), tokens_nesting_app.
      unfold tokens_nesting at 2. simpl. lia. }
    destruct (isdigit c || is_dot c) eqn:Hdigit; [|discriminate].
    destruct (scan_number rest) as [run after] eqn:Hscan.
    destruct (float_of_str (String c run)); [|discriminate].
    rewrite (IH _ _ _ Hrun), tokens_nesting_app.
    rewrite (digit_nesting _ Hdigit), (scan_number_nesting _ _ _ Hscan).
    unfold tokens_nesting at 2. simpl. lia.
Qed.

(** With room for the nesting of the text and eight frames more, the
    evaluator does on the bounded stack what it does on the unbounded
    one. *)
Lemma stack_evaluate_fits (frames : nat) (text : string) :
  nesting text + 8 <= frames ->
  Stack.evaluate_expression float_of_str frames text
  = evaluate_expression float_of_str text.
Proof.
  intros Hroom. destruct frames as [|[|[|frames]]]; try lia.
  unfold Stack.evaluate_expression, evaluate_expression.
  cbn [Stack.call_function].
  destruct (is_empty text || (strip text =? "")%string); [reflexivity|].
  rewrite stack_tokenise_room.
  destruct (_tokenise float_of_str text) as [tokens|e|] eqn:Htokens;
    cbn [and_then]; try reflexivity.
  cbn [Stack.__init__ Stack.call_function and_then fst snd].
  unfold _tokenise in Htokens.
  pose proof (tokenise_loop_nesting _ _ _ _ Htokens) as Hnesting.
  destruct (tokenise_loop_EOF float_of_str _ _ _ _
                              (Forall_nil _) Htokens)
    as (body & -> & _).
  f_equal.
  apply (stack_parse_fits float_of_str body EOF eq_refl _ 0 I).
  - rewrite length_app. simpl. lia.
  - unfold nesting_from. cbn [skipn]. rewrite Hnesting.
    change (tokens_nesting []) with 0. lia.
Qed.

End StackTexts.

(** ** What a result needs *)

Lemma call_inv {A} (frames : nat) (body : nat -> parser A)
      (index index' : nat) (a : A) :
  Stack.call frames body index = (Return a, index') ->
  exists frames', frames = S frames' /\ body frames' index = (Return a, index').
Proof. destruct frames as [|frames']; [discriminate|eauto]. Qed.

Section StackNeeds.

Variable float_of_str : string -> option float.
Variable tokens : list _Token.

Lemma stack_current_inv (frames index index' : nat) (token : _Token) :
  Stack._current tokens frames index = (Return token, index') ->
  1 <= frames /\ index' = index /\ nth_error tokens index = Some token.
Proof.
  intros H. apply call_inv in H as (frames' & -> & H).
  destruct (nth_error tokens index) as [found|]; [|discriminate].
  injection H as -> <-. repeat split. lia.
Qed.

Lemma stack_consume_inv (frames index index' : nat) (k : string)
      (token : _Token) :
  Stack._consume tokens frames k index = (Return token, index') ->
  2 <= frames /\ index' = S index
  /\ nth_error tokens index = Some token /\ kind token = k.
Proof.
  intros H. apply call_inv in H as (frames' & -> & H).
  apply bind_inv in H as (seen & i1 & Hseen & H).
  apply stack_current_inv in Hseen as (Hroom & -> & Hnth).
  destruct (kind seen =? k)%string eqn:Hkind; [|discriminate].
  simpl in H.
  apply bind_inv in H as (again & i2 & Hagain & H).
  apply stack_current_inv in Hagain as (_ & -> & Hnth').
  injection H as <- <-.
  assert (again = seen) as -> by congruence.
  apply String.eqb_eq in Hkind. repeat split; (lia || assumption).
Qed.

Lemma stack_primary_needs (fuel frames : nat) :
  needs tokens frames 3
        (Stack._parse_primary float_of_str tokens fuel frames).
Proof.
  intros index a index' H. destruct fuel as [|fuel]; [discriminate|].
  rewrite stack_primary_S in H.
  apply call_inv in H as (frames' & -> & H).
  apply bind_inv in H as (token & i1 & Hseen & H).
  apply stack_current_inv in Hseen as (Hroom & -> & Hnth).
  rewrite (skipn_nth _ _ _ Hnth). cbn [signs_ahead].
  destruct (kind token =? "NUMBER")%string eqn:Hnumber.
  { apply String.eqb_eq in Hnumber. rewrite Hnumber.
    apply bind_inv in H as (taken & i2 & Htaken & _).
    apply stack_consume_inv in Htaken as (Hroom' & _).
    change (kind_in "NUMBER" ["+"; "-"]) with false. cbv iota. lia. }
  destruct (kind token =? "(")%string eqn:Hparen; [|discriminate].
  apply String.eqb_eq in Hparen. rewrite Hparen.
  apply bind_inv in H as (taken & i2 & Htaken & _).
  apply stack_consume_inv in Htaken as (Hroom' & _).
  change (kind_in "(" ["+"; "-"]) with false. cbv iota. lia.
Qed.

(** [_parse_factor] returns only when the stack has room for four frames
    and one more for each sign ahead. *)
Lemma stack_factor_needs :
  forall fuel frames,
    needs tokens frames 4
          (Stack._parse_factor float_of_str tokens fuel frames).
Proof.
  induction fuel as [|fuel IH]; intros frames index a index' H;
    [discriminate|].
  rewrite stack_factor_S in H.
  apply call_inv in H as (frames' & -> & H).
  apply bind_inv in H as (token & i1 & Hseen & H).
  apply stack_current_inv in Hseen as (Hroom & -> & Hnth).
  destruct (kind_in (kind token) ["+"; "-"]) eqn:Hkind.
  - apply bind_inv in H as (again & i2 & Hagain & H).
    apply stack_current_inv in Hagain as (_ & -> & _).
    apply bind_inv in H as (taken & i3 & Htaken & H).
    apply stack_consume_inv in Htaken as (_ & -> & _ & _).
    apply bind_inv in H as (v & i4 & Hinner & _).
    apply IH in Hinner.
    rewrite (skipn_nth _ _ _ Hnth). cbn [signs_ahead]. rewrite Hkind.
    lia.
  - apply stack_primary_needs in H. lia.
Qed.

Lemma stack_parse_needs (frames : nat) :
  needs tokens frames 7 (Stack.parse float_of_str tokens frames).
Proof.
  intros index a index' H.
  apply call_inv in H as (frames1 & -> & H).
  apply bind_inv in H as (v & i1 & H & _).
  destruct (parse_fuel tokens) as [|fuel]; [discriminate|].
  rewrite stack_expression_S in H.
  apply call_inv in H as (frames2 & -> & H).
  apply bind_inv in H as (v1 & i2 & H & _).
  destruct fuel as [|fuel]; [discriminate|].
  rewrite stack_term_S in H.
  apply call_inv in H as (frames3 & -> & H).
  apply bind_inv in H as (v2 & i3 & H & _).
  apply stack_factor_needs in H. lia.
Qed.

End StackNeeds.

(** The evaluator returns only when the stack has room for eight frames
    and one more for each sign the text starts with. *)
Lemma stack_evaluate_needs (float_of_str : string -> option float)
      (frames : nat) (text : string) (v : float) :
  Stack.evaluate_expression float_of_str frames text = Return v ->
  exists found,
    _tokenise float_of_str text = Return found
    /\ signs_ahead found + 8 <= frames.
Proof.
  intros H. destruct frames as [|frames]; [discriminate|].
  unfold Stack.evaluate_expression in H. cbn [Stack.call_function] in H.
  destruct (is_empty text || (strip text =? "")%string); [discriminate|].
  destruct (stack_tokenise_refines float_of_str frames text)
    as [Hdeep|Hsame]; [now rewrite Hdeep in H|].
  rewrite Hsame in H.
  destruct (_tokenise float_of_str text) as [found|e|];
    cbn [and_then] in H; try discriminate.
  exists found. split; [reflexivity|].
  destruct frames as [|frames]; [discriminate|].
  cbn [Stack.__init__ Stack.call_function and_then fst snd] in H.
  destruct (Stack.parse float_of_str found (S frames) 0)
    as [o index'] eqn:Hparse.
  simpl in H. subst o.
  apply stack_parse_needs in Hparse. cbn [skipn] in Hparse. lia.
Qed.

(** ** Division, on trees *)

Section DivisionFacts.

Variable float_of_str : string -> option float.

Local Abbreviation raised := (@Raise float (ValueError DivisionByZero)).

(** Evaluating a well-formed tree from left to right raises "Division by
    zero" when one of its divisors is zero and gives its value
    otherwise. *)
Lemma eval_checked :
  (forall p,
      primary_ok float_of_str p ->
      eval_primary float_of_str p
      = if zero_divisor_primary float_of_str p then raised
        else Return (value_primary float_of_str p))
  /\ (forall f,
         factor_ok float_of_str f ->
         eval_factor float_of_str f
         = if zero_divisor_factor float_of_str f then raised
           else Return (value_factor float_of_str f))
  /\ (forall t,
         term_ok float_of_str t ->
         eval_term float_of_str t
         = if zero_divisor_term float_of_str t then raised
           else Return (value_term float_of_str t))
  /\ (forall e,
         expression_ok float_of_str e ->
         eval_expression float_of_str e
         = if zero_divisor_expression float_of_str e then raised
           else Return (value_expression float_of_str e)).
Proof.
  apply tree_mutind.
  - intros literal (_ & _ & Hsome). cbn. unfold number_of.
    destruct (float_of_str literal); [reflexivity|congruence].
  - intros e IH Hok. cbn. now apply IH.
  - intros p IH Hok. cbn. now apply IH.
  - intros op f IH Hok.
    cbn [eval_factor zero_divisor_factor value_factor].
    rewrite (IH Hok).
    now destruct (zero_divisor_factor float_of_str f).
  - intros f IH Hok. cbn. now apply IH.
  - intros t IHt op f IHf (Hokt & Hokf).
    cbn [eval_term]. rewrite (IHt Hokt), (IHf Hokf).
    destruct op; cbn [zero_divisor_term value_term];
      destruct (zero_divisor_term float_of_str t); cbn [and_then orb];
        try reflexivity;
      destruct (zero_divisor_factor float_of_str f); cbn [and_then orb];
        reflexivity.
  - intros t IH Hok. cbn. now apply IH.
  - intros e IHe op t IHt (Hoke & Hokt).
    cbn [eval_expression zero_divisor_expression value_expression].
    rewrite (IHe Hoke), (IHt Hokt).
    destruct (zero_divisor_expression float_of_str e); cbn [and_then orb];
      try reflexivity.
    now destruct (zero_divisor_term float_of_str t).
Qed.

End DivisionFacts.

(** ** Signs on the stack *)

Lemma literal_nesting (literal : string) :
  all_chars digit_or_dot literal = true -> nesting literal = 0.
Proof.
  induction literal as [|c literal IH]; [reflexivity|].
  cbn [all_chars nesting]. intros H.
  apply andb_true_iff in H as (Hc & Hrest).
  now rewrite (digit_nesting _ Hc), IH.
Qed.

Lemma signs_nesting (signs : list sign) (text : string) :
  nesting (signs_text signs text) = List.length signs + nesting text.
Proof.
  induction signs as [|op signs IH]; [reflexivity|].
  cbn [signs_text nesting List.length]. rewrite IH. now destruct op.
Qed.

Lemma minus_signs_text (n : nat) (text : string) :
  signs_text (repeat Minus n) text = minus_signs n text.
Proof. induction n as [|n IH]; simpl; [reflexivity|now rewrite IH]. Qed.

Lemma count_minus_repeat (n : nat) : count_minus (repeat Minus n) = n.
Proof.
  induction n as [|n IH]; [reflexivity|].
  cbn [repeat]. now rewrite count_minus_cons, IH.
Qed.

Section SignsOnStack.

Variable float_of_str : string -> option float.

Lemma signed_signs_ahead (signs : list sign) (literal : string)
      (rest : list _Token) :
  signs_ahead
    (tokens_of_factor float_of_str (signed signs (Primary (Number literal)))
     ++ rest)
  = List.length signs.
Proof.
  induction signs as [|op signs IH]; [reflexivity|].
  cbn [signed tokens_of_factor List.length].
  rewrite <- app_comm_cons. cbn [signs_ahead]. rewrite IH.
  now destruct op.
Qed.

(** Signs written before a number literal need a frame each, and eight
    frames more: with that room the evaluator returns the number or its
    negation, with less it raises [RecursionError]. *)
Lemma signs_on_stack (frames : nat) (signs : list sign) (literal : string)
      (number : float) :
  literal_ok float_of_str literal ->
  float_of_str literal = Some number ->
  Stack.evaluate_expression float_of_str frames (signs_text signs literal)
  = if Nat.leb (List.length signs + 8) frames then
      Return (if Nat.even (count_minus signs) then number
              else Float.neg number)
    else Raise RecursionError.
Proof.
  intros Hok Hnumber.
  pose proof (signs_unbounded float_of_str signs literal number
                              Hok Hnumber) as Hfree.
  destruct (Nat.leb_spec (List.length signs + 8) frames) as [Hroom|Hdeep].
  - rewrite stack_evaluate_fits; [exact Hfree|].
    destruct Hok as (_ & Hall & _).
    rewrite signs_nesting, (literal_nesting _ Hall). lia.
  - destruct (stack_evaluate_refines float_of_str frames
                                     (signs_text signs literal))
      as [Hraised|Hsame]; [exact Hraised|].
    rewrite Hfree in Hsame.
    apply stack_evaluate_needs in Hsame as (found & Hfound & Hneeds).
    assert (Hshow : signs_text signs literal
                    = show_expression
                        (ETerm (TFactor (signed signs
                                           (Primary (Number literal))))))
      by (simpl; now rewrite signed_show).
    rewrite Hshow, _tokenise_show in Hfound
      by (simpl; now apply signed_ok).
    injection Hfound as <-. cbn [tokens_of_expression tokens_of_term] in Hneeds.
    rewrite signed_signs_ahead in Hneeds. lia.
Qed.

End SignsOnStack.

(** ** The claims and properties that depend on the stack *)

(** The text of a well-formed tree, written with any white space, is
    evaluated from left to right. *)
Lemma evaluate_render_tree
      (float_of_str : string -> option float) (e : expression_tree)
      (items : list (string * lexeme)) (trail : string) :
  expression_ok float_of_str e ->
  List.map snd items = lexemes_of_expression e ->
  Forall (fun item => blank (fst item)) items ->
  blank trail ->
  evaluate_expression float_of_str (render items trail)
  = eval_expression float_of_str e.
Proof.
  intros Hok Hitems Hgaps Htrail.
  destruct (tree_well_spaced float_of_str e items trail
                             Hok Hitems Hgaps Htrail) as (Hspaced & Hlex).
  rewrite evaluate_render; [|exact Hspaced|].
  - now rewrite Hlex, parse_tokens_of.
  - intros ->. simpl in Hitems.
    destruct (tokens_not_empty float_of_str) as (_ & _ & _ & Hne).
    destruct (lexemes_of_trees float_of_str) as (_ & _ & _ & Hfit).
    destruct (Hfit e Hok) as (_ & Htok & _).
    rewrite <- Hitems in Htok. now elim (Hne e).
Qed.

(** C2: division by zero, for every expression.  Take any well-formed
    expression, written with any white space, and a call stack with room
    for [frames] frames.  When some division of the expression, at any
    depth (in parentheses, under signs, inside an operand), has a divisor
    whose value is [== 0], [evaluate_expression] raises "Division by zero";
    when none has, it returns the value of the expression.  The only other
    outcome is [RecursionError], and only on a stack without room for the
    nesting of the text and eight frames more.  The divisor is tested by
    its value, when it has been evaluated: ["1/(2-2)"] raises the error,
    ["0/1"] returns [0.0]. *)
Theorem division_by_zero
        (float_of_str : string -> option float) (frames : nat)
        (e : expression_tree)
        (items : list (string * lexeme)) (trail : string) :
  expression_ok float_of_str e ->
  List.map snd items = lexemes_of_expression e ->
  Forall (fun item => blank (fst item)) items ->
  blank trail ->
  (Stack.evaluate_expression float_of_str frames (render items trail)
   = Raise RecursionError
   \/ Stack.evaluate_expression float_of_str frames (render items trail)
      = if zero_divisor_expression float_of_str e then
          Raise (ValueError DivisionByZero)
        else Return (value_expression float_of_str e))
  /\ (nesting (render items trail) + 8 <= frames ->
      Stack.evaluate_expression float_of_str frames (render items trail)
      = if zero_divisor_expression float_of_str e then
          Raise (ValueError DivisionByZero)
        else Return (value_expression float_of_str e))
  /\ Stack.evaluate 1000 "1/(2-2)" = Raise (ValueError DivisionByZero)
  /\ Stack.evaluate 1000 "0/1" = Return (f64 0).
Proof.
  intros Hok Hitems Hgaps Htrail.
  pose proof (evaluate_render_tree float_of_str e items trail
                                   Hok Hitems Hgaps Htrail) as Hfree.
  destruct (eval_checked float_of_str) as (_ & _ & _ & Hchecked).
  rewrite (Hchecked e Hok) in Hfree.
  split; [|split; [|split; vm_compute; reflexivity]].
  - destruct (stack_evaluate_refines float_of_str frames
                                     (render items trail))
      as [Hraised|Hsame]; [now left|right; congruence].
  - intros Hroom. now rewrite stack_evaluate_fits.
Qed.

(** A witness for C2: the division in parentheses of [" 2*(6/(3-3)) "],
    on a stack with room for 1000 frames. *)
Lemma division_by_zero_witness :
  (Stack.evaluate_expression float_of_literal 1000 " 2*(6/(3-3)) "
   = Raise RecursionError
   \/ Stack.evaluate_expression float_of_literal 1000 " 2*(6/(3-3)) "
      = Raise (ValueError DivisionByZero))
  /\ (nesting " 2*(6/(3-3)) " + 8 <= 1000 ->
      Stack.evaluate_expression float_of_literal 1000 " 2*(6/(3-3)) "
      = Raise (ValueError DivisionByZero))
  /\ Stack.evaluate 1000 "1/(2-2)" = Raise (ValueError DivisionByZero)
  /\ Stack.evaluate 1000 "0/1" = Return (f64 0).
Proof.
  apply (division_by_zero
           float_of_literal 1000
           (ETerm
              (TBinary
                 (TFactor (Primary (Number "2"))) Times
                 (Primary
                    (Paren
                       (ETerm
                          (TBinary
                             (TFactor (Primary (Number "6"))) Divide
                             (Primary
                                (Paren
                                   (EBinary
                                      (ETerm
                                         (TFactor (Primary (Number "3"))))
                                      Minus
                                      (TFactor
                                         (Primary (Number "3"))))))))))))
           [(" ", LNumber "2"); ("", LSymbol "*"); ("", LSymbol "(");
            ("", LNumber "6"); ("", LSymbol "/"); ("", LSymbol "(");
            ("", LNumber "3"); ("", LSymbol "-"); ("", LNumber "3");
            ("", LSymbol ")"); ("", LSymbol ")")] " ").
  - repeat split; vm_compute; congruence.
  - reflexivity.
  - repeat constructor.
  - reflexivity.
Defined.

(** C4, as amended: [n] minus signs written before a number literal
    evaluate to the number when [n] is even and to its negation when [n]
    is odd, provided the call stack has room for [n + 8] frames when
    [evaluate_expression] is called: one for each sign, which
    [_parse_factor] reads by calling itself, and eight for
    [evaluate_expression], [parse], [_parse_expression], [_parse_term],
    [_parse_factor], [_parse_primary], [_consume] and [_current].  With
    less room the evaluation raises [RecursionError]. *)
Theorem unary_minus_parity_on_stack
        (float_of_str : string -> option float) (frames n : nat)
        (literal : string) (number : float) :
  literal_ok float_of_str literal ->
  float_of_str literal = Some number ->
  Stack.evaluate_expression float_of_str frames (minus_signs n literal)
  = if Nat.leb (n + 8) frames then
      Return (if Nat.even n then number else Float.neg number)
    else Raise RecursionError.
Proof.
  intros Hok Hnumber.
  pose proof (signs_on_stack float_of_str frames (repeat Minus n) literal
                             number Hok Hnumber) as H.
  now rewrite minus_signs_text, repeat_length, count_minus_repeat in H.
Qed.

(** A witness for C4: three minus signs before ["2.5"], on a stack with
    room for exactly eleven frames. *)
Lemma unary_minus_parity_on_stack_witness :
  Stack.evaluate_expression float_of_literal 11 "---2.5"
  = Return (f64 (-2.5)).
Proof.
  apply (unary_minus_parity_on_stack float_of_literal 11 3 "2.5" (f64 2.5)).
  - repeat split; vm_compute; congruence.
  - vm_compute. reflexivity.
Defined.

(** C4 as it is stated fails: on a stack with room for 1000 frames, 1000
    minus signs before ["1"] do not evaluate to [1.0], the evaluation
    raises [RecursionError]. *)
Lemma unary_minus_parity_fails_when_deep :
  Stack.evaluate 1000 (minus_signs 1000 "1") = Raise RecursionError
  /\ Stack.evaluate 1000 (minus_signs 1000 "1")
     <> Return (if Nat.even 1000 then f64 1 else Float.neg (f64 1)).
Proof. split; [vm_compute; reflexivity|vm_compute; discriminate]. Qed.

(** X8: [evaluate_expression] fails with nothing but [ValueError] and
    [RecursionError].  On every string and every call stack it returns a
    number or raises one of the two; the parser never reads outside the
    token list.  [RecursionError] needs a deep text: with room for eight
    frames, four more for each ["("] and one more for each ["+"] and ["-"]
    of the text, the outcome is a number or [ValueError]. *)
Theorem evaluate_expression_raises_ValueError_or_RecursionError
        (float_of_str : string -> option float) (frames : nat)
        (text : string) :
  no_other_error (Stack.evaluate_expression float_of_str frames text)
  /\ (nesting text + 8 <= frames ->
      only_value_error (Stack.evaluate_expression float_of_str frames text)).
Proof.
  pose proof (evaluate_expression_only_value_error float_of_str text)
    as Hfree.
  split.
  - destruct (stack_evaluate_refines float_of_str frames text)
      as [-> | ->]; [exact I|].
    now destruct (evaluate_expression float_of_str text)
      as [v|[msg| | |]|].
  - intros Hroom. now rewrite stack_evaluate_fits.
Qed.

(** X10: unary signs nest as far as the stack allows.  Any list of [+] and
    [-] signs written before a number literal evaluates to the number when
    the count of [-] is even and to its negation when it is odd, the [+]
    signs changing nothing, provided the call stack has room for a frame
    for each sign and eight frames more; with less room the evaluation
    raises [RecursionError]. *)
Theorem unary_signs_nest
        (float_of_str : string -> option float) (frames : nat)
        (signs : list sign) (literal : string) (number : float) :
  literal_ok float_of_str literal ->
  float_of_str literal = Some number ->
  Stack.evaluate_expression float_of_str frames (signs_text signs literal)
  = if Nat.leb (List.length signs + 8) frames then
      Return (if Nat.even (count_minus signs) then number
              else Float.neg number)
    else Raise RecursionError.
Proof. intros Hok Hnumber. now apply signs_on_stack. Qed.

(** A witness for X10: ["-+-3"] is [3.0] on a stack with room for eleven
    frames. *)
Lemma unary_signs_nest_witness :
  Stack.evaluate_expression float_of_literal 11 "-+-3" = Return (f64 3).
Proof.
  apply (unary_signs_nest float_of_literal 11 [Minus; Plus; Minus] "3"
                          (f64 3)).
  - repeat split; vm_compute; congruence.
  - vm_compute. reflexivity.
Defined.

(** X19: the bound on the stack changes nothing but [RecursionError].  On
    every string and every call stack, [evaluate_expression] raises
    [RecursionError] or does exactly what it does when calls can be nested
    to any depth; it does the latter whenever the stack has room for eight
    frames, four more for each ["("] and one more for each ["+"] and ["-"]
    of the text; and it returns a value only with room for eight frames
    and one more for each sign the text starts with. *)
Theorem evaluate_expression_on_stack
        (float_of_str : string -> option float) (frames : nat)
        (text : string) :
  (Stack.evaluate_expression float_of_str frames text = Raise RecursionError
   \/ Stack.evaluate_expression float_of_str frames text
      = evaluate_expression float_of_str text)
  /\ (nesting text + 8 <= frames ->
      Stack.evaluate_expression float_of_str frames text
      = evaluate_expression float_of_str text)
  /\ (forall v,
         Stack.evaluate_expression float_of_str frames text = Return v ->
         exists found,
           _tokenise float_of_str text = Return found
           /\ signs_ahead found + 8 <= frames).
Proof.
  split; [apply stack_evaluate_refines|].
  split; [apply stack_evaluate_fits|].
  intros v. apply stack_evaluate_needs.
Qed.
